(** * password_tool.py: strength analysis and wordlist generation

    A shallow embedding of [src/password_tool.py] and the properties its
    specification states about it.

    - Python [str] is a sequence of Unicode code points: [list N].
    - Python [set] is [gset]; a [dict] with string keys is a [gmap] (the
      substitution table) or an association list (result records).
    - A call that raises is [None] in the option monad.
    - What the code takes from the Python runtime and not from this
      repository (Unicode case mapping and character classes, the order in
      which a set is visited, [math.log2], [round]) is a field of the class
      [Python].  Its laws fix the built-ins on ASCII.  The theorems hold
      for every instance; the instance [cpython] shows the laws can be met
      and evaluates the examples. *)

From Stdlib Require Import ZArith NArith List Ascii String Floats Uint63.
From stdpp Require Import base gmap sets list strings sorting.

Local Open Scope N_scope.
#[local] Set Warnings "-clear-no-such-hyp,-inexact-float,-register-all".

(** * Part I: the program *)

(** ** Strings *)

Abbreviation str := (list N).

(** An ASCII literal as a Python string. *)
Definition cps (s : string) : str := N_of_ascii <$> list_ascii_of_string s.

(** [list(word)] and iteration over a string: its one-character strings. *)
Definition chars (s : str) : list str := (λ c, [c]) <$> s.

(** [sep.join(s)] for the empty separator. *)
Definition join (s : list str) : str := concat s.

(** [enumerate(l)] *)
Definition enumerate {A} (l : list A) : list (nat * A) := imap pair l.

Definition is_ascii (s : str) : Prop := Forall (λ c, c < 128) s.

Definition ascii_lower (c : N) : N :=
  if (65 <=? c) && (c <=? 90) then c + 32 else c.

Definition ascii_upper (c : N) : N :=
  if (97 <=? c) && (c <=? 122) then c - 32 else c.

Definition ascii_alpha (c : N) : bool :=
  ((65 <=? c) && (c <=? 90)) || ((97 <=? c) && (c <=? 122)).

Definition ascii_space (c : N) : bool :=
  ((9 <=? c) && (c <=? 13)) || ((28 <=? c) && (c <=? 32)).

Definition ascii_digit (c : N) : bool := (48 <=? c) && (c <=? 57).

(** [capitalize] and [title] on ASCII: a letter is cased, nothing else is. *)
Definition ascii_capitalize (s : str) : str :=
  match s with
  | [] => []
  | c :: s' => ascii_upper c :: (ascii_lower <$> s')
  end.

Fixpoint ascii_title_go (previous_is_cased : bool) (s : str) : str :=
  match s with
  | [] => []
  | c :: s' =>
      (if previous_is_cased then ascii_lower c else ascii_upper c)
        :: ascii_title_go (ascii_alpha c) s'
  end.

Definition ascii_title (s : str) : str := ascii_title_go false s.

(** ** The Python runtime

    The built-ins the tool calls.  Their Unicode tables are not part of the
    repository, so they are fields; the laws state what Python does with
    them on ASCII, that a set is visited once per element, that no decimal
    digit is a space, and the value of [math.log2] at [94.0]. *)

Class Python := {
  (** [s.lower()], [s.upper()], [s.capitalize()], [s.title()] *)
  str_lower : str → str;
  str_upper : str → str;
  str_capitalize : str → str;
  str_title : str → str;
  (** one character of [\s] (also of [str.strip]), of [\d], of
      [str.isdigit], and the value [int] gives a decimal digit *)
  chr_isspace : N → bool;
  chr_isdecimal : N → bool;
  chr_isdigit : N → bool;
  chr_decimal : N → Z;
  (** the order in which [for x in some_set] visits a set of strings *)
  set_iter : gset str → list str;
  (** [math.log2] and [round(x, ndigits)] on floats *)
  math_log2 : float → float;
  py_round : float → Z → float;

  set_iter_perm : ∀ X, set_iter X ≡ₚ elements X;
  str_lower_ascii : ∀ s, is_ascii s → str_lower s = ascii_lower <$> s;
  str_upper_ascii : ∀ s, is_ascii s → str_upper s = ascii_upper <$> s;
  str_capitalize_ascii : ∀ s, is_ascii s → str_capitalize s = ascii_capitalize s;
  str_title_ascii : ∀ s, is_ascii s → str_title s = ascii_title s;
  chr_isspace_ascii : ∀ c, c < 128 → chr_isspace c = ascii_space c;
  chr_isdecimal_ascii : ∀ c, c < 128 → chr_isdecimal c = ascii_digit c;
  chr_isdigit_ascii : ∀ c, c < 128 → chr_isdigit c = ascii_digit c;
  chr_decimal_ascii : ∀ c, ascii_digit c = true → chr_decimal c = (Z.of_N c - 48)%Z;
  chr_decimal_not_space : ∀ c, chr_isdecimal c = true → chr_isspace c = false;
  math_log2_94 : math_log2 94 = 0x1.a37e623d2ba02p+2%float;
}.

(** ** Control flow: loops over lists in the option monad *)

(** [for x in l: body] where the body may raise. *)
Fixpoint for_each {A S} (body : A → S → option S) (l : list A) (s : S)
  : option S :=
  match l with
  | [] => Some s
  | x :: l' => s' ← body x s; for_each body l' s'
  end.

(** [for x in l: body; if stop: break] where the body may raise. *)
Fixpoint for_each_until {A S} (body : A → S → option S) (stop : S → bool)
    (l : list A) (s : S) : option S :=
  match l with
  | [] => Some s
  | x :: l' =>
      s' ← body x s;
      if stop s' then Some s' else for_each_until body stop l' s'
  end.

(** [s[i] = x] on a list: [IndexError] past the end. *)
Definition list_assign {A} (s : list A) (i : nat) (x : A) : option (list A) :=
  if decide (i < length s)%nat then Some (<[i:=x]> s) else None.

(** [range(lo, hi)] on naturals. *)
Definition range (lo hi : nat) : list nat := seq lo (hi - lo).

(** [itertools.product] of the pools: the last pool varies fastest. *)
Fixpoint product {A} (pools : list (list A)) : list (list A) :=
  match pools with
  | [] => [[]]
  | p :: ps => x ← p; (cons x) <$> product ps
  end.

(** [out.add(x)] *)
Definition set_add (x : str) (out : gset str) : gset str := {[ x ]} ∪ out.

(** ** Leetspeak expansion *)

Definition LEET_MAP : gmap str (list str) :=
  list_to_map
    [ (cps "a", [cps "a"; cps "4"; cps "@"]);
      (cps "e", [cps "e"; cps "3"]);
      (cps "i", [cps "i"; cps "1"; cps "!"]);
      (cps "o", [cps "o"; cps "0"]);
      (cps "s", [cps "s"; cps "5"; cps "$"]);
      (cps "t", [cps "t"; cps "7"]);
      (cps "g", [cps "g"; cps "9"]);
      (cps "b", [cps "b"; cps "8"]);
      (cps "l", [cps "l"; cps "1"]) ].

(** [ch in LEET_MAP] *)
Definition in_leet_map (ch : str) : bool := bool_decide (is_Some (LEET_MAP !! ch)).

(** [choices]: [LEET_MAP[ch]] for every position. *)
Definition leet_choices (positions : list (nat * str)) : option (list (list str)) :=
  mapM (λ p, LEET_MAP !! p.2) positions.

(** One step of the loop of [apply_variant]:
    [s[pos] = LEET_MAP[ch][choice_idx]]. *)
Definition substitute (pc : (nat * str) * nat) (s : list str) : option (list str) :=
  alts ← LEET_MAP !! pc.1.2;
  r ← alts !! pc.2;
  list_assign s pc.1.1 r.

(** [apply_variant(mask)], with the set [produced] it adds to. *)
Definition apply_variant (word : str) (positions : list (nat * str))
    (mask : list nat) (produced : gset str) : option (gset str) :=
  s ← for_each substitute (zip positions mask) (chars word);
  Some (set_add (join s) produced).

(** The body of the non-aggressive loop for one position. *)
Definition single_substitutions (word : str) (p : nat * str)
    (produced : gset str) : option (gset str) :=
  alts ← LEET_MAP !! p.2;
  for_each
    (λ choice_idx produced,
       r ← alts !! choice_idx;
       s ← list_assign (chars word) p.1 r;
       Some (set_add (join s) produced))
    (range 1 (min (length alts) 2)) produced.

Section leet.
Context `{Python}.

(** [[(i, ch) for i, ch in enumerate(word.lower()) if ch in LEET_MAP]] *)
Definition leet_positions (word : str) : list (nat * str) :=
  filter (λ p, in_leet_map p.2 = true) (enumerate (chars (str_lower word))).

(** The set [produced] when the loops are over; [None] when one raised. *)
Definition leet_produced (word : str) (aggressive : bool) (cap : Z)
  : option (gset str) :=
  let positions := leet_positions word in
  choices ← leet_choices positions;
  if negb aggressive then
    for_each (single_substitutions word) positions ∅
  else
    let rngs := (λ c, range 0 (min (length c) 3)) <$> choices in
    for_each_until (apply_variant word positions)
      (λ produced, bool_decide (cap ≤ Z.of_nat (size produced))%Z)
      (product rngs) ∅.

Definition leet_variants (word : str) (aggressive : bool) (cap : Z)
  : option (gset str) :=
  let variants : gset str := {[ word ]} in
  let positions := leet_positions word in
  if bool_decide (positions = []) then Some variants
  else
    produced ← leet_produced word aggressive cap;
    Some (variants ∪ produced).

End leet.

(** ** Sorting

    [sorted] on distinct keys of a total order has one possible result, so
    any sorting function models it ([sorted_unique] below). *)

Fixpoint str_leb (a b : str) : bool :=
  match a, b with
  | [], _ => true
  | _ :: _, [] => false
  | x :: a', y :: b' => (x <? y) || ((x =? y) && str_leb a' b')
  end.

(** [a <= b] on strings: lexicographic on code points. *)
Definition str_le (a b : str) : Prop := str_leb a b = true.

(** [(len(a), a) <= (len(b), b)]: tuples compare component by component. *)
Definition key_le (a b : str) : Prop :=
  (length a < length b)%nat ∨ (length a = length b ∧ str_le a b).

#[global] Instance str_le_dec : RelDecision str_le :=
  λ a b, decide (str_leb a b = true).

#[global] Instance key_le_dec : RelDecision key_le :=
  λ a b, decide ((length a < length b)%nat ∨ (length a = length b ∧ str_le a b)).

(** [sorted(xs)] and [sorted(xs, key=lambda x: (len(x), x))] *)
Definition sorted (xs : list str) : list str := merge_sort str_le xs.
Definition sorted_by_len (xs : list str) : list str := merge_sort key_le xs.

(** [l[:stop]]: a negative [stop] counts from the end. *)
Definition slice_to {A} (l : list A) (stop : Z) : list A :=
  if bool_decide (stop < 0)%Z
  then take (Z.to_nat (Z.of_nat (length l) + stop)) l
  else take (Z.to_nat stop) l.

(** ** Token normalisation *)

(** [str(n)] for an integer. *)
Fixpoint uint_str (d : Decimal.uint) : str :=
  match d with
  | Decimal.Nil => []
  | Decimal.D0 d => 48 :: uint_str d
  | Decimal.D1 d => 49 :: uint_str d
  | Decimal.D2 d => 50 :: uint_str d
  | Decimal.D3 d => 51 :: uint_str d
  | Decimal.D4 d => 52 :: uint_str d
  | Decimal.D5 d => 53 :: uint_str d
  | Decimal.D6 d => 54 :: uint_str d
  | Decimal.D7 d => 55 :: uint_str d
  | Decimal.D8 d => 56 :: uint_str d
  | Decimal.D9 d => 57 :: uint_str d
  end.

Definition str_of_int (z : Z) : str :=
  match z with
  | Z0 => [48]
  | Zpos p => uint_str (Pos.to_uint p)
  | Zneg p => 45 :: uint_str (Pos.to_uint p)
  end.

(** [len(y) in (2, 4)] *)
Definition len_2_or_4 (y : str) : bool :=
  bool_decide (length y = 2%nat ∨ length y = 4%nat).

(** [if x:] on an optional string: neither [None] nor empty. *)
Definition truthy (x : option str) : option str :=
  match x with
  | Some ((_ :: _) as s) => Some s
  | _ => None
  end.

Section tokens.
Context `{Python}.

Fixpoint lstrip (s : str) : str :=
  match s with
  | c :: s' => if chr_isspace c then lstrip s' else s
  | [] => []
  end.

(** [s.strip()] *)
Definition strip (s : str) : str := reverse (lstrip (reverse (lstrip s))).

(** [y.isdigit()] *)
Definition isdigit (y : str) : bool :=
  negb (bool_decide (y = [])) && forallb chr_isdigit y.

(** [int(s)] on a string of decimal digits. *)
Definition int_of_digits (s : str) : Z :=
  foldl (λ acc c, acc * 10 + chr_decimal c)%Z 0%Z s.

(** One character of the class [[,\s]]. *)
Definition is_sep (c : N) : bool := (c =? 44) || chr_isspace c.

(** [re.split(r"[,\s]+", s)]: the pieces between the maximal runs of
    separators, empty ones at the two ends included.  [in_sep] holds while
    a run of separators is being skipped, [cur] is the piece read so far,
    last character first. *)
Fixpoint re_split_go (in_sep : bool) (cur : str) (s : str) : list str :=
  match s with
  | [] => [reverse cur]
  | c :: s' =>
      if is_sep c then
        if in_sep then re_split_go true cur s'
        else reverse cur :: re_split_go true [] s'
      else re_split_go false (c :: cur) s'
  end.

Definition re_split (s : str) : list str := re_split_go false [] s.

(** [\d{4}] at the head of [s]: the group and the rest. *)
Definition four_digits (s : str) : option (str * str) :=
  match s with
  | a :: b :: c :: d :: rest =>
      if chr_isdecimal a && chr_isdecimal b && chr_isdecimal c && chr_isdecimal d
      then Some ([a; b; c; d], rest) else None
  | _ => None
  end.

(** [re.match(r"^\s*(\d{4})\s*-\s*(\d{4})\s*$", years)]: the two groups.
    Spaces, digits and the hyphen are disjoint classes, so reading greedily
    from the left is the only way to match ([match_year_range_spec]). *)
Definition match_year_range (years : str) : option (str * str) :=
  '(g1, s1) ← four_digits (lstrip years);
  match lstrip s1 with
  | c :: s2 =>
      if c =? 45 then
        '(g2, s3) ← four_digits (lstrip s2);
        if bool_decide (lstrip s3 = []) then Some (g1, g2) else None
      else None
  | [] => None
  end.

(** [re.findall(r"(\d{2,4})", s)]: left to right, each match takes up to
    four digits; a digit on its own matches nothing.  [cur] is the run read
    so far, last digit first. *)
Fixpoint findall_d24_go (cur : str) (s : str) : list str :=
  match s with
  | [] => if bool_decide (2 ≤ length cur)%nat then [reverse cur] else []
  | c :: s' =>
      if chr_isdecimal c then
        if bool_decide (length cur = 3)%nat
        then reverse (c :: cur) :: findall_d24_go [] s'
        else findall_d24_go (c :: cur) s'
      else if bool_decide (2 ≤ length cur)%nat
        then reverse cur :: findall_d24_go [] s'
        else findall_d24_go [] s'
  end.

Definition findall_d24 (s : str) : list str := findall_d24_go [] s.

(** [re.findall(r"\d+", s)]: the maximal runs of digits. *)
Fixpoint findall_digits_go (cur : str) (s : str) : list str :=
  match s with
  | [] => if bool_decide (cur = []) then [] else [reverse cur]
  | c :: s' =>
      if chr_isdecimal c then findall_digits_go (c :: cur) s'
      else if bool_decide (cur = []) then findall_digits_go [] s'
      else reverse cur :: findall_digits_go [] s'
  end.

Definition findall_digits (s : str) : list str := findall_digits_go [] s.

(** The [if years:] block of [parse_years]. *)
Definition years_tokens (years : str) (out : gset str) : gset str :=
  match match_year_range years with
  | Some (g1, g2) =>
      let start := int_of_digits g1 in
      let end_ := int_of_digits g2 in
      foldl (λ out y, set_add (str_of_int y) out) out
        (seqZ start (end_ + 1 - start))
  | None =>
      foldl (λ out y, if isdigit y && len_2_or_4 y then set_add y out else out)
        out (re_split (strip years))
  end.

(** The [if dob:] block of [parse_years]. *)
Definition dob_tokens (dob : str) (out : gset str) : gset str :=
  let m := findall_d24 dob in
  let digits := join m in
  let out := if bool_decide (8 ≤ length digits)%nat
             then set_add (take 8 digits) out else out in
  foldl (λ out token, if len_2_or_4 token then set_add token out else out)
    out m.

Definition parse_years (years dob : option str) : list str :=
  let out : gset str := ∅ in
  let out := match truthy years with
             | Some years => years_tokens years out
             | None => out
             end in
  let out := match truthy dob with
             | Some dob => dob_tokens dob out
             | None => out
             end in
  sorted (set_iter out).

Definition tokenize_keywords (raw : option str) : list str :=
  match truthy raw with
  | None => []
  | Some raw => filter (λ p, p ≠ []) (re_split (strip raw))
  end.

End tokens.

(** ** Base candidates and the wordlist *)

(** [kws[i]]; every use is in range. *)
Definition kw (kws : list str) (i : nat) : str := default [] (kws !! i).

(** [maybe_add(candidate)], on the set [out] it closes over. *)
Definition maybe_add (candidate : str) (out : gset str) : gset str :=
  if bool_decide (4 ≤ length candidate ≤ 64)%nat
  then set_add candidate out else out.

Section wordlist.
Context `{Python}.

Definition case_variants (word : str) : gset str :=
  let variants : gset str := {[ word ]} in
  let variants := set_add (str_lower word) variants in
  let variants := set_add (str_upper word) variants in
  let variants := set_add (str_capitalize word) variants in
  let variants := set_add (str_title word) variants in
  variants.

Definition build_bases (keywords : list str) (dob : option str)
    (separators : list str) : gset str :=
  let bases : gset str := ∅ in
  let kws := filter (λ k, k ≠ []) keywords in
  let bases :=
    foldl (λ bases w, foldl (λ bases v, set_add v bases) bases
                        (set_iter (case_variants w)))
      bases kws in
  let bases :=
    foldl (λ bases sep,
      foldl (λ bases i,
        foldl (λ bases j,
                 set_add (kw kws j ++ sep ++ kw kws i)
                   (set_add (kw kws i ++ sep ++ kw kws j) bases))
          bases (range (i + 1) (length kws)))
        bases (range 0 (length kws)))
      bases separators in
  match truthy dob with
  | Some dob => foldl (λ bases t, set_add t bases) bases (findall_digits dob)
  | None => bases
  end.

(** The leetspeak loop over the bases, with its early exit. *)
Definition expand_bases (bases : gset str) (aggressive : bool)
    (max_candidates : Z) : option (gset str) :=
  for_each_until
    (λ b expanded, v ← leet_variants b aggressive 12; Some (expanded ∪ v))
    (λ expanded, bool_decide (max_candidates < Z.of_nat (size expanded))%Z)
    (set_iter bases) ∅.

(** The four combination loops. *)
Definition combine (expanded : gset str) (years suffixes : list str)
    (out : gset str) : gset str :=
  let out := foldl (λ out b, maybe_add b out) out (set_iter expanded) in
  let out :=
    foldl (λ out b,
      foldl (λ out y, maybe_add (y ++ b) (maybe_add (b ++ y) out)) out years)
      out (set_iter expanded) in
  let out :=
    foldl (λ out b, foldl (λ out s, maybe_add (b ++ s) out) out suffixes)
      out (set_iter expanded) in
  foldl (λ out b,
    foldl (λ out y,
      foldl (λ out s, maybe_add ((b ++ y) ++ s) out) out suffixes)
      out years)
    out (set_iter expanded).

Definition generate_wordlist (keywords : list str) (dob : option str)
    (years : list str) (leet_mode : str) (suffixes separators : list str)
    (max_candidates : Z) : option (list str) :=
  let out : gset str := ∅ in
  let bases := build_bases keywords dob separators in
  let aggressive := bool_decide (str_lower leet_mode = cps "aggressive") in
  expanded ← expand_bases bases aggressive max_candidates;
  let out := combine expanded years suffixes out in
  let candidates := slice_to (sorted_by_len (set_iter out)) max_candidates in
  Some candidates.

End wordlist.

(** ** Strength analysis *)

(** The values a result record holds. *)
Inductive value :=
  | VNone
  | VInt (n : Z)
  | VFloat (x : float)
  | VStr (s : str)
  | VList (l : list value)
  | VDict (d : list (str * value)).

Abbreviation dict := (list (str * value)).

(** [d[key]]; [None] for [KeyError]. *)
Fixpoint dict_lookup (d : dict) (key : str) : option value :=
  match d with
  | [] => None
  | (k, v) :: d' => if decide (k = key) then Some v else dict_lookup d' key
  end.

(** [d.get(key, dflt)] *)
Definition dict_get (d : dict) (key : str) (dflt : value) : value :=
  default dflt (dict_lookup d key).

(** The external scoring engine: a password and hints to a result record;
    it may raise. *)
Definition engine := str → list str → option dict.

(** [len(password)] as the float the multiplication converts it to. *)
Definition float_of_len (s : str) : float :=
  PrimFloat.of_uint63 (Uint63.of_Z (Z.of_nat (length s))).

(** The heuristic mapping of the fallback to a score. *)
Definition fallback_score (ent : float) : Z :=
  if (ent <? 28)%float then 0
  else if (ent <? 36)%float then 1
  else if (ent <? 60)%float then 2
  else if (ent <? 80)%float then 3
  else 4.

Section analysis.
Context `{Python}.

Definition entropy_estimate (password : str) : float :=
  if bool_decide (password = []) then 0%float
  else
    let charset := 94%float in
    (float_of_len password * math_log2 charset)%float.

(** [analyze_password]; [zxcvbn] is [None] when the import failed, that is
    when [ZXCVBN_AVAILABLE] is false. *)
Definition analyze_password (zxcvbn : option engine) (password : str)
    (user_inputs : option (list str)) : option dict :=
  let user_inputs := default [] user_inputs in
  match zxcvbn with
  | Some zxcvbn =>
      result ← zxcvbn password user_inputs;
      Some [ (cps "engine", VStr (cps "zxcvbn"));
             (cps "score", dict_get result (cps "score") VNone);
             (cps "crack_times_display",
               dict_get result (cps "crack_times_display") (VDict []));
             (cps "guesses_log10", dict_get result (cps "guesses_log10") VNone);
             (cps "feedback", dict_get result (cps "feedback") (VDict [])) ]
  | None =>
      let ent := entropy_estimate password in
      let score := fallback_score ent in
      Some [ (cps "engine", VStr (cps "entropy_fallback"));
             (cps "score", VInt score);
             (cps "entropy_bits_est", VFloat (py_round ent 2));
             (cps "feedback", VDict
               [ (cps "warning", VStr (cps
                   "Using fallback estimator. Install 'zxcvbn' for richer results."));
                 (cps "suggestions", VList
                   [ VStr (cps "Use longer passphrases (3" ++ [8211]
                           ++ cps "5+ random words).");
                     VStr (cps "Avoid personal info and common patterns.");
                     VStr (cps
                       "Include variety (case, digits, symbols) but prioritize length.")
                   ]) ]) ]
  end.

End analysis.

(** ** The command line: [generate]

    [main] after [parse_args], on the command [generate]: the parsed
    arguments, the part of the system the command calls, and what the
    command leaves behind when nothing raised, the text written to the
    output file and the line printed. *)

Record generate_args := {
  args_keywords : str;
  args_dob : option str;
  args_years : str;
  args_leet : str;
  args_suffixes : str;
  args_separators : str;
  args_max : Z;
  args_outfile : str;
}.

(** The operating system and the standard output are not part of the
    repository.  Each field tells whether the call returns; when it does
    not, it raises ([OSError] for a path that cannot be opened or a file
    that cannot be written, an encoding or pipe error for [print]). *)
Record system := {
  (** [open(path, "w", encoding="utf-8")] *)
  sys_open : str → bool;
  (** writing the encoded text to the file at the path, and closing it *)
  sys_write : str → str → bool;
  (** [print(line)] *)
  sys_print : str → bool;
}.

(** [s.encode("utf-8")] raises [UnicodeEncodeError] on a surrogate, a
    code point from U+D800 to U+DFFF. *)
Definition utf8_encodable (s : str) : bool :=
  forallb (λ c, negb ((55296 <=? c) && (c <=? 57343))) s.

(** [f.write(line + "\n")] on the text file: the text so far, with the
    line added when it can be encoded. *)
Definition file_write (line : str) (text : str) : option str :=
  if utf8_encodable (line ++ [10]) then Some (text ++ (line ++ [10])) else None.

Record generate_output := {
  out_file : str;
  out_text : str;
  out_printed : str;
}.

Definition main_generate `{Python} (sys : system) (args : generate_args)
  : option generate_output :=
  let keywords := tokenize_keywords (Some (args_keywords args)) in
  let suffixes := tokenize_keywords (Some (args_suffixes args)) in
  let separators := tokenize_keywords (Some (args_separators args)) in
  let years := parse_years (Some (args_years args)) (args_dob args) in
  let leet_mode := args_leet args in
  let maxc := args_max args in
  wl ← generate_wordlist keywords (args_dob args) years leet_mode suffixes
         separators maxc;
  if negb (sys_open sys (args_outfile args)) then None else
  text ← for_each file_write wl [];
  if negb (sys_write sys (args_outfile args) text) then None else
  let printed := cps "[+] Wrote " ++ str_of_int (Z.of_nat (length wl))
                 ++ cps " candidates to " ++ args_outfile args in
  if negb (sys_print sys printed) then None else
  Some {| out_file := args_outfile args;
          out_text := text;
          out_printed := printed |}.

(** ** CPython

    CPython's built-ins on ASCII, on U+0130 (capital I with dot above, the
    one code point whose lowercase form is two code points, [i] and
    U+0307) and on U+212A (the Kelvin sign, lowercase [k]).  Those are the
    code points whose lowercase form holds an ASCII letter; any other code
    point is left as it is.  Sets are visited in the order of
    [elements]. *)

Module CPython.

Definition lower_cp (c : N) : str :=
  if c =? 304 then [105; 775]
  else if c =? 8490 then [107]
  else [ascii_lower c].

Definition cased (c : N) : bool := ascii_alpha c || (c =? 304) || (c =? 8490).

Definition lower (s : str) : str := s ≫= lower_cp.

Definition upper (s : str) : str := ascii_upper <$> s.

(** First character in title case, the rest in lower case. *)
Definition capitalize (s : str) : str :=
  match s with
  | [] => []
  | c :: s' => ascii_upper c :: lower s'
  end.

(** A character is put in title case after an uncased one and in lower
    case after a cased one. *)
Fixpoint title_go (previous_is_cased : bool) (s : str) : str :=
  match s with
  | [] => []
  | c :: s' =>
      (if previous_is_cased then lower_cp c else [ascii_upper c])
        ++ title_go (cased c) s'
  end.

Definition title (s : str) : str := title_go false s.

Definition decimal (c : N) : Z := Z.of_N c - 48.

(** [math.log2] at the one argument the tool gives it. *)
Definition log2 (x : float) : float :=
  if (x =? 94)%float then 0x1.a37e623d2ba02p+2%float else nan.

(** [n / d] rounded to the nearest integer, ties to even. *)
Definition div_half_even (n d : Z) : Z :=
  let q := (n / d)%Z in
  let r := (n mod d)%Z in
  if (2 * r <? d)%Z then q
  else if (d <? 2 * r)%Z then (q + 1)%Z
  else if Z.even q then q else (q + 1)%Z.

Definition float_of_Z (z : Z) : float := PrimFloat.of_uint63 (Uint63.of_Z z).

(** [round(x, ndigits)] for [ndigits >= 0]: the exact value of [x] is
    rounded to [ndigits] decimals, ties to even, and the decimal is read
    back as the nearest float. *)
Definition round (x : float) (ndigits : Z) : float :=
  match Prim2SF x with
  | S754_finite s m e =>
      let scale := (10 ^ ndigits)%Z in
      let n := (Z.pos m * scale)%Z in
      let k := if (0 <=? e)%Z then (n * 2 ^ e)%Z
               else div_half_even n (2 ^ (- e)) in
      let r := (float_of_Z k / float_of_Z scale)%float in
      if s then (- r)%float else r
  | _ => x
  end.

End CPython.

(** ** Vocabulary of the statements *)

(** The list a variant is joined from keeps the shape of [list(word)]: as
    many items, each one character. *)
Definition word_shape (word : str) (s : list str) : Prop :=
  length s = length word ∧ Forall (λ c : str, length c = 1%nat) s.

(** The variant the non-aggressive branch produces at one position. *)
Definition single_variant (word : str) (p : nat * str) : gset str :=
  match LEET_MAP !! p.2 with
  | Some alts =>
      match alts !! 1%nat with
      | Some r => {[ join (<[p.1:=r]> (chars word)) ]}
      | None => ∅
      end
  | None => ∅
  end.

(** The variant the aggressive branch produces for one combination. *)
Definition mask_variant (word : str) (positions : list (nat * str))
    (mask : list nat) : gset str :=
  match for_each substitute (zip positions mask) (chars word) with
  | Some s => {[ join s ]}
  | None => ∅
  end.

(** The combinations the aggressive branch enumerates, in order. *)
Definition leet_masks `{Python} (word : str) : list (list nat) :=
  match leet_choices (leet_positions word) with
  | Some choices => product ((λ c, range 0 (min (length c) 3)) <$> choices)
  | None => []
  end.

(** [produced] after the first [n] combinations, without the cap. *)
Definition produced_after `{Python} (word : str) (n : nat) : option (gset str) :=
  for_each (apply_variant word (leet_positions word))
    (take n (leet_masks word)) ∅.

(** The length window of [maybe_add]. *)
Definition in_window (x : str) : Prop := (4 ≤ length x ≤ 64)%nat.

Definition window_set (c : str) : gset str :=
  if bool_decide (4 ≤ length c ≤ 64)%nat then {[ c ]} else ∅.

(** The expansion loop without its early exit. *)
Definition expand_all (leet : str → option (gset str)) (l : list str)
    (acc : gset str) : option (gset str) :=
  for_each (λ b expanded, v ← leet b; Some (expanded ∪ v)) l acc.


(** ** Vocabulary of the further properties *)

(** [sep.join(tokens)] *)
Fixpoint join_with (sep : str) (tokens : list str) : str :=
  match tokens with
  | [] => []
  | t :: tokens' =>
      match tokens' with
      | [] => t
      | _ :: _ => t ++ sep ++ join_with sep tokens'
      end
  end.

(** A token of [tokenize_keywords]: not empty, no comma, no space. *)
Definition clean_token `{Python} (t : str) : Prop :=
  t ≠ [] ∧ Forall (λ c, is_sep c = false) t.

(** Two strings that differ at most in the case of their ASCII letters. *)
Definition same_letters (a b : str) : Prop := ascii_lower <$> a = ascii_lower <$> b.

(** The candidates one expanded base [v] gives with the years and the
    suffixes, before the length window. *)
Definition candidate_of (years suffixes : list str) (v x : str) : Prop :=
  x = v ∨
  (∃ y, y ∈ years ∧ (x = v ++ y ∨ x = y ++ v)) ∨
  (∃ s, s ∈ suffixes ∧ x = v ++ s) ∨
  (∃ y s, y ∈ years ∧ s ∈ suffixes ∧ x = v ++ y ++ s).

(** The leetspeak variants of all the bases: what the expansion loop
    gives when it is not left early. *)
Definition full_expansion `{Python} (bases : gset str) (aggressive : bool)
  : option (gset str) :=
  expand_all (λ b, leet_variants b aggressive 12) (set_iter bases) ∅.

(** What may stand at index [i] of a variant of [word]: the character of
    the word there, or one of the alternatives of the character that
    [word.lower()] has there. *)
Definition leet_char_at `{Python} (word : str) (i : nat) (c : N) : Prop :=
  word !! i = Some c ∨
  ∃ l alts, str_lower word !! i = Some l ∧ LEET_MAP !! [l] = Some alts ∧ [c] ∈ alts.

(** The list a variant is joined from holds, at every index, one
    character that may stand there. *)
Definition variant_items `{Python} (word : str) (s : list str) : Prop :=
  ∀ i r, s !! i = Some r → ∃ c, r = [c] ∧ leet_char_at word i c.

(** The score the fallback gives a password of [n] characters. *)
Definition score_of_length (n : nat) : Z :=
  if (n <=? 4)%nat then 0
  else if (n <=? 5)%nat then 1
  else if (n <=? 9)%nat then 2
  else if (n <=? 12)%nat then 3
  else 4.

(** The lines of a text, each one ended by a line feed; what is left after
    the last line feed is not a line. *)
Fixpoint text_lines_go (cur : str) (text : str) : list str :=
  match text with
  | [] => []
  | c :: text' =>
      if c =? 10 then reverse cur :: text_lines_go [] text'
      else text_lines_go (c :: cur) text'
  end.

Definition text_lines (text : str) : list str := text_lines_go [] text.

(** A string without a comma and without white space. *)
Definition clean `{Python} (x : str) : Prop := Forall (λ c, is_sep c = false) x.

(** * Part II: properties *)

(** ** The laws hold on CPython *)

Lemma cpython_lower_cp_ascii c : c < 128 → CPython.lower_cp c = [ascii_lower c].
Proof.
  intros Hc. unfold CPython.lower_cp.
  destruct (N.eqb_spec c 304) as [->|_]; [lia|].
  destruct (N.eqb_spec c 8490) as [->|_]; [lia|]. done.
Qed.

Lemma cpython_lower_ascii s : is_ascii s → CPython.lower s = ascii_lower <$> s.
Proof.
  unfold CPython.lower. induction 1 as [|c s Hc _ IH]; [done|].
  cbn [mbind list_bind fmap list_fmap]. fold (s ≫= CPython.lower_cp).
  by rewrite IH, cpython_lower_cp_ascii.
Qed.

Lemma cpython_capitalize_ascii s :
  is_ascii s → CPython.capitalize s = ascii_capitalize s.
Proof.
  destruct 1 as [|c s Hc Hs]; [done|]. simpl. by rewrite cpython_lower_ascii.
Qed.

Lemma cpython_title_ascii s : is_ascii s → CPython.title s = ascii_title s.
Proof.
  unfold CPython.title, ascii_title. intros Hs. generalize false.
  induction Hs as [|c s Hc Hs IH]; intros prev; simpl; [done|].
  rewrite cpython_lower_cp_ascii by done. unfold CPython.cased at 1.
  destruct (N.eqb_spec c 304) as [->|_]; [lia|].
  destruct (N.eqb_spec c 8490) as [->|_]; [lia|].
  rewrite !orb_false_r, IH. by destruct prev.
Qed.

Lemma ascii_digit_not_space c : ascii_digit c = true → ascii_space c = false.
Proof.
  unfold ascii_digit, ascii_space.
  destruct (N.leb_spec 48 c), (N.leb_spec c 57), (N.leb_spec 9 c),
    (N.leb_spec c 13), (N.leb_spec 28 c), (N.leb_spec c 32); simpl; try done; lia.
Qed.

#[export] Instance cpython : Python := {|
  str_lower := CPython.lower;
  str_upper := CPython.upper;
  str_capitalize := CPython.capitalize;
  str_title := CPython.title;
  chr_isspace := ascii_space;
  chr_isdecimal := ascii_digit;
  chr_isdigit := ascii_digit;
  chr_decimal := CPython.decimal;
  set_iter := elements;
  math_log2 := CPython.log2;
  py_round := CPython.round;
  set_iter_perm := λ X, reflexivity (elements X);
  str_lower_ascii := cpython_lower_ascii;
  str_upper_ascii := λ s _, eq_refl;
  str_capitalize_ascii := cpython_capitalize_ascii;
  str_title_ascii := cpython_title_ascii;
  chr_isspace_ascii := λ c _, eq_refl;
  chr_isdecimal_ascii := λ c _, eq_refl;
  chr_isdigit_ascii := λ c _, eq_refl;
  chr_decimal_ascii := λ c _, eq_refl;
  chr_decimal_not_space := ascii_digit_not_space;
  math_log2_94 := eq_refl;
|}.

(** *** The built-ins on sample arguments

    The right-hand sides are what CPython's [re], [str], [sorted], slicing
    and [itertools.product] return for the same arguments. *)

Example findall_d24_chunks :
  findall_d24 (cps "1 22 333 4444 55555 666666")
  = [cps "22"; cps "333"; cps "4444"; cps "5555"; cps "6666"; cps "66"].
Proof. by vm_compute. Qed.

Example findall_digits_runs :
  findall_digits (cps "09/08-2002x1")
  = [cps "09"; cps "08"; cps "2002"; cps "1"].
Proof. by vm_compute. Qed.

Example re_split_ends :
  re_split (cps ",naman, patil  x,")
  = [[]; cps "naman"; cps "patil"; cps "x"; []].
Proof. by vm_compute. Qed.

Example tokenize_keywords_example :
  tokenize_keywords (Some (cps " naman,patil  x,"))
  = [cps "naman"; cps "patil"; cps "x"].
Proof. by vm_compute. Qed.

Example match_year_range_five_digits :
  match_year_range (cps "20188-2025") = None.
Proof. by vm_compute. Qed.

Example match_year_range_trailing :
  match_year_range (cps "2018-2025x") = None.
Proof. by vm_compute. Qed.

Example match_year_range_spaced :
  match_year_range (cps " 2018 - 2025 ") = Some (cps "2018", cps "2025").
Proof. by vm_compute. Qed.

Example str_title_example :
  str_title (cps "o'neil mc-donald a1b") = cps "O'Neil Mc-Donald A1B".
Proof. by vm_compute. Qed.

Example str_capitalize_example :
  str_capitalize (cps "nAMAN patil") = cps "Naman patil".
Proof. by vm_compute. Qed.

Example str_lower_dotted_capital_I :
  str_lower (304 :: cps "stanbul") = 105 :: 775 :: cps "stanbul".
Proof. by vm_compute. Qed.

Example sorted_example :
  sorted [cps "b"; cps "ab"; cps "B"; cps "a"; cps "abc"; cps "10"; cps "9"]
  = [cps "10"; cps "9"; cps "B"; cps "a"; cps "ab"; cps "abc"; cps "b"].
Proof. by vm_compute. Qed.

Example sorted_by_len_example :
  sorted_by_len [cps "b"; cps "ab"; cps "B"; cps "a"; cps "abc"; cps "10"; cps "9"]
  = [cps "9"; cps "B"; cps "a"; cps "b"; cps "10"; cps "ab"; cps "abc"].
Proof. by vm_compute. Qed.

Example slice_to_negative :
  slice_to [cps "b"; cps "ab"; cps "B"; cps "a"; cps "abc"; cps "10"; cps "9"] (-2)
  = [cps "b"; cps "ab"; cps "B"; cps "a"; cps "abc"].
Proof. by vm_compute. Qed.

Example product_order :
  product [range 0 2; range 0 3]
  = [[0; 0]; [0; 1]; [0; 2]; [1; 0]; [1; 1]; [1; 2]]%nat.
Proof. by vm_compute. Qed.

(** [is_ascii] of a literal is decided by evaluation. *)
Ltac ascii_literal := apply (bool_decide_unpack _); vm_compute; reflexivity.

(** ** Loops *)

Section loops.
Context {A S : Type} (body : A → S → option S).

(** A loop that returns keeps every invariant its body keeps. *)
Lemma for_each_inv (I : S → Prop) l s r :
  (∀ x s s', x ∈ l → I s → body x s = Some s' → I s') →
  I s → for_each body l s = Some r → I r.
Proof.
  revert s. induction l as [|x l IH]; intros s Hbody Hs Hr; simpl in Hr.
  - by simplify_eq.
  - apply bind_Some in Hr as (s' & Hs' & Hr).
    apply (IH s'); [|by eapply Hbody; [left|..]|done].
    intros y t t' Hy. apply Hbody. by right.
Qed.

(** A loop whose body returns under the invariant returns. *)
Lemma for_each_is_Some (I : S → Prop) l s :
  (∀ x s, x ∈ l → I s → ∃ s', body x s = Some s' ∧ I s') →
  I s → ∃ r, for_each body l s = Some r ∧ I r.
Proof.
  revert s. induction l as [|x l IH]; intros s Hbody Hs; simpl.
  - eauto.
  - destruct (Hbody x s) as (s' & -> & Hs'); [by left|done|]. simpl.
    apply IH; [|done]. intros y t Hy. apply Hbody. by right.
Qed.

Context (stop : S → bool).

Lemma for_each_until_inv (I : S → Prop) l s r :
  (∀ x s s', x ∈ l → I s → body x s = Some s' → I s') →
  I s → for_each_until body stop l s = Some r → I r.
Proof.
  revert s. induction l as [|x l IH]; intros s Hbody Hs Hr; simpl in Hr.
  - by simplify_eq.
  - apply bind_Some in Hr as (s' & Hs' & Hr).
    assert (I s') by (by eapply Hbody; [left|..]).
    destruct (stop s'); [by simplify_eq|].
    apply (IH s'); [|done..].
    intros y t t' Hy. apply Hbody. by right.
Qed.

(** [J] holds whenever the body is entered, [I] after the body and at the
    exit. *)
Lemma for_each_until_inv_entry (J I : S → Prop) l s r :
  (∀ s, J s → I s) →
  (∀ x s s', x ∈ l → J s → body x s = Some s' →
             I s' ∧ (stop s' = false → J s')) →
  J s → for_each_until body stop l s = Some r → I r.
Proof.
  intros HJI. revert s. induction l as [|x l IH]; intros s Hbody Hs Hr; simpl in Hr.
  - simplify_eq. by apply HJI.
  - apply bind_Some in Hr as (s' & Hs' & Hr).
    destruct (Hbody x s s') as [HI HJ]; [by left|done..|].
    destruct (stop s') eqn:Hstop; [by simplify_eq|].
    apply (IH s'); [|by apply HJ|done].
    intros y t t' Hy. apply Hbody. by right.
Qed.

Lemma for_each_until_is_Some (I : S → Prop) l s :
  (∀ x s, x ∈ l → I s → ∃ s', body x s = Some s' ∧ I s') →
  I s → ∃ r, for_each_until body stop l s = Some r ∧ I r.
Proof.
  revert s. induction l as [|x l IH]; intros s Hbody Hs; simpl.
  - eauto.
  - destruct (Hbody x s) as (s' & -> & Hs'); [by left|done|]. simpl.
    destruct (stop s'); [eauto|].
    apply IH; [|done]. intros y t Hy. apply Hbody. by right.
Qed.

(** A loop with [break] returns the state of the plain loop over a prefix
    of the list: the shortest non-empty prefix after which [stop] holds,
    the whole list when there is none. *)
Lemma for_each_until_prefix l s r :
  for_each_until body stop l s = Some r →
  ∃ k, (k ≤ length l)%nat ∧
       for_each body (take k l) s = Some r ∧
       (k < length l → stop r = true)%nat ∧
       (∀ j rj, (0 < j < k)%nat →
                for_each body (take j l) s = Some rj → stop rj = false).
Proof.
  revert s. induction l as [|x l IH]; intros s Hr; simpl in Hr.
  - exists 0%nat. simpl. split_and!; [done|done|lia|lia].
  - apply bind_Some in Hr as (s' & Hs' & Hr).
    destruct (stop s') eqn:Hstop.
    + simplify_eq. exists 1%nat. simpl. rewrite Hs'. simpl.
      split_and!; [lia|done|done|lia].
    + destruct (IH _ Hr) as (k & Hk & Hrun & Hfull & Hmin).
      exists (Datatypes.S k). simpl. rewrite Hs'. simpl.
      split_and!; [lia|done|intros; apply Hfull; lia|].
      intros [|j] rj Hj; [lia|]. simpl. rewrite Hs'. simpl.
      destruct j as [|j]; [rewrite take_0; simpl; by intros [= <-]|].
      apply Hmin. lia.
Qed.

End loops.

Lemma foldl_inv {A B} (f : B → A → B) (I : B → Prop) l b :
  (∀ b x, x ∈ l → I b → I (f b x)) → I b → I (foldl f b l).
Proof.
  revert b. induction l as [|x l IH]; intros b Hf Hb; simpl; [done|].
  apply IH; [|apply Hf; [by left|done]].
  intros c y Hy. apply Hf. by right.
Qed.

Lemma foldl_ext_in {A B} (f g : B → A → B) l b :
  (∀ b x, x ∈ l → f b x = g b x) → foldl f b l = foldl g b l.
Proof.
  revert b. induction l as [|x l IH]; intros b Hfg; simpl; [done|].
  rewrite Hfg by left. apply IH. intros c y Hy. apply Hfg. by right.
Qed.

(** ** Sets built by loops *)

Lemma size_set_add (x : str) (X : gset str) :
  (size (set_add x X) ≤ Datatypes.S (size X))%nat.
Proof.
  unfold set_add. rewrite size_union_alt, size_singleton.
  pose proof (subseteq_size (X ∖ {[x]}) X). set_solver by lia.
Qed.

(** A loop whose body adds [g x] to a set returns the union of the [g x]. *)
Lemma for_each_union {A} (body : A → gset str → option (gset str))
    (g : A → gset str) l P R :
  (∀ x P P', x ∈ l → body x P = Some P' → P' = g x ∪ P) →
  for_each body l P = Some R → R = ⋃ (g <$> l) ∪ P.
Proof.
  revert P. induction l as [|x l IH]; intros P Hbody HR; simpl in *.
  - simplify_eq. set_solver.
  - apply bind_Some in HR as (P' & HP' & HR).
    apply Hbody in HP' as ->; [|by left].
    apply IH in HR as ->; [set_solver|].
    intros y Q Q' Hy. apply Hbody. by right.
Qed.

Lemma foldl_union {A} (f : gset str → A → gset str) (g : A → gset str) l out :
  (∀ out x, f out x = g x ∪ out) → foldl f out l = ⋃ (g <$> l) ∪ out.
Proof.
  intros Hf. revert out. induction l as [|x l IH]; intros out; simpl.
  - set_solver.
  - rewrite IH, Hf. set_solver.
Qed.

Lemma union_list_fmap_perm {A} (g : A → gset str) l1 l2 :
  l1 ≡ₚ l2 → ⋃ (g <$> l1) = ⋃ (g <$> l2).
Proof.
  intros Hperm. apply set_eq. intros x. rewrite !elem_of_union_list.
  by setoid_rewrite Hperm.
Qed.

(** Such a loop does not depend on the order of the list. *)
Lemma foldl_union_perm {A} (f : gset str → A → gset str) (g : A → gset str)
    l1 l2 out :
  (∀ out x, f out x = g x ∪ out) → l1 ≡ₚ l2 → foldl f out l1 = foldl f out l2.
Proof.
  intros Hf Hperm. rewrite !(foldl_union f g) by done.
  by rewrite (union_list_fmap_perm g l1 l2).
Qed.

Lemma elem_of_foldl_set_add {A} (g : A → str) (l : list A) (out : gset str) x :
  x ∈ foldl (λ out y, set_add (g y) out) out l ↔
  x ∈ out ∨ ∃ y, y ∈ l ∧ x = g y.
Proof.
  revert out. induction l as [|y l IH]; intros out; simpl.
  - set_solver.
  - rewrite IH. unfold set_add. set_solver.
Qed.

Lemma elem_of_foldl_set_add_if {A} (c : A → bool) (g : A → str) (l : list A)
    (out : gset str) x :
  x ∈ foldl (λ out y, if c y then set_add (g y) out else out) out l ↔
  x ∈ out ∨ ∃ y, y ∈ l ∧ c y = true ∧ x = g y.
Proof.
  revert out. induction l as [|y l IH]; intros out; simpl.
  - set_solver.
  - rewrite IH. unfold set_add. setoid_rewrite elem_of_cons.
    destruct (c y) eqn:Hc; rewrite ?elem_of_union, ?elem_of_singleton.
    + split.
      * intros [[->|?]|(z & ? & ? & ?)]; [right; exists y|left|right; exists z]; auto.
      * intros [?|(z & [->|?] & ? & ?)]; [auto|auto|right; exists z; auto].
    + split.
      * intros [?|(z & ? & ? & ?)]; [left|right; exists z]; auto.
      * intros [?|(z & [->|?] & ? & ?)]; [auto|congruence|right; exists z; auto].
Qed.

Lemma elem_of_product {A} (pools : list (list A)) (xs : list A) :
  xs ∈ product pools ↔ Forall2 (λ x p, x ∈ p) xs pools.
Proof.
  revert xs. induction pools as [|p ps IH]; intros xs; simpl.
  - rewrite list_elem_of_singleton. split; [by intros ->|by inversion 1].
  - rewrite list_elem_of_bind. split.
    + intros (x & Hxs & Hx). apply list_elem_of_fmap in Hxs as (ys & -> & Hys).
      constructor; [done|]. by apply IH.
    + inversion 1 as [|x ? ys ? Hx Hys]; simplify_eq.
      exists x. split; [|done]. apply list_elem_of_fmap. exists ys.
      split; [done|]. by apply IH.
Qed.

Section set_iteration.
Context `{Python}.

Lemma elem_of_set_iter (X : gset str) x : x ∈ set_iter X ↔ x ∈ X.
Proof. by rewrite set_iter_perm, elem_of_elements. Qed.

Lemma NoDup_set_iter (X : gset str) : NoDup (set_iter X).
Proof. rewrite set_iter_perm. apply NoDup_elements. Qed.

End set_iteration.

Lemma set_iter_perm_cpython (R : Python) (X : gset str) :
  @set_iter R X ≡ₚ @set_iter cpython X.
Proof. by rewrite !set_iter_perm. Qed.

(** ** The substitution table *)

(** Every entry lists at least two alternatives, each one character long,
    the first of them the key itself. *)
Lemma LEET_MAP_shape :
  map_Forall (λ ch alts,
    Forall (λ r : str, length r = 1%nat) alts ∧ (2 ≤ length alts)%nat
    ∧ alts !! 0%nat = Some ch) LEET_MAP.
Proof. apply (bool_decide_unpack _). by vm_compute. Qed.

Lemma LEET_MAP_single ch alts i (r : str) :
  LEET_MAP !! ch = Some alts → alts !! i = Some r → length r = 1%nat.
Proof.
  intros Hch Hi. destruct (LEET_MAP_shape _ _ Hch) as (Hall & _).
  eapply Forall_lookup_1 in Hall; eauto.
Qed.

(** ** Strings as lists of characters *)

Lemma length_chars (s : str) : length (chars s) = length s.
Proof. unfold chars. by rewrite length_fmap. Qed.

Lemma chars_single (s : str) : Forall (λ c : str, length c = 1%nat) (chars s).
Proof. unfold chars. apply Forall_fmap, Forall_true. done. Qed.

Lemma join_chars (s : str) : join (chars s) = s.
Proof. unfold join, chars. induction s as [|c s IH]; simpl; [done|by f_equal]. Qed.

Lemma length_join_single (s : list str) :
  Forall (λ c : str, length c = 1%nat) s → length (join s) = length s.
Proof.
  unfold join. induction 1 as [|c s Hc _ IH]; simpl; [done|].
  rewrite length_app. lia.
Qed.

Lemma join_insert_chars (word : str) i c :
  join (<[i:=[c]]> (chars word)) = <[i:=c]> word.
Proof.
  rewrite <-(join_chars (<[i:=c]> word)). f_equal.
  unfold chars. by rewrite list_fmap_insert.
Qed.

Lemma list_assign_Some {A} (s : list A) i x s' :
  list_assign s i x = Some s' ↔ (i < length s)%nat ∧ s' = <[i:=x]> s.
Proof. unfold list_assign. destruct (decide _); naive_solver. Qed.

Lemma word_shape_chars word : word_shape word (chars word).
Proof. split; [apply length_chars|apply chars_single]. Qed.

Lemma word_shape_join word s : word_shape word s → length (join s) = length word.
Proof. intros [Hlen Hall]. by rewrite length_join_single. Qed.

Lemma word_shape_assign word s i ch alts j r s' :
  LEET_MAP !! ch = Some alts → alts !! j = Some r →
  list_assign s i r = Some s' → word_shape word s → word_shape word s'.
Proof.
  intros Hch Hj [Hi ->]%list_assign_Some [Hlen Hall]. split.
  - by rewrite length_insert.
  - apply Forall_insert; [done|]. by eapply LEET_MAP_single.
Qed.

(** ** The steps of the two expansion loops *)

Lemma substitute_shape word pc s s' :
  substitute pc s = Some s' → word_shape word s → word_shape word s'.
Proof.
  unfold substitute. intros Hs.
  apply bind_Some in Hs as (alts & Halts & Hs).
  apply bind_Some in Hs as (r & Hr & Hs).
  by eapply word_shape_assign.
Qed.

Lemma substitute_is_Some pc alts (s : list str) :
  LEET_MAP !! pc.1.2 = Some alts → (pc.2 < length alts)%nat →
  (pc.1.1 < length s)%nat → is_Some (substitute pc s).
Proof.
  intros Halts Hci Hpos. unfold substitute. rewrite Halts. simpl.
  destruct (lookup_lt_is_Some_2 alts pc.2) as [r Hr]; [done|].
  rewrite Hr. simpl. unfold list_assign. by rewrite decide_True.
Qed.

Lemma apply_variant_Some word positions mask produced produced' :
  apply_variant word positions mask produced = Some produced' →
  ∃ s, for_each substitute (zip positions mask) (chars word) = Some s ∧
       word_shape word s ∧ produced' = set_add (join s) produced.
Proof.
  unfold apply_variant. intros Hs.
  apply bind_Some in Hs as (s & Hs & [= <-]).
  exists s. split_and!; [done| |done].
  eapply (for_each_inv _ (word_shape word)); [|apply word_shape_chars|done].
  intros pc t t' _ Ht Hsub. by eapply substitute_shape.
Qed.

Lemma apply_variant_union word positions mask P P' :
  apply_variant word positions mask P = Some P' →
  P' = mask_variant word positions mask ∪ P.
Proof.
  intros (s & Hs & _ & ->)%apply_variant_Some.
  unfold mask_variant. by rewrite Hs.
Qed.

Lemma elem_of_mask_variant word positions mask v :
  v ∈ mask_variant word positions mask → length v = length word.
Proof.
  unfold mask_variant.
  destruct (for_each _ _ _) as [s|] eqn:Hs; [|set_solver].
  intros ->%elem_of_singleton. apply word_shape_join.
  eapply (for_each_inv _ (word_shape word)); [|apply word_shape_chars|done].
  intros pc t t' _ Ht Hsub. by eapply substitute_shape.
Qed.

(** What the inner loop of the non-aggressive branch adds for one
    position: the word with that one position set to the second
    alternative of its character. *)
Lemma single_substitutions_Some word p produced produced' :
  single_substitutions word p produced = Some produced' →
  ∃ alts r, LEET_MAP !! p.2 = Some alts ∧ alts !! 1%nat = Some r ∧
    (p.1 < length word)%nat ∧
    produced' = set_add (join (<[p.1:=r]> (chars word))) produced.
Proof.
  unfold single_substitutions. intros Hs.
  apply bind_Some in Hs as (alts & Halts & Hs).
  destruct (LEET_MAP_shape _ _ Halts) as (_ & Hlen & _).
  replace (range 1 (min (length alts) 2)) with [1%nat] in Hs
    by (unfold range; by replace (min (length alts) 2 - 1)%nat with 1%nat by lia).
  simpl in Hs.
  apply bind_Some in Hs as (produced1 & Hs & [= <-]).
  apply bind_Some in Hs as (r & Hr & Hs).
  apply bind_Some in Hs as (s & [Hlt ->]%list_assign_Some & [= <-]).
  rewrite length_chars in Hlt. by exists alts, r.
Qed.

Lemma single_substitutions_is_Some word p produced :
  is_Some (LEET_MAP !! p.2) → (p.1 < length word)%nat →
  is_Some (single_substitutions word p produced).
Proof.
  intros [alts Halts] Hlt. unfold single_substitutions. rewrite Halts. simpl.
  destruct (LEET_MAP_shape _ _ Halts) as (_ & Hlen & _).
  replace (range 1 (min (length alts) 2)) with [1%nat]
    by (unfold range; by replace (min (length alts) 2 - 1)%nat with 1%nat by lia).
  destruct (lookup_lt_is_Some_2 alts 1) as [r Hr]; [lia|].
  simpl. rewrite Hr. simpl. unfold list_assign.
  rewrite decide_True by (by rewrite length_chars). done.
Qed.

Lemma single_substitutions_union word p P P' :
  single_substitutions word p P = Some P' → P' = single_variant word p ∪ P.
Proof.
  intros (alts & r & Halts & Hr & _ & ->)%single_substitutions_Some.
  unfold single_variant. by rewrite Halts, Hr.
Qed.

Lemma elem_of_single_variant word p v :
  v ∈ single_variant word p →
  ∃ alts c, LEET_MAP !! p.2 = Some alts ∧ alts !! 1%nat = Some [c] ∧
            v = <[p.1:=c]> word.
Proof.
  unfold single_variant. destruct (LEET_MAP !! p.2) as [alts|] eqn:Halts; [|set_solver].
  destruct (alts !! 1%nat) as [r|] eqn:Hr; [|set_solver].
  intros ->%elem_of_singleton.
  pose proof (LEET_MAP_single _ _ _ _ Halts Hr) as Hlen.
  destruct r as [|c [|]]; try done.
  exists alts, c. by rewrite join_insert_chars.
Qed.

(** ** Leetspeak expansion *)

Section leet_properties.
Context `{Python}.

(** A position is an index into [word.lower()] whose character is a key of
    the table. *)
Lemma elem_of_leet_positions word i ch :
  (i, ch) ∈ leet_positions word ↔
  chars (str_lower word) !! i = Some ch ∧ is_Some (LEET_MAP !! ch).
Proof.
  unfold leet_positions, enumerate, in_leet_map.
  rewrite list_elem_of_filter, elem_of_lookup_imap. simpl.
  rewrite bool_decide_eq_true. naive_solver.
Qed.

Lemma leet_positions_lt word p :
  p ∈ leet_positions word → (p.1 < length (str_lower word))%nat.
Proof.
  destruct p as [i ch]. rewrite elem_of_leet_positions. intros [Hi _].
  apply lookup_lt_Some in Hi. by rewrite length_chars in Hi.
Qed.

Lemma leet_choices_Some word :
  ∃ choices, leet_choices (leet_positions word) = Some choices ∧
    Forall2 (λ p alts, LEET_MAP !! p.2 = Some alts) (leet_positions word) choices.
Proof.
  unfold leet_choices.
  destruct (mapM _ _) as [choices|] eqn:Hc.
  - exists choices. split; [done|]. by apply mapM_Some in Hc.
  - apply mapM_None in Hc. apply Exists_exists in Hc as ([i ch] & Hp & Hnone).
    apply elem_of_leet_positions in Hp as [_ [alts Halts]]. simpl in *. congruence.
Qed.

(** The set [produced] of the non-aggressive branch. *)
Lemma leet_produced_basic word cap P :
  leet_produced word false cap = Some P →
  P = ⋃ (single_variant word <$> leet_positions word) ∧
  Forall (λ p, p.1 < length word)%nat (leet_positions word).
Proof.
  unfold leet_produced. intros HP.
  apply bind_Some in HP as (choices & _ & HP). simpl in HP. split.
  - apply for_each_union with (g := single_variant word) in HP; [set_solver|].
    intros p Q Q' _. apply single_substitutions_union.
  - apply Forall_forall. intros p Hp. revert HP. generalize (∅ : gset str).
    induction (leet_positions word) as [|q l IH]; intros Q HQ; [by apply elem_of_nil in Hp|].
    simpl in HQ. apply bind_Some in HQ as (Q' & HQ' & HQ).
    apply elem_of_cons in Hp as [->|Hp]; [|by eapply IH].
    by apply single_substitutions_Some in HQ' as (alts & r & _ & _ & Hlt & _).
Qed.

(** The aggressive branch is the loop with [break] over [leet_masks]. *)
Lemma leet_produced_aggressive word cap P :
  leet_produced word true cap = Some P →
  for_each_until (apply_variant word (leet_positions word))
    (λ produced, bool_decide (cap ≤ Z.of_nat (size produced))%Z)
    (leet_masks word) ∅ = Some P.
Proof.
  unfold leet_produced, leet_masks. intros HP.
  apply bind_Some in HP as (choices & -> & HP). done.
Qed.

Lemma leet_produced_length word aggressive cap P v :
  leet_produced word aggressive cap = Some P → v ∈ P → length v = length word.
Proof.
  destruct aggressive.
  - intros HP%leet_produced_aggressive. revert v.
    refine (for_each_until_inv _ _
              (λ P, ∀ v, v ∈ P → length v = length word) _ _ _ _ _ HP).
    + intros mask Q Q' _ HQ ->%apply_variant_union v [Hv|Hv]%elem_of_union; [|eauto].
      by eapply elem_of_mask_variant.
    + intros v Hv. by apply not_elem_of_empty in Hv.
  - intros [-> _]%leet_produced_basic.
    intros (X & (p & -> & Hp)%list_elem_of_fmap & Hv)%elem_of_union_list.
    apply elem_of_single_variant in Hv as (alts & c & _ & _ & ->).
    by rewrite length_insert.
Qed.

(** Every combination of the enumeration picks, at every position, an
    index into the alternatives of that position. *)
Lemma leet_masks_in_range word mask :
  mask ∈ leet_masks word →
  Forall (λ pc, ∃ alts, LEET_MAP !! pc.1.2 = Some alts ∧ (pc.2 < length alts)%nat)
    (zip (leet_positions word) mask).
Proof.
  unfold leet_masks.
  destruct (leet_choices_Some word) as (choices & -> & Hch).
  rewrite elem_of_product. intros Hmask. revert mask Hmask.
  induction Hch as [|p alts ps choices Hp _ IH]; intros mask Hmask.
  - by destruct mask.
  - rewrite fmap_cons in Hmask.
    inversion Hmask as [|ci ? mask' ? Hci Hmask']; simplify_eq. simpl.
    constructor; [|by apply IH].
    exists alts. split; [done|]. simpl. unfold range in Hci.
    apply elem_of_seq in Hci. lia.
Qed.

Lemma apply_variant_is_Some word mask produced :
  Forall (λ p, p.1 < length word)%nat (leet_positions word) →
  mask ∈ leet_masks word →
  is_Some (apply_variant word (leet_positions word) mask produced).
Proof.
  intros Hpos Hmask%leet_masks_in_range. unfold apply_variant.
  destruct (for_each_is_Some substitute (λ s, length s = length word)
              (zip (leet_positions word) mask) (chars word))
    as (s & -> & _); [|apply length_chars|done].
  intros pc s Hpc Hlen.
  eapply Forall_forall in Hmask as (alts & Halts & Hci); [|done].
  destruct (substitute_is_Some pc alts s) as [s' Hs']; [done..| |].
  - rewrite Hlen. destruct pc as [p ci].
    apply elem_of_zip_l in Hpc. by eapply Forall_forall in Hpos.
  - exists s'. split; [done|].
    unfold substitute in Hs'.
    apply bind_Some in Hs' as (? & _ & Hs').
    apply bind_Some in Hs' as (? & _ & [_ ->]%list_assign_Some).
    by rewrite length_insert.
Qed.

(** The loops raise nothing when every position lies inside the word. *)
Lemma leet_produced_is_Some word aggressive cap :
  Forall (λ p, p.1 < length word)%nat (leet_positions word) →
  is_Some (leet_produced word aggressive cap).
Proof.
  intros Hpos. unfold leet_produced.
  pose proof (leet_masks_in_range word) as Hmasks.
  pose proof (apply_variant_is_Some word) as Happly.
  unfold leet_masks in Hmasks, Happly.
  destruct (leet_choices_Some word) as (choices & Hch & Hall). rewrite Hch in *.
  simpl. destruct aggressive; simpl.
  - edestruct (for_each_until_is_Some (apply_variant word (leet_positions word))
                 (λ produced, bool_decide (cap ≤ Z.of_nat (size produced))%Z)
                 (λ _, True)) as (P & -> & _); [|done|done].
    intros mask P Hmask _.
    destruct (Happly mask P) as [P' HP']; eauto.
  - edestruct (for_each_is_Some (single_substitutions word) (λ _, True))
      as (P & -> & _); [|done|done].
    intros [i ch] P Hp _.
    destruct (single_substitutions_is_Some word (i, ch) P) as [P' HP']; eauto.
    + by apply elem_of_leet_positions in Hp as [_ ?].
    + by eapply Forall_forall in Hpos.
Qed.

Lemma leet_variants_is_Some word aggressive cap :
  (length (str_lower word) ≤ length word)%nat →
  is_Some (leet_variants word aggressive cap).
Proof.
  intros Hlen. unfold leet_variants. case_bool_decide; [done|].
  destruct (leet_produced_is_Some word aggressive cap) as [P ->]; [|done].
  apply Forall_forall. intros p Hp%leet_positions_lt. lia.
Qed.

Lemma leet_variants_Some word aggressive cap V :
  leet_variants word aggressive cap = Some V →
  (leet_positions word = [] ∧ V = {[ word ]}) ∨
  (leet_positions word ≠ [] ∧
   ∃ P, leet_produced word aggressive cap = Some P ∧ V = {[ word ]} ∪ P).
Proof.
  unfold leet_variants. case_bool_decide as Hpos.
  - intros [= <-]. by left.
  - intros (P & HP & [= <-])%bind_Some. right. eauto.
Qed.

(** What the non-aggressive branch returns: the word, and for each
    position one variant, the word with the second alternative of the
    character found there in [word.lower()] written at that index. *)
Lemma leet_variants_basic (word : str) (cap : Z) (V : gset str) :
  leet_variants word false cap = Some V →
  word ∈ V ∧
  (∀ v, v ∈ V → v ≠ word →
     ∃ i ch alts c, (i, ch) ∈ leet_positions word ∧
       LEET_MAP !! ch = Some alts ∧ alts !! 1%nat = Some [c] ∧
       (i < length word)%nat ∧ v = <[i:=c]> word) ∧
  (∀ i ch, (i, ch) ∈ leet_positions word →
     ∃ alts c, LEET_MAP !! ch = Some alts ∧ alts !! 1%nat = Some [c] ∧
       <[i:=c]> word ∈ V).
Proof.
  intros [[Hnil ->]|(_ & P & [-> Hpos]%leet_produced_basic & ->)]%leet_variants_Some.
  { rewrite Hnil. split_and!; [set_solver|set_solver|]. intros i ch Hp.
    by apply elem_of_nil in Hp. }
  split_and!; [set_solver| |].
  - intros v [?%elem_of_singleton|Hv]%elem_of_union Hne; [done|].
    apply elem_of_union_list in Hv as (X & (p & -> & Hp)%list_elem_of_fmap & Hv).
    apply elem_of_single_variant in Hv as (alts & c & Halts & Hc & ->).
    destruct p as [i ch]. exists i, ch, alts, c. split_and!; try done.
    by apply (proj1 (Forall_forall _ _) Hpos (i, ch)).
  - intros i ch Hp.
    pose proof Hp as [_ [alts Halts]]%elem_of_leet_positions.
    destruct (LEET_MAP_shape _ _ Halts) as (_ & Hlen & _).
    destruct (lookup_lt_is_Some_2 alts 1) as [r Hr]; [lia|].
    pose proof (LEET_MAP_single _ _ _ _ Halts Hr) as Hr1.
    destruct r as [|c [|]]; try done.
    exists alts, c. split_and!; [done..|].
    apply elem_of_union. right. apply elem_of_union_list.
    exists (single_variant word (i, ch)). split.
    + apply list_elem_of_fmap. eauto.
    + unfold single_variant. simpl. rewrite Halts, Hr, join_insert_chars.
      set_solver.
Qed.

End leet_properties.

(** C10. Every string of [leet_variants(w, mode, cap)] is as long as [w]:
    a substitution writes one character of the table over one position.
    The call returns whenever lowercasing does not lengthen the word. *)
Theorem leet_variants_same_length `{Python} (word : str) (aggressive : bool) (cap : Z) :
  ((length (str_lower word) ≤ length word)%nat →
   is_Some (leet_variants word aggressive cap)) ∧
  (∀ V v, leet_variants word aggressive cap = Some V → v ∈ V →
          length v = length word).
Proof.
  split; [apply leet_variants_is_Some|].
  intros V v [[_ ->]|(_ & P & HP & ->)]%leet_variants_Some Hv.
  - by apply elem_of_singleton in Hv as ->.
  - apply elem_of_union in Hv as [->%elem_of_singleton|Hv]; [done|].
    by eapply leet_produced_length.
Qed.

Lemma leet_variants_same_length_witness :
  is_Some (leet_variants (cps "naman") true 12) ∧
  length (cps "n4m@n") = length (cps "naman").
Proof.
  destruct (leet_variants_same_length (cps "naman") true 12) as [Hret Hlen].
  split.
  - apply Hret. vm_compute. lia.
  - apply (Hlen (default ∅ (leet_variants (cps "naman") true 12))).
    + vm_compute. reflexivity.
    + apply (bool_decide_unpack _). vm_compute. reflexivity.
Defined.

(** C5. The claim fails on the code by a defect: positions are indices
    into [word.lower()], which is longer than [word] when the word holds
    U+0130, and they are used to index [list(word)].  On U+0130 followed by
    [stanbul] the assignment at index 8 raises and nothing is returned; on
    U+0130 followed by [axx] the variant for the letter [a] overwrites the
    [x] at index 2, which is not a substitutable position. *)
Theorem leet_variants_dotted_capital_I :
  leet_variants (304 :: cps "stanbul") false 16 = None ∧
  ∃ V, leet_variants (304 :: cps "axx") false 16 = Some V ∧
       304 :: cps "a4x" ∈ V.
Proof.
  split; [by vm_compute|].
  exists (default ∅ (leet_variants (304 :: cps "axx") false 16)).
  split; [by vm_compute|]. apply (bool_decide_unpack _). by vm_compute.
Qed.

(** C4, as amended: for [cap >= 1].  In aggressive mode the enumeration
    stops after the first combination that brings [produced] to [cap]
    elements, so [produced] holds at most [cap] strings and the returned
    set at most [cap + 1].  The call returns whenever lowercasing does not
    lengthen the word. *)
Theorem leet_variants_cap `{Python} (word : str) (cap : Z) :
  (1 ≤ cap)%Z →
  ((length (str_lower word) ≤ length word)%nat →
   is_Some (leet_variants word true cap)) ∧
  (∀ P, leet_produced word true cap = Some P →
     (∃ k, (k ≤ length (leet_masks word))%nat ∧
        produced_after word k = Some P ∧
        ((k < length (leet_masks word))%nat → (cap ≤ Z.of_nat (size P))%Z) ∧
        (∀ j Pj, (0 < j < k)%nat → produced_after word j = Some Pj →
                 (Z.of_nat (size Pj) < cap)%Z)) ∧
     (Z.of_nat (size P) ≤ cap)%Z) ∧
  (∀ V, leet_variants word true cap = Some V → (Z.of_nat (size V) ≤ cap + 1)%Z).
Proof.
  intros Hcap.
  assert (∀ P, leet_produced word true cap = Some P → (Z.of_nat (size P) ≤ cap)%Z)
    as Hsize.
  { intros P HP%leet_produced_aggressive.
    refine (for_each_until_inv_entry _ _
              (λ P, Z.of_nat (size P) < cap)%Z (λ P, Z.of_nat (size P) ≤ cap)%Z
              _ _ _ _ _ _ HP).
    - lia.
    - intros mask Q Q' _ HQ (s & _ & _ & ->)%apply_variant_Some.
      pose proof (size_set_add (join s) Q).
      split; [lia|]. intros Hstop%bool_decide_eq_false. lia.
    - rewrite size_empty. lia. }
  split_and!.
  - apply leet_variants_is_Some.
  - intros P HP. split; [|by apply Hsize].
    apply leet_produced_aggressive, for_each_until_prefix in HP
      as (k & Hk & Hrun & Hfull & Hmin).
    exists k. unfold produced_after. split_and!; [done|done| |].
    + intros Hlt. apply Hfull in Hlt. by apply bool_decide_eq_true in Hlt.
    + intros j Pj Hj HPj. apply (Hmin j Pj Hj) in HPj.
      apply bool_decide_eq_false in HPj. lia.
  - intros V [[_ ->]|(_ & P & HP & ->)]%leet_variants_Some.
    + rewrite size_singleton. lia.
    + apply Hsize in HP. pose proof (size_set_add word P) as Hadd.
      unfold set_add in Hadd. lia.
Qed.

Lemma leet_variants_cap_witness :
  ∃ P V, leet_produced (cps "naman") true 4 = Some P ∧
         leet_variants (cps "naman") true 4 = Some V ∧
         (Z.of_nat (size P) ≤ 4)%Z ∧ (Z.of_nat (size V) ≤ 4 + 1)%Z.
Proof.
  destruct (leet_variants_cap (cps "naman") 4) as (_ & HP & HV); [lia|].
  exists (default ∅ (leet_produced (cps "naman") true 4)),
         (default ∅ (leet_variants (cps "naman") true 4)).
  assert (leet_produced (cps "naman") true 4
          = Some (default ∅ (leet_produced (cps "naman") true 4))) as HPeq
    by (vm_compute; reflexivity).
  assert (leet_variants (cps "naman") true 4
          = Some (default ∅ (leet_variants (cps "naman") true 4))) as HVeq
    by (vm_compute; reflexivity).
  split_and!; [exact HPeq|exact HVeq|apply (HP _ HPeq)|apply (HV _ HVeq)].
Defined.

(** C4 as stated fails for [cap <= 0]: the size is tested after a variant
    has been added, so one combination is always processed.  For the word
    [A] and cap 0, [produced] holds one string and the result two. *)
Lemma leet_variants_cap_zero :
  ∃ P V, leet_produced (cps "A") true 0 = Some P ∧
         leet_variants (cps "A") true 0 = Some V ∧
         ¬ (Z.of_nat (size P) ≤ 0)%Z ∧ ¬ (Z.of_nat (size V) ≤ 0 + 1)%Z.
Proof.
  exists (default ∅ (leet_produced (cps "A") true 0)),
         (default ∅ (leet_variants (cps "A") true 0)).
  split_and!; [by vm_compute|by vm_compute|by vm_compute|by vm_compute].
Qed.

(** ** The two orders *)

Lemma str_leb_total a b : str_leb a b = true ∨ str_leb b a = true.
Proof.
  revert b. induction a as [|x a IH]; intros [|y b]; simpl; auto.
  destruct (N.ltb_spec x y), (N.ltb_spec y x), (N.eqb_spec x y),
    (N.eqb_spec y x); simpl; auto; lia.
Qed.

Lemma str_leb_trans a b c :
  str_leb a b = true → str_leb b c = true → str_leb a c = true.
Proof.
  revert b c. induction a as [|x a IH]; intros [|y b] [|z c]; simpl; try done.
  destruct (N.ltb_spec x y), (N.ltb_spec y z), (N.ltb_spec x z),
    (N.eqb_spec x y), (N.eqb_spec y z), (N.eqb_spec x z);
    simpl; try done; try lia.
  apply IH.
Qed.

Lemma str_leb_antisym a b : str_leb a b = true → str_leb b a = true → a = b.
Proof.
  revert b. induction a as [|x a IH]; intros [|y b]; simpl; try done.
  destruct (N.ltb_spec x y), (N.ltb_spec y x), (N.eqb_spec x y),
    (N.eqb_spec y x); simpl; try done; try lia.
  intros. f_equal; auto.
Qed.

#[global] Instance str_le_total : Total str_le.
Proof. intros a b. apply str_leb_total. Qed.
#[global] Instance str_le_trans : Transitive str_le.
Proof. intros a b c. apply str_leb_trans. Qed.
#[global] Instance str_le_antisym : AntiSymm (=) str_le.
Proof. intros a b. apply str_leb_antisym. Qed.

#[global] Instance key_le_total : Total key_le.
Proof.
  intros a b. unfold key_le.
  destruct (lt_eq_lt_dec (length a) (length b)) as [[?|?]|?]; auto.
  destruct (str_leb_total a b); auto.
Qed.
#[global] Instance key_le_trans : Transitive key_le.
Proof.
  intros a b c [?|[? ?]] [?|[? ?]]; unfold key_le; try (left; lia).
  right. split; [lia|]. by etrans.
Qed.
#[global] Instance key_le_antisym : AntiSymm (=) key_le.
Proof.
  intros a b [?|[? ?]] [?|[? ?]]; try lia. by apply (anti_symm str_le).
Qed.

(** Sorting is a function of the elements alone: [sorted] returns the same
    list in whatever order the set was visited. *)
Lemma sorted_unique (R : relation str) `{!RelDecision R, !Total R,
    !Transitive R, !AntiSymm (=) R} (xs ys : list str) :
  xs ≡ₚ ys → merge_sort R xs = merge_sort R ys.
Proof.
  intros Hperm. apply (StronglySorted_unique R).
  - by apply StronglySorted_merge_sort.
  - by apply StronglySorted_merge_sort.
  - by rewrite !merge_sort_Permutation.
Qed.

Lemma sorted_by_len_transfer (R : Python) (X : gset str) :
  sorted_by_len (@set_iter R X) = sorted_by_len (@set_iter cpython X).
Proof. apply (sorted_unique key_le), set_iter_perm_cpython. Qed.

Lemma sorted_transfer (R : Python) (X : gset str) :
  sorted (@set_iter R X) = sorted (@set_iter cpython X).
Proof. apply (sorted_unique str_le), set_iter_perm_cpython. Qed.

Lemma elem_of_sorted x xs : x ∈ sorted xs ↔ x ∈ xs.
Proof. unfold sorted. by rewrite merge_sort_Permutation. Qed.

Lemma slice_to_take {A} (l : list A) stop : ∃ n, slice_to l stop = take n l.
Proof. unfold slice_to. case_bool_decide; eauto. Qed.

Lemma length_slice_to {A} (l : list A) stop :
  (0 ≤ stop)%Z → (Z.of_nat (length (slice_to l stop)) ≤ stop)%Z.
Proof.
  intros Hstop. unfold slice_to. rewrite bool_decide_eq_false_2 by lia.
  rewrite length_take. lia.
Qed.

Lemma StronglySorted_take {A} (R : relation A) n l :
  StronglySorted R l → StronglySorted R (take n l).
Proof.
  intros Hl. rewrite <-(take_drop n l) in Hl.
  by apply StronglySorted_app_1_l in Hl.
Qed.

(** ** The wordlist *)

Lemma elem_of_maybe_add x c out :
  x ∈ maybe_add c out ↔ (x = c ∧ in_window c) ∨ x ∈ out.
Proof.
  unfold maybe_add, set_add, in_window. case_bool_decide; set_solver.
Qed.

Lemma maybe_add_window c out :
  set_Forall in_window out → set_Forall in_window (maybe_add c out).
Proof.
  intros Hout x [[-> ?]|?]%elem_of_maybe_add; [done|by apply Hout].
Qed.

Lemma maybe_add_union c out : maybe_add c out = window_set c ∪ out.
Proof. unfold maybe_add, window_set, set_add. case_bool_decide; set_solver. Qed.

Section wordlist_properties.
Context `{Python}.

(** Only candidates inside the length window reach [out]. *)
Lemma combine_window expanded years suffixes out :
  set_Forall in_window out →
  set_Forall in_window (combine expanded years suffixes out).
Proof.
  intros Hout. unfold combine.
  repeat (apply foldl_inv; [intros ? ? _ ?|]);
    repeat apply maybe_add_window; done.
Qed.

Lemma expand_bases_is_Some bases aggressive max_candidates :
  set_Forall (λ b, length (str_lower b) ≤ length b)%nat bases →
  is_Some (expand_bases bases aggressive max_candidates).
Proof.
  intros Hbases. unfold expand_bases.
  edestruct (for_each_until_is_Some
               (λ b expanded, v ← leet_variants b aggressive 12; Some (expanded ∪ v))
               (λ expanded, bool_decide (max_candidates < Z.of_nat (size expanded))%Z)
               (λ _, True)) as (E & -> & _); [|done|done].
  intros b E Hb%elem_of_set_iter _.
  destruct (leet_variants_is_Some b aggressive 12) as [V ->]; [by apply Hbases|].
  simpl. eauto.
Qed.

End wordlist_properties.

(** *** ASCII input raises nothing *)

Lemma truthy_Some (x : option str) s : truthy x = Some s → x = Some s ∧ s ≠ [].
Proof. destruct x as [[|c t]|]; naive_solver. Qed.

Lemma ascii_lower_lt c : c < 128 → ascii_lower c < 128.
Proof. unfold ascii_lower. destruct (_ && _) eqn:Hc; [|done]. intros _.
  apply andb_true_iff in Hc as [_ Hc%N.leb_le]. lia. Qed.

Lemma ascii_upper_lt c : c < 128 → ascii_upper c < 128.
Proof. unfold ascii_upper. destruct (_ && _); lia. Qed.

Lemma ascii_title_go_ascii prev s : is_ascii s → is_ascii (ascii_title_go prev s).
Proof.
  intros Hs. revert prev. induction Hs as [|c s Hc _ IH]; intros prev; simpl.
  - constructor.
  - constructor; [|apply IH].
    destruct prev; [by apply ascii_lower_lt|by apply ascii_upper_lt].
Qed.

Section ascii_input.
Context `{Python}.

Lemma str_lower_ascii_length word :
  is_ascii word → length (str_lower word) = length word.
Proof. intros Hw. by rewrite str_lower_ascii, length_fmap. Qed.

Lemma leet_variants_ascii_is_Some word aggressive cap :
  is_ascii word → is_Some (leet_variants word aggressive cap).
Proof.
  intros Hw. apply leet_variants_is_Some. by rewrite str_lower_ascii_length.
Qed.

Lemma case_variants_ascii word :
  is_ascii word → set_Forall is_ascii (case_variants word).
Proof.
  intros Hw. unfold case_variants, set_add.
  rewrite str_lower_ascii, str_upper_ascii, str_capitalize_ascii,
    str_title_ascii by done.
  assert (is_ascii (ascii_lower <$> word))
    by (apply Forall_fmap; eapply Forall_impl; [done|apply ascii_lower_lt]).
  assert (is_ascii (ascii_upper <$> word))
    by (apply Forall_fmap; eapply Forall_impl; [done|apply ascii_upper_lt]).
  assert (is_ascii (ascii_capitalize word)).
  { destruct Hw as [|c w Hc Hw]; [constructor|]. simpl.
    constructor; [by apply ascii_upper_lt|].
    apply Forall_fmap. eapply Forall_impl; [done|apply ascii_lower_lt]. }
  assert (is_ascii (ascii_title word)) by (by apply ascii_title_go_ascii).
  intros x. rewrite !elem_of_union, !elem_of_singleton. naive_solver.
Qed.

Lemma findall_digits_go_ascii cur s :
  is_ascii cur → is_ascii s → Forall is_ascii (findall_digits_go cur s).
Proof.
  intros Hcur Hs. revert cur Hcur.
  induction Hs as [|c s Hc _ IH]; intros cur Hcur; simpl.
  - case_bool_decide; [constructor|].
    constructor; [by apply Forall_reverse|constructor].
  - destruct (chr_isdecimal c); [apply IH; by constructor|].
    case_bool_decide; [apply IH; constructor|].
    constructor; [by apply Forall_reverse|apply IH; constructor].
Qed.

Lemma kw_ascii kws i : Forall is_ascii kws → is_ascii (kw kws i).
Proof.
  intros Hkws. unfold kw. destruct (kws !! i) as [k|] eqn:Hk; [|constructor].
  by eapply Forall_lookup_1 in Hkws.
Qed.

Lemma set_add_ascii x bases :
  is_ascii x → set_Forall is_ascii bases → set_Forall is_ascii (set_add x bases).
Proof.
  intros Hx Hb y. unfold set_add.
  intros [->%elem_of_singleton|Hy]%elem_of_union; [done|by apply Hb].
Qed.

(** ASCII keywords, separators and date give ASCII bases. *)
Lemma build_bases_ascii keywords dob separators :
  Forall is_ascii keywords → Forall is_ascii separators →
  is_ascii (default [] dob) →
  set_Forall is_ascii (build_bases keywords dob separators).
Proof.
  intros Hkw Hsep Hdob. unfold build_bases.
  assert (Forall is_ascii (filter (λ k, k ≠ []) keywords)) as Hkws.
  { apply Forall_forall. intros k [_ Hk]%list_elem_of_filter.
    by eapply Forall_forall in Hkw. }
  set (kws := filter (λ k, k ≠ []) keywords) in *.
  set (bases1 := foldl _ ∅ kws).
  assert (set_Forall is_ascii bases1) as H1.
  { apply foldl_inv; [|intros x Hx; by apply not_elem_of_empty in Hx].
    intros b w Hw Hb. apply foldl_inv; [|done].
    intros b' v Hv%elem_of_set_iter Hb'. apply set_add_ascii; [|done].
    apply (case_variants_ascii w); [|done].
    by eapply Forall_forall in Hkws. }
  set (bases2 := foldl _ bases1 separators).
  assert (set_Forall is_ascii bases2) as H2.
  { apply foldl_inv; [|done]. intros b sep Hs Hb.
    assert (is_ascii sep) by (by eapply Forall_forall in Hsep).
    apply foldl_inv; [|done]. intros b' i _ Hb'.
    apply foldl_inv; [|done]. intros b'' j _ Hb''.
    repeat apply set_add_ascii; try done;
      repeat apply Forall_app_2; by (done || apply kw_ascii). }
  destruct (truthy dob) as [d|] eqn:Hd; [|done].
  apply truthy_Some in Hd as [-> _].
  apply foldl_inv; [|done]. intros b t Ht Hb. apply set_add_ascii; [|done].
  revert t Ht. apply Forall_forall, findall_digits_go_ascii; [constructor|done].
Qed.

(** ASCII input makes [generate_wordlist] return. *)
Lemma generate_wordlist_ascii_is_Some keywords dob years leet_mode suffixes
    separators max_candidates :
  Forall is_ascii keywords → Forall is_ascii separators →
  is_ascii (default [] dob) →
  is_Some (generate_wordlist keywords dob years leet_mode suffixes separators
             max_candidates).
Proof.
  intros Hkw Hsep Hdob. unfold generate_wordlist.
  destruct (expand_bases_is_Some (build_bases keywords dob separators)
              (bool_decide (str_lower leet_mode = cps "aggressive"))
              max_candidates) as [E ->]; [|done].
  intros b Hb%build_bases_ascii; [|done..].
  by rewrite str_lower_ascii_length.
Qed.

End ascii_input.

(** C1, as amended: for [max_candidates >= 0], and for the calls that
    return.  The list has no duplicates, holds only strings of 4 to 64
    characters, is sorted by length and then by code points, and has at
    most [max_candidates] elements.  The call returns whenever lowercasing
    lengthens no base, in particular on ASCII input. *)
Theorem generate_wordlist_spec `{Python} (keywords : list str) (dob : option str)
    (years : list str) (leet_mode : str) (suffixes separators : list str)
    (max_candidates : Z) :
  (set_Forall (λ b, length (str_lower b) ≤ length b)%nat
     (build_bases keywords dob separators) →
   is_Some (generate_wordlist keywords dob years leet_mode suffixes separators
              max_candidates)) ∧
  (Forall is_ascii keywords → Forall is_ascii separators →
   is_ascii (default [] dob) →
   is_Some (generate_wordlist keywords dob years leet_mode suffixes separators
              max_candidates)) ∧
  (∀ l, generate_wordlist keywords dob years leet_mode suffixes separators
          max_candidates = Some l →
     NoDup l ∧ Forall in_window l ∧ StronglySorted key_le l ∧
     ((0 ≤ max_candidates)%Z → (Z.of_nat (length l) ≤ max_candidates)%Z)).
Proof.
  split_and!; [|apply generate_wordlist_ascii_is_Some|]; unfold generate_wordlist.
  - intros Hbases.
    destruct (expand_bases_is_Some _
                (bool_decide (str_lower leet_mode = cps "aggressive"))
                max_candidates Hbases) as [E ->].
    done.
  - intros l (E & _ & [= <-])%bind_Some.
    set (out := combine E years suffixes ∅).
    destruct (slice_to_take (sorted_by_len (set_iter out)) max_candidates) as [n Hn].
    split_and!.
    + rewrite Hn. eapply sublist_NoDup; [|apply sublist_take].
      unfold sorted_by_len. rewrite merge_sort_Permutation. apply NoDup_set_iter.
    + rewrite Hn. apply Forall_take. unfold sorted_by_len.
      rewrite merge_sort_Permutation. apply Forall_forall.
      intros x Hx%elem_of_set_iter. revert x Hx.
      apply combine_window. intros x Hx. by apply not_elem_of_empty in Hx.
    + rewrite Hn. apply StronglySorted_take. unfold sorted_by_len.
      apply (StronglySorted_merge_sort key_le).
    + apply length_slice_to.
Qed.

Lemma generate_wordlist_spec_witness :
  ∃ l, generate_wordlist [cps "naman"; cps "patil"] (Some (cps "2002-08-09"))
         [cps "2024"; cps "02"] (cps "aggressive") [cps "!"] [cps "_"] 40 = Some l ∧
       NoDup l ∧ Forall in_window l ∧ StronglySorted key_le l ∧
       (Z.of_nat (length l) ≤ 40)%Z.
Proof.
  destruct (generate_wordlist_spec [cps "naman"; cps "patil"]
              (Some (cps "2002-08-09")) [cps "2024"; cps "02"] (cps "aggressive")
              [cps "!"] [cps "_"] 40) as (Hret & _ & Hspec).
  destruct Hret as [l Hl].
  - apply (bool_decide_unpack _). vm_compute. reflexivity.
  - exists l. split; [exact Hl|].
    destruct (Hspec l Hl) as (Hnd & Hwin & Hsorted & Hlen).
    split_and!; [exact Hnd|exact Hwin|exact Hsorted|apply Hlen; lia].
Defined.

(** C1 as stated fails for a negative [max_candidates]: the slice then
    drops that many strings from the end of the list.  With -1 and one
    base the five candidates become four. *)
Lemma generate_wordlist_negative_max :
  ∃ l, generate_wordlist [cps "1234"] None [cps "2024"] (cps "basic") [cps "!"] []
         (-1) = Some l ∧
       length l = 4%nat ∧ ¬ (Z.of_nat (length l) ≤ -1)%Z.
Proof.
  eexists. split; [vm_compute; reflexivity|]. split; [reflexivity|]. simpl. lia.
Qed.

(** The defect of C5 reaches the wordlist: a keyword with U+0130 makes
    [generate_wordlist] raise. *)
Lemma generate_wordlist_dotted_capital_I :
  generate_wordlist [304 :: cps "stanbul"] None [cps "2024"] (cps "basic")
    [cps "!"] [] 20000 = None.
Proof. by vm_compute. Qed.

(** C3. [leet_mode="off"] and [leet_mode="basic"] give the same outcome:
    neither lowercases to ["aggressive"], the only value the code tests
    for, so both take the non-aggressive path. *)
Theorem generate_wordlist_off_is_basic `{Python} (keywords : list str)
    (dob : option str) (years suffixes separators : list str) (max_candidates : Z) :
  bool_decide (str_lower (cps "off") = cps "aggressive") = false ∧
  bool_decide (str_lower (cps "basic") = cps "aggressive") = false ∧
  generate_wordlist keywords dob years (cps "off") suffixes separators max_candidates
  = generate_wordlist keywords dob years (cps "basic") suffixes separators
      max_candidates.
Proof.
  assert (bool_decide (str_lower (cps "off") = cps "aggressive") = false) as Hoff
    by (rewrite str_lower_ascii by ascii_literal; done).
  assert (bool_decide (str_lower (cps "basic") = cps "aggressive") = false) as Hbasic
    by (rewrite str_lower_ascii by ascii_literal; done).
  split_and!; [done..|].
  unfold generate_wordlist. by rewrite Hoff, Hbasic.
Qed.

(** ** ASCII input: the result does not depend on the runtime

    On ASCII strings the laws of [Python] fix every built-in, and neither
    the combination loops nor [sorted] depend on the order in which a set
    is visited, so the functions agree with their evaluation on
    [cpython]. *)

Lemma leet_variants_transfer (R : Python) word aggressive cap :
  is_ascii word →
  @leet_variants R word aggressive cap = @leet_variants cpython word aggressive cap.
Proof.
  intros Hw. unfold leet_variants, leet_produced, leet_positions.
  by rewrite !str_lower_ascii.
Qed.

Lemma case_variants_transfer (R : Python) word :
  is_ascii word → @case_variants R word = @case_variants cpython word.
Proof.
  intros Hw. unfold case_variants.
  by rewrite !str_lower_ascii, !str_upper_ascii, !str_capitalize_ascii,
    !str_title_ascii.
Qed.

Lemma findall_digits_go_transfer (R : Python) cur s :
  is_ascii s → @findall_digits_go R cur s = @findall_digits_go cpython cur s.
Proof.
  intros Hs. revert cur. induction Hs as [|c s Hc _ IH]; intros cur; simpl; [done|].
  rewrite chr_isdecimal_ascii by done. simpl. by rewrite !IH.
Qed.

Lemma build_bases_transfer (R : Python) keywords dob separators :
  Forall is_ascii keywords → is_ascii (default [] dob) →
  @build_bases R keywords dob separators = @build_bases cpython keywords dob separators.
Proof.
  intros Hkw Hdob. unfold build_bases.
  rewrite (foldl_ext_in
    (λ bases w, foldl (λ bases v, set_add v bases) bases
                  (@set_iter R (@case_variants R w)))
    (λ bases w, foldl (λ bases v, set_add v bases) bases
                  (@set_iter cpython (@case_variants cpython w)))).
  2:{ intros bases w [_ Hw]%list_elem_of_filter.
      rewrite case_variants_transfer by (by eapply Forall_forall in Hkw).
      apply (foldl_union_perm _ (λ v, {[ v ]})); [done|].
      apply set_iter_perm_cpython. }
  destruct (truthy dob) as [d|] eqn:Hd; [|done].
  apply truthy_Some in Hd as [-> _]. unfold findall_digits.
  by rewrite findall_digits_go_transfer.
Qed.

Lemma expand_all_Some leet l acc E :
  expand_all leet l acc = Some E →
  acc ⊆ E ∧
  (∀ b, b ∈ l → ∃ v, leet b = Some v ∧ v ⊆ E) ∧
  (∀ x, x ∈ E → x ∈ acc ∨ ∃ b v, b ∈ l ∧ leet b = Some v ∧ x ∈ v).
Proof.
  unfold expand_all. revert acc. induction l as [|b l IH]; intros acc HE; simpl in HE.
  - simplify_eq. split_and!; [done| |by left]. intros b Hb. by apply elem_of_nil in Hb.
  - apply bind_Some in HE as (acc' & Hb & HE).
    apply bind_Some in Hb as (v & Hv & [= <-]).
    destruct (IH _ HE) as (Hacc & Hl & HE').
    split_and!; [set_solver| |].
    + intros b' [->|Hb']%elem_of_cons; [|by apply Hl].
      exists v. split; [done|set_solver].
    + intros x [[?|?]%elem_of_union|(b' & v' & ? & ? & ?)]%HE'.
      * by left.
      * right. exists b, v. split_and!; [by left|done..].
      * right. exists b', v'. split_and!; [by right|done..].
Qed.

(** When the whole expansion fits under [max_candidates] the loop never
    breaks, whatever the order. *)
Lemma expand_until_no_break (leet : str → option (gset str)) (l : list str)
    (acc E : gset str) (max_candidates : Z) :
  acc ⊆ E → (∀ b, b ∈ l → ∃ v, leet b = Some v ∧ v ⊆ E) →
  (Z.of_nat (size E) ≤ max_candidates)%Z →
  ∃ E', for_each_until (λ b expanded, v ← leet b; Some (expanded ∪ v))
          (λ expanded, bool_decide (max_candidates < Z.of_nat (size expanded))%Z)
          l acc = Some E' ∧
        acc ⊆ E' ∧ E' ⊆ E ∧ (∀ b, b ∈ l → ∃ v, leet b = Some v ∧ v ⊆ E').
Proof.
  intros Hacc Hl Hmax. revert acc Hacc.
  induction l as [|b l IH]; intros acc Hacc; simpl.
  - exists acc. split_and!; [done..|]. intros b Hb. by apply elem_of_nil in Hb.
  - destruct (Hl b) as (v & Hv & HvE); [by left|]. rewrite Hv. simpl.
    assert (acc ∪ v ⊆ E) as Hacc' by set_solver.
    rewrite bool_decide_eq_false_2
      by (pose proof (subseteq_size _ _ Hacc'); lia).
    destruct (IH (λ b' Hb', Hl b' (list_elem_of_further _ _ _ Hb')) _ Hacc')
      as (E' & -> & Hsub & HE' & Hl').
    exists E'. split_and!; [done|set_solver|done|].
    intros b' [->|Hb']%elem_of_cons; [|by apply Hl'].
    exists v. split; [done|set_solver].
Qed.

Lemma expand_bases_transfer (R : Python) bases aggressive max_candidates E :
  set_Forall is_ascii bases →
  expand_all (λ b, @leet_variants cpython b aggressive 12) (elements bases) ∅ = Some E →
  (Z.of_nat (size E) ≤ max_candidates)%Z →
  @expand_bases R bases aggressive max_candidates = Some E.
Proof.
  intros Hascii (_ & Hl & HE)%expand_all_Some Hmax. unfold expand_bases.
  destruct (expand_until_no_break (λ b, @leet_variants R b aggressive 12)
              (@set_iter R bases) ∅ E max_candidates)
    as (E' & -> & _ & HE' & Hl'); [set_solver| |done|].
  { intros b Hb%elem_of_set_iter. rewrite leet_variants_transfer by by apply Hascii.
    apply Hl. by apply elem_of_elements. }
  f_equal. apply set_eq. intros x. split; [apply HE'|].
  intros [?%not_elem_of_empty|(b & v & Hb%elem_of_elements & Hv & Hx)]%HE; [done|].
  destruct (Hl' b) as (v' & Hv' & Hsub); [by apply elem_of_set_iter|].
  rewrite leet_variants_transfer in Hv' by by apply Hascii.
  set_solver.
Qed.

Lemma combine_transfer (R : Python) expanded years suffixes out :
  @combine R expanded years suffixes out
  = @combine cpython expanded years suffixes out.
Proof.
  assert (∀ (f : gset str → str → gset str) g,
            (∀ out x, f out x = g x ∪ out) →
            ∀ out, foldl f out (@set_iter R expanded)
                   = foldl f out (@set_iter cpython expanded)) as Hloop.
  { intros f g Hf o. apply (foldl_union_perm f g); [done|].
    apply set_iter_perm_cpython. }
  unfold combine.
  rewrite (Hloop (λ out b, maybe_add b out) window_set)
    by (intros; apply maybe_add_union).
  rewrite (Hloop
    (λ out b, foldl (λ out y, maybe_add (y ++ b) (maybe_add (b ++ y) out)) out years)
    (λ b, ⋃ ((λ y, window_set (y ++ b) ∪ window_set (b ++ y)) <$> years))).
  2:{ intros o b. apply foldl_union. intros o' y. rewrite !maybe_add_union. set_solver. }
  rewrite (Hloop
    (λ out b, foldl (λ out s, maybe_add (b ++ s) out) out suffixes)
    (λ b, ⋃ ((λ s, window_set (b ++ s)) <$> suffixes))).
  2:{ intros o b. apply foldl_union. intros o' y. by rewrite maybe_add_union. }
  apply (Hloop _
    (λ b, ⋃ ((λ y, ⋃ ((λ s, window_set ((b ++ y) ++ s)) <$> suffixes)) <$> years))).
  intros o b. apply foldl_union. intros o' y. apply foldl_union.
  intros o'' s. by rewrite maybe_add_union.
Qed.

(** On ASCII input, and when the whole expansion fits under
    [max_candidates], the wordlist does not depend on the runtime: not on
    the Unicode tables and not on the order in which sets are visited. *)
Lemma generate_wordlist_transfer (R : Python) keywords dob years leet_mode
    suffixes separators max_candidates E :
  Forall is_ascii keywords → Forall is_ascii separators →
  is_ascii (default [] dob) → is_ascii leet_mode →
  expand_all
    (λ b, @leet_variants cpython b
            (bool_decide (@str_lower cpython leet_mode = cps "aggressive")) 12)
    (elements (@build_bases cpython keywords dob separators)) ∅ = Some E →
  (Z.of_nat (size E) ≤ max_candidates)%Z →
  @generate_wordlist R keywords dob years leet_mode suffixes separators max_candidates
  = @generate_wordlist cpython keywords dob years leet_mode suffixes separators
      max_candidates.
Proof.
  intros Hkw Hsep Hdob Hmode HE Hmax. unfold generate_wordlist.
  pose proof (@build_bases_ascii cpython _ _ _ Hkw Hsep Hdob) as Hbases.
  rewrite build_bases_transfer by done.
  rewrite (@str_lower_ascii R), (@str_lower_ascii cpython) in * by done.
  rewrite (expand_bases_transfer R _ _ _ E),
    (expand_bases_transfer cpython _ _ _ E) by done.
  simpl. by rewrite combine_transfer, sorted_by_len_transfer.
Qed.

(** C2. The end-to-end example, on every runtime: the four strings are in
    the list, and every string of the list has 4 to 64 characters. *)
Theorem generate_wordlist_naman `{Python} :
  ∃ l, generate_wordlist [cps "naman"] None [cps "2024"] (cps "basic") [cps "!"] []
         1000 = Some l ∧
       cps "naman2024" ∈ l ∧ cps "2024naman" ∈ l ∧ cps "naman!" ∈ l ∧
       cps "naman2024!" ∈ l ∧
       Forall (λ x, 4 ≤ length x ≤ 64)%nat l.
Proof.
  rewrite (generate_wordlist_transfer _ _ _ _ _ _ _ _
             (default ∅ (expand_all (λ b, @leet_variants cpython b false 12)
                (elements (@build_bases cpython [cps "naman"] None [])) ∅))).
  - eexists. split; [vm_compute; reflexivity|].
    split_and!; try (apply (bool_decide_unpack _); by vm_compute).
  - ascii_literal.
  - ascii_literal.
  - ascii_literal.
  - ascii_literal.
  - vm_compute. reflexivity.
  - vm_compute. discriminate.
Qed.

(** ** Year tokens *)

Section year_properties.
Context `{Python}.

Lemma lstrip_split s :
  ∃ w, s = w ++ lstrip s ∧ Forall (λ c, chr_isspace c = true) w.
Proof.
  induction s as [|c s (w & IH & Hw)]; simpl.
  - by exists [].
  - destruct (chr_isspace c) eqn:Hc.
    + exists (c :: w). split; [simpl; congruence|by constructor].
    + by exists [].
Qed.

Lemma lstrip_app_spaces w s :
  Forall (λ c, chr_isspace c = true) w → lstrip (w ++ s) = lstrip s.
Proof. induction 1 as [|c w Hc _ IH]; simpl; [done|]. by rewrite Hc. Qed.

Lemma lstrip_digits g s :
  length g = 4%nat → Forall (λ c, chr_isdecimal c = true) g →
  lstrip (g ++ s) = g ++ s.
Proof.
  intros Hlen Hg. destruct Hg as [|c g Hc _]; [done|]. simpl.
  by rewrite chr_decimal_not_space.
Qed.

Lemma four_digits_Some s g rest :
  four_digits s = Some (g, rest) →
  s = g ++ rest ∧ length g = 4%nat ∧ Forall (λ c, chr_isdecimal c = true) g.
Proof.
  unfold four_digits. destruct s as [|a [|b [|c [|d s]]]]; try done.
  destruct (chr_isdecimal a) eqn:?, (chr_isdecimal b) eqn:?,
    (chr_isdecimal c) eqn:?, (chr_isdecimal d) eqn:?; simpl; try done.
  intros [= <- <-]. split_and!; [done|done|]. by repeat constructor.
Qed.

Lemma four_digits_app g rest :
  length g = 4%nat → Forall (λ c, chr_isdecimal c = true) g →
  four_digits (g ++ rest) = Some (g, rest).
Proof.
  intros Hlen Hg. destruct g as [|a [|b [|c [|d [|]]]]]; try done.
  apply Forall_cons in Hg as [Ha [Hb [Hc [Hd _]%Forall_cons]%Forall_cons]%Forall_cons].
  simpl. by rewrite Ha, Hb, Hc, Hd.
Qed.

(** The strings the range pattern accepts are exactly those that read:
    spaces, four digits, spaces, a hyphen, spaces, four digits, spaces;
    the groups are the two runs of digits. *)
Lemma match_year_range_spec years g1 g2 :
  match_year_range years = Some (g1, g2) ↔
  ∃ w1 w2 w3 w4,
    years = w1 ++ g1 ++ w2 ++ [45] ++ w3 ++ g2 ++ w4 ∧
    Forall (λ w, Forall (λ c, chr_isspace c = true) w) [w1; w2; w3; w4] ∧
    Forall (λ g, length g = 4%nat ∧ Forall (λ c, chr_isdecimal c = true) g)
      [g1; g2].
Proof.
  unfold match_year_range. split.
  - intros Hm.
    apply bind_Some in Hm as ([g1' s1] & Hg1 & Hm). simpl in Hm.
    destruct (lstrip s1) as [|c s2] eqn:Hs1; [done|].
    destruct (N.eqb_spec c 45) as [->|Hne]; [|done].
    apply bind_Some in Hm as ([g2' s3] & Hg2 & Hm). simpl in Hm.
    case_bool_decide as Hs3; [|done]. simplify_eq.
    apply four_digits_Some in Hg1 as (Hy1 & ? & ?), Hg2 as (Hy2 & ? & ?).
    destruct (lstrip_split years) as (w1 & Hw1 & ?).
    destruct (lstrip_split s1) as (w2 & Hw2 & ?).
    destruct (lstrip_split s2) as (w3 & Hw3 & ?).
    destruct (lstrip_split s3) as (w4 & Hw4 & ?).
    exists w1, w2, w3, w4. split_and!; [|by repeat constructor..].
    rewrite Hw1, Hy1, Hw2, Hs1. simpl. rewrite Hw3, Hy2, Hw4, Hs3.
    by rewrite app_nil_r.
  - intros (w1 & w2 & w3 & w4 & -> & Hw & Hg).
    apply Forall_cons in Hw as [Hw1 [Hw2 [Hw3 [Hw4 _]%Forall_cons]%Forall_cons]%Forall_cons].
    apply Forall_cons in Hg as [[Hl1 Hg1] [[Hl2 Hg2] _]%Forall_cons].
    rewrite lstrip_app_spaces, lstrip_digits, four_digits_app by done. simpl.
    rewrite lstrip_app_spaces by done. simpl.
    rewrite chr_isspace_ascii by lia. simpl.
    rewrite lstrip_app_spaces, lstrip_digits, four_digits_app by done. simpl.
    by rewrite <-(app_nil_r w4), lstrip_app_spaces by done.
Qed.

Lemma match_year_range_truthy years g1 g2 :
  match_year_range years = Some (g1, g2) → truthy (Some years) = Some years.
Proof. destruct years; [done|done]. Qed.

Lemma elem_of_parse_years years dob x :
  x ∈ parse_years years dob ↔
  x ∈ match truthy dob with
      | Some dob =>
          dob_tokens dob (match truthy years with
                          | Some years => years_tokens years ∅
                          | None => ∅
                          end)
      | None => match truthy years with
                | Some years => years_tokens years ∅
                | None => ∅
                end
      end.
Proof.
  unfold parse_years. rewrite elem_of_sorted, elem_of_set_iter.
  by destruct (truthy dob).
Qed.

Lemma elem_of_dob_tokens dob out x :
  x ∈ dob_tokens dob out ↔
  x ∈ out ∨
  ((8 ≤ length (join (findall_d24 dob)))%nat ∧ x = take 8 (join (findall_d24 dob))) ∨
  (x ∈ findall_d24 dob ∧ (length x = 2%nat ∨ length x = 4%nat)).
Proof.
  unfold dob_tokens.
  rewrite (elem_of_foldl_set_add_if len_2_or_4 id). unfold len_2_or_4, set_add.
  case_bool_decide; setoid_rewrite bool_decide_eq_true; set_solver.
Qed.

Lemma elem_of_years_tokens_range years out g1 g2 x :
  match_year_range years = Some (g1, g2) →
  x ∈ years_tokens years out ↔
  x ∈ out ∨ ∃ y, (int_of_digits g1 ≤ y ≤ int_of_digits g2)%Z ∧ x = str_of_int y.
Proof.
  intros Hm. unfold years_tokens. rewrite Hm.
  rewrite elem_of_foldl_set_add. setoid_rewrite elem_of_seqZ.
  split; (intros [?|(y & ? & ?)]; [by left|right; exists y; split; [lia|done]]).
Qed.

(** The matches of [\d{2,4}] are runs of two to four digits. *)
Lemma findall_d24_go_shape cur s :
  (length cur < 4)%nat → Forall (λ c, chr_isdecimal c = true) cur →
  Forall (λ t, (2 ≤ length t ≤ 4)%nat ∧ Forall (λ c, chr_isdecimal c = true) t)
    (findall_d24_go cur s).
Proof.
  revert cur. induction s as [|c s IH]; intros cur Hlen Hcur; simpl.
  - case_bool_decide; [|done]. constructor; [|done].
    rewrite length_reverse. split; [lia|by apply Forall_reverse].
  - destruct (chr_isdecimal c) eqn:Hc.
    + case_bool_decide.
      * constructor; [|by apply IH; [simpl; lia|]].
        rewrite length_reverse. simpl. split; [lia|].
        apply Forall_reverse. by constructor.
      * apply IH; [simpl; lia|by constructor].
    + case_bool_decide; [constructor|]; try (apply IH; [simpl; lia|done]).
      rewrite length_reverse. split; [lia|]. by apply Forall_reverse.
Qed.

Lemma findall_d24_shape s :
  Forall (λ t, (2 ≤ length t ≤ 4)%nat ∧ Forall (λ c, chr_isdecimal c = true) t)
    (findall_d24 s).
Proof. apply findall_d24_go_shape; [simpl; lia|done]. Qed.

End year_properties.

Lemma lstrip_transfer (R : Python) s :
  is_ascii s → @lstrip R s = @lstrip cpython s.
Proof.
  induction 1 as [|c s Hc _ IH]; simpl; [done|].
  rewrite chr_isspace_ascii by done. by rewrite IH.
Qed.

Lemma lstrip_ascii (R : Python) s : is_ascii s → is_ascii (@lstrip R s).
Proof.
  induction 1 as [|c s Hc Hs IH]; simpl; [by constructor|].
  destruct (chr_isspace c); [exact IH|by constructor].
Qed.

Lemma strip_ascii (R : Python) s : is_ascii s → is_ascii (@strip R s).
Proof.
  intros Hs. unfold strip. by apply Forall_reverse, lstrip_ascii, Forall_reverse,
    lstrip_ascii.
Qed.

Lemma strip_transfer (R : Python) s :
  is_ascii s → @strip R s = @strip cpython s.
Proof.
  intros Hs. unfold strip. rewrite (lstrip_transfer R s) by done.
  by rewrite (lstrip_transfer R) by by apply Forall_reverse, lstrip_ascii.
Qed.

Lemma re_split_go_transfer (R : Python) in_sep cur s :
  is_ascii s → @re_split_go R in_sep cur s = @re_split_go cpython in_sep cur s.
Proof.
  intros Hs. revert in_sep cur.
  induction Hs as [|c s Hc _ IH]; intros in_sep cur; simpl; [done|].
  unfold is_sep. rewrite chr_isspace_ascii by done. simpl. by rewrite !IH.
Qed.

Lemma re_split_go_ascii (R : Python) in_sep cur s :
  is_ascii cur → is_ascii s → Forall is_ascii (@re_split_go R in_sep cur s).
Proof.
  intros Hcur Hs. revert in_sep cur Hcur.
  induction Hs as [|c s Hc _ IH]; intros in_sep cur Hcur; simpl.
  - constructor; [by apply Forall_reverse|done].
  - destruct (is_sep c), in_sep.
    + by apply IH.
    + constructor; [by apply Forall_reverse|]. apply IH. constructor.
    + apply IH. by constructor.
    + apply IH. by constructor.
Qed.

Lemma isdigit_transfer (R : Python) y :
  is_ascii y → @isdigit R y = @isdigit cpython y.
Proof.
  intros Hy. unfold isdigit. f_equal.
  induction Hy as [|c y Hc _ IH]; simpl; [done|].
  by rewrite chr_isdigit_ascii, IH.
Qed.

Lemma four_digits_transfer (R : Python) s :
  is_ascii s → @four_digits R s = @four_digits cpython s.
Proof.
  intros Hs. unfold four_digits.
  destruct Hs as [|a s1 ? [|b s2 ? [|c s3 ? [|d s4 ? _]]]]; try done.
  by rewrite !chr_isdecimal_ascii.
Qed.

Lemma four_digits_ascii s g rest :
  @four_digits cpython s = Some (g, rest) → is_ascii s →
  Forall (λ c, ascii_digit c = true) g ∧ is_ascii rest.
Proof.
  intros (-> & _ & Hg)%four_digits_Some [_ Hrest]%Forall_app. done.
Qed.

Lemma match_year_range_transfer (R : Python) years :
  is_ascii years → @match_year_range R years = @match_year_range cpython years.
Proof.
  intros Hy. unfold match_year_range.
  rewrite lstrip_transfer, four_digits_transfer by (done || by apply lstrip_ascii).
  destruct (@four_digits cpython _) as [[g1 s1]|] eqn:Hg1; [|done]. simpl.
  apply four_digits_ascii in Hg1 as [_ Hs1]; [|by apply lstrip_ascii].
  rewrite lstrip_transfer by done.
  pose proof (lstrip_ascii cpython s1 Hs1) as Hs2.
  destruct (@lstrip cpython s1) as [|c s2]; [done|].
  apply Forall_cons in Hs2 as [_ Hs2]. destruct (c =? 45); [|done].
  rewrite lstrip_transfer, four_digits_transfer by (done || by apply lstrip_ascii).
  destruct (@four_digits cpython _) as [[g2 s3]|] eqn:Hg2; [|done]. simpl.
  apply four_digits_ascii in Hg2 as [_ Hs3]; [|by apply lstrip_ascii].
  by rewrite lstrip_transfer.
Qed.

Lemma int_of_digits_transfer (R : Python) s :
  Forall (λ c, ascii_digit c = true) s →
  @int_of_digits R s = @int_of_digits cpython s.
Proof.
  intros Hs. unfold int_of_digits. apply foldl_ext_in. intros acc c Hc.
  eapply Forall_forall in Hs; [|done]. by rewrite chr_decimal_ascii.
Qed.

Lemma findall_d24_go_transfer (R : Python) cur s :
  is_ascii s → @findall_d24_go R cur s = @findall_d24_go cpython cur s.
Proof.
  intros Hs. revert cur. induction Hs as [|c s Hc _ IH]; intros cur; simpl; [done|].
  rewrite chr_isdecimal_ascii by done. simpl. by rewrite !IH.
Qed.

Lemma years_tokens_transfer (R : Python) years out :
  is_ascii years → @years_tokens R years out = @years_tokens cpython years out.
Proof.
  intros Hy. unfold years_tokens. rewrite match_year_range_transfer by done.
  destruct (@match_year_range cpython years) as [[g1 g2]|] eqn:Hm.
  - apply match_year_range_spec in Hm as (_ & _ & _ & _ & _ & _ & Hg).
    apply Forall_cons in Hg as [[_ Hg1] [[_ Hg2] _]%Forall_cons].
    by rewrite !(int_of_digits_transfer R).
  - rewrite strip_transfer by done. unfold re_split.
    rewrite re_split_go_transfer by by apply strip_ascii.
    apply foldl_ext_in. intros o y Hy'.
    rewrite isdigit_transfer; [done|].
    revert y Hy'. apply Forall_forall.
    apply re_split_go_ascii; [constructor|by apply strip_ascii].
Qed.

Lemma dob_tokens_transfer (R : Python) dob out :
  is_ascii dob → @dob_tokens R dob out = @dob_tokens cpython dob out.
Proof.
  intros Hd. unfold dob_tokens, findall_d24.
  by rewrite findall_d24_go_transfer.
Qed.

(** On ASCII input [parse_years] does not depend on the runtime. *)
Lemma parse_years_transfer (R : Python) (years dob : option str) :
  is_ascii (default [] years) → is_ascii (default [] dob) →
  @parse_years R years dob = @parse_years cpython years dob.
Proof.
  intros Hy Hd. unfold parse_years. rewrite sorted_transfer. do 2 f_equal.
  destruct (truthy years) as [y|] eqn:Hty, (truthy dob) as [d|] eqn:Htd;
    try apply truthy_Some in Hty as [-> _];
    try apply truthy_Some in Htd as [-> _];
    by rewrite ?years_tokens_transfer, ?dob_tokens_transfer.
Qed.

(** What the range branch adds, in terms of the two groups. *)
Lemma parse_years_matched `{Python} (years : str) (dob : option str) (g1 g2 : str) :
  match_year_range years = Some (g1, g2) →
  (∀ y, (int_of_digits g1 ≤ y ≤ int_of_digits g2)%Z →
        str_of_int y ∈ parse_years (Some years) dob) ∧
  (∀ x, x ∈ parse_years (Some years) None ↔
        ∃ y, (int_of_digits g1 ≤ y ≤ int_of_digits g2)%Z ∧ x = str_of_int y).
Proof.
  intros Hm. pose proof (match_year_range_truthy _ _ _ Hm) as Ht. split.
  - intros y Hy. apply elem_of_parse_years. rewrite Ht.
    assert (str_of_int y ∈ years_tokens years ∅) as Hin
      by (rewrite elem_of_years_tokens_range by done; eauto).
    destruct (truthy dob); [|done].
    apply elem_of_dob_tokens. by left.
  - intros x. rewrite elem_of_parse_years. change (truthy None) with (@None str).
    rewrite Ht. rewrite elem_of_years_tokens_range by done. set_solver.
Qed.

(** C6. A string that reads spaces, four digits START, spaces, a hyphen,
    spaces, four digits END, spaces matches the range pattern, and the
    decimal string of every integer from START to END is then in the
    result; with no date of birth those strings are the whole result.  For
    ["2018-2025"] the result is the eight years, on every runtime. *)
Theorem parse_years_range `{Python} (w1 g1 w2 w3 g2 w4 : str) (dob : option str) :
  Forall (λ w, Forall (λ c, chr_isspace c = true) w) [w1; w2; w3; w4] →
  Forall (λ g, length g = 4%nat ∧ Forall (λ c, chr_isdecimal c = true) g) [g1; g2] →
  let years := w1 ++ g1 ++ w2 ++ [45] ++ w3 ++ g2 ++ w4 in
  match_year_range years = Some (g1, g2) ∧
  (∀ y, (int_of_digits g1 ≤ y ≤ int_of_digits g2)%Z →
        str_of_int y ∈ parse_years (Some years) dob) ∧
  (∀ x, x ∈ parse_years (Some years) None ↔
        ∃ y, (int_of_digits g1 ≤ y ≤ int_of_digits g2)%Z ∧ x = str_of_int y) ∧
  parse_years (Some (cps "2018-2025")) None
  = [cps "2018"; cps "2019"; cps "2020"; cps "2021"; cps "2022"; cps "2023";
     cps "2024"; cps "2025"].
Proof.
  intros Hw Hg years.
  assert (match_year_range years = Some (g1, g2)) as Hm
    by (apply match_year_range_spec; by exists w1, w2, w3, w4).
  destruct (parse_years_matched years dob g1 g2 Hm) as [Hin Hall].
  split_and!; [done..|].
  rewrite parse_years_transfer by ascii_literal. by vm_compute.
Qed.

Lemma parse_years_range_witness :
  cps "1999" ∈ parse_years (Some (cps " 1998 - 2001 ")) (Some (cps "09-08-2002")).
Proof.
  destruct (parse_years_range (cps " ") (cps "1998") (cps " ") (cps " ")
              (cps "2001") (cps " ") (Some (cps "09-08-2002"))) as (_ & Hin & _).
  - apply (bool_decide_unpack _). vm_compute. reflexivity.
  - apply (bool_decide_unpack _). vm_compute. reflexivity.
  - apply (Hin 1999%Z). vm_compute. split; discriminate.
Defined.

(** C7. With a date of birth, the matches of [\d{2,4}] are runs of two to
    four digits; when their concatenation has eight characters or more its
    first eight are in the result, and so is every match of length 2 or 4.
    With no [years] that is the whole result.  For ["2002-08-09"] the
    result holds ["20020809"], ["2002"], ["08"] and ["09"], on every
    runtime. *)
Theorem parse_years_dob `{Python} (years : option str) (dob : str) :
  dob ≠ [] →
  let m := findall_d24 dob in
  Forall (λ t, (2 ≤ length t ≤ 4)%nat ∧ Forall (λ c, chr_isdecimal c = true) t) m ∧
  ((8 ≤ length (join m))%nat → take 8 (join m) ∈ parse_years years (Some dob)) ∧
  (∀ t, t ∈ m → length t = 2%nat ∨ length t = 4%nat →
        t ∈ parse_years years (Some dob)) ∧
  (∀ x, x ∈ parse_years None (Some dob) ↔
        ((8 ≤ length (join m))%nat ∧ x = take 8 (join m)) ∨
        (x ∈ m ∧ (length x = 2%nat ∨ length x = 4%nat))) ∧
  parse_years None (Some (cps "2002-08-09"))
  = [cps "08"; cps "09"; cps "2002"; cps "20020809"].
Proof.
  intros Hdob m.
  assert (truthy (Some dob) = Some dob) as Ht by (by destruct dob).
  split_and!.
  - apply findall_d24_shape.
  - intros Hlen. apply elem_of_parse_years. rewrite Ht.
    apply elem_of_dob_tokens. right. by left.
  - intros t Ht1 Ht2. apply elem_of_parse_years. rewrite Ht.
    apply elem_of_dob_tokens. right. by right.
  - intros x. rewrite elem_of_parse_years. change (truthy None) with (@None str).
    rewrite Ht. rewrite elem_of_dob_tokens. set_solver.
  - rewrite parse_years_transfer by ascii_literal. by vm_compute.
Qed.

Lemma parse_years_dob_witness :
  cps "09082002" ∈ parse_years (Some (cps "20,21")) (Some (cps "09-08-2002")).
Proof.
  destruct (parse_years_dob (Some (cps "20,21")) (cps "09-08-2002"))
    as (_ & Hcompound & _); [discriminate|].
  apply Hcompound. vm_compute. lia.
Defined.

(** ** Strength analysis *)

(** The float the law [math_log2_94] gives for [math.log2(94.0)] is the
    binary logarithm of 94 to within 8e-7: both lie strictly between
    8285/1264 and 6784/1035. *)
Lemma math_log2_94_bracket :
  (2 ^ 8285 < 94 ^ 1264)%Z ∧ (94 ^ 1035 < 2 ^ 6784)%Z ∧
  ∃ m e, Prim2SF 0x1.a37e623d2ba02p+2 = S754_finite false m e ∧
         (8285 * 2 ^ (- e) < 1264 * Z.pos m)%Z ∧
         (1035 * Z.pos m < 6784 * 2 ^ (- e))%Z.
Proof.
  split; [by vm_compute|]. split; [by vm_compute|].
  eexists _, _. split; [vm_compute; reflexivity|]. by vm_compute.
Qed.

(** On CPython the record of ["abcdefgh"] reports 52.44 bits. *)
Lemma entropy_bits_est_abcdefgh :
  ∃ d, analyze_password None (cps "abcdefgh") None = Some d ∧
       dict_lookup d (cps "entropy_bits_est") = Some (VFloat 52.44).
Proof. eexists. split; [reflexivity|]. by vm_compute. Qed.

(** C8. Without the external engine [analyze_password] returns, for every
    password and every list of hints, a record whose engine is
    ["entropy_fallback"] and whose feedback holds the fixed, non-empty
    warning that recommends installing zxcvbn. *)
Theorem analyze_password_fallback `{Python} (password : str)
    (user_inputs : option (list str)) :
  ∃ d fb w,
    analyze_password None password user_inputs = Some d ∧
    dict_lookup d (cps "engine") = Some (VStr (cps "entropy_fallback")) ∧
    dict_lookup d (cps "feedback") = Some (VDict fb) ∧
    dict_lookup fb (cps "warning") = Some (VStr w) ∧
    w ≠ [] ∧
    w = cps "Using fallback estimator. Install 'zxcvbn' for richer results.".
Proof.
  eexists _, _, _. unfold analyze_password.
  split; [reflexivity|]. split; [reflexivity|]. split; [reflexivity|].
  split; [reflexivity|]. split; [discriminate|reflexivity].
Qed.

(** C9. The entropy of the empty password is [0.0]; of any other it is
    its length times [math.log2(94.0)]; the thresholds 28, 36, 60 and 80
    give the scores 0 to 4; and ["abcdefgh"] has about 52.44 bits, which
    is score 2. *)
Theorem entropy_fallback_score `{Python} :
  entropy_estimate [] = 0%float ∧
  (∀ password, password ≠ [] →
     entropy_estimate password
     = (PrimFloat.of_uint63 (Uint63.of_Z (Z.of_nat (length password)))
        * math_log2 94)%float) ∧
  (∀ ent,
     fallback_score ent =
       if (ent <? 28)%float then 0%Z
       else if (ent <? 36)%float then 1%Z
       else if (ent <? 60)%float then 2%Z
       else if (ent <? 80)%float then 3%Z
       else 4%Z) ∧
  entropy_estimate (cps "abcdefgh") = (8 * 0x1.a37e623d2ba02p+2)%float ∧
  (52.435 <? entropy_estimate (cps "abcdefgh"))%float = true ∧
  (entropy_estimate (cps "abcdefgh") <? 52.445)%float = true ∧
  fallback_score (entropy_estimate (cps "abcdefgh")) = 2%Z ∧
  ∃ d, analyze_password None (cps "abcdefgh") None = Some d ∧
       dict_lookup d (cps "score") = Some (VInt 2).
Proof.
  assert (entropy_estimate (cps "abcdefgh") = (8 * 0x1.a37e623d2ba02p+2)%float)
    as Hent.
  { unfold entropy_estimate. rewrite bool_decide_eq_false_2 by discriminate.
    cbv zeta. rewrite math_log2_94. by vm_compute. }
  split_and!; try done.
  - intros password Hne. unfold entropy_estimate, float_of_len.
    by rewrite bool_decide_eq_false_2.
  - rewrite Hent. by vm_compute.
  - rewrite Hent. by vm_compute.
  - rewrite Hent. by vm_compute.
  - eexists. unfold analyze_password. split; [reflexivity|].
    cbn [dict_lookup]. rewrite Hent.
    by vm_compute.
Qed.

Lemma entropy_fallback_score_witness :
  entropy_estimate (cps "correct horse") = (13 * math_log2 94)%float ∧
  entropy_estimate (cps "horse") = (5 * math_log2 94)%float.
Proof.
  destruct (@entropy_fallback_score cpython) as (_ & Hlen & _).
  split.
  - rewrite (Hlen (cps "correct horse")); [reflexivity|discriminate].
  - rewrite (Hlen (cps "horse")); [reflexivity|discriminate].
Defined.

(** * Part III: further properties *)

(** ** Tokens *)

Section token_properties.
Context `{Python}.

Lemma re_split_go_clean in_sep cur s :
  Forall (λ c, is_sep c = false) cur →
  Forall (λ t, Forall (λ c, is_sep c = false) t) (re_split_go in_sep cur s).
Proof.
  revert in_sep cur. induction s as [|c s IH]; intros in_sep cur Hcur; simpl.
  - constructor; [by apply Forall_reverse|constructor].
  - destruct (is_sep c) eqn:Hc.
    + destruct in_sep; [by apply IH|].
      constructor; [by apply Forall_reverse|]. apply IH. constructor.
    + apply IH. by constructor.
Qed.

Lemma elem_of_tokenize_keywords raw x :
  x ∈ tokenize_keywords (Some raw) ↔ raw ≠ [] ∧ x ≠ [] ∧ x ∈ re_split (strip raw).
Proof.
  unfold tokenize_keywords. destruct raw as [|c raw]; simpl.
  - split; [by intros ?%elem_of_nil|naive_solver].
  - rewrite list_elem_of_filter. naive_solver.
Qed.

Lemma lstrip_not_space c s : chr_isspace c = false → lstrip (c :: s) = c :: s.
Proof. intros Hc. simpl. by rewrite Hc. Qed.

Lemma is_sep_false_not_space c : is_sep c = false → chr_isspace c = false.
Proof. unfold is_sep. by intros [_ ?]%orb_false_iff. Qed.

Lemma re_split_go_token in_sep cur t s :
  Forall (λ c, is_sep c = false) t → t ≠ [] →
  re_split_go in_sep cur (t ++ s) = re_split_go false (reverse t ++ cur) s.
Proof.
  intros Ht. revert in_sep cur. induction Ht as [|c t Hc Ht IH]; intros in_sep cur Hne; [done|].
  simpl. rewrite Hc, reverse_cons, <-app_assoc. simpl.
  destruct t as [|c' t']; [done|]. by apply IH.
Qed.

Lemma re_split_go_skip cur sep s :
  Forall (λ c, is_sep c = true) sep →
  re_split_go true cur (sep ++ s) = re_split_go true cur s.
Proof. induction 1 as [|c sep Hc _ IH]; simpl; [done|]. by rewrite Hc. Qed.

Lemma re_split_go_join in_sep sep tokens :
  sep ≠ [] → Forall (λ c, is_sep c = true) sep →
  Forall clean_token tokens → tokens ≠ [] →
  re_split_go in_sep [] (join_with sep tokens) = tokens.
Proof.
  intros Hsep Hseps Htok. revert in_sep.
  induction Htok as [|t tokens [Hne Ht] Htok IH]; intros in_sep Hnil; [done|].
  simpl. destruct tokens as [|t2 tokens].
  - rewrite <-(app_nil_r t), re_split_go_token, app_nil_r by done. simpl.
    by rewrite reverse_involutive, app_nil_r.
  - rewrite re_split_go_token, app_nil_r by done.
    destruct sep as [|c sep]; [done|]. apply Forall_cons in Hseps as [Hc Hseps].
    cbn [app re_split_go]. rewrite Hc, reverse_involutive. f_equal.
    rewrite re_split_go_skip by done. by apply IH.
Qed.

Lemma join_with_ends sep tokens :
  Forall clean_token tokens → tokens ≠ [] →
  (∃ c s, join_with sep tokens = c :: s ∧ chr_isspace c = false) ∧
  (∃ s c, join_with sep tokens = s ++ [c] ∧ chr_isspace c = false).
Proof.
  intros Htok Hnil. split.
  - destruct Htok as [|t tokens [Hne Ht] _]; [done|].
    destruct t as [|c t]; [done|]. apply Forall_cons in Ht as [Hc%is_sep_false_not_space _].
    simpl. destruct tokens; eauto.
  - induction Htok as [|t tokens [Hne Ht] Htok IH]; [done|]. simpl.
    destruct tokens as [|t2 tokens].
    + destruct (exists_last Hne) as (s & c & ->).
      apply Forall_app in Ht as [_ [Hc%is_sep_false_not_space _]%Forall_cons]. eauto.
    + destruct IH as (s & c & -> & Hc); [done|].
      exists (t ++ sep ++ s), c. by rewrite <-!app_assoc.
Qed.

Lemma strip_join_with sep tokens :
  Forall clean_token tokens → tokens ≠ [] →
  strip (join_with sep tokens) = join_with sep tokens.
Proof.
  intros Htok Hnil.
  destruct (join_with_ends sep tokens Htok Hnil) as [(c & s & Hs & Hc) (s' & c' & Hs' & Hc')].
  unfold strip. rewrite Hs, lstrip_not_space, <-Hs, Hs' by done.
  rewrite reverse_snoc, lstrip_not_space, <-reverse_snoc by done.
  by rewrite reverse_involutive.
Qed.

Lemma tokenize_keywords_Forall_clean raw :
  Forall clean_token (tokenize_keywords raw).
Proof.
  unfold tokenize_keywords. destruct (truthy raw) as [s|]; [|constructor].
  apply Forall_forall. intros x Hx.
  apply list_elem_of_filter in Hx as [Hx Hin]. split; [done|].
  assert (Forall (λ t, Forall (λ c, is_sep c = false) t) (re_split (strip s)))
    as Hall by (apply re_split_go_clean; constructor).
  by apply (proj1 (Forall_forall _ _) Hall).
Qed.

Lemma lstrip_all_sep t :
  Forall (λ c, is_sep c = true) t → Forall (λ c, is_sep c = true) (lstrip t).
Proof.
  induction 1 as [|c t Hc Ht IH]; simpl; [constructor|].
  destruct (chr_isspace c); [done|by constructor].
Qed.

Lemma re_split_go_all_sep in_sep t y :
  Forall (λ c, is_sep c = true) t → y ∈ re_split_go in_sep [] t → y = [].
Proof.
  intros Ht. revert in_sep.
  induction Ht as [|c t Hc _ IH]; intros in_sep; simpl.
  - by intros ->%list_elem_of_singleton.
  - rewrite Hc. destruct in_sep; [apply IH|].
    intros [->|?]%elem_of_cons; [done|by eapply IH].
Qed.

Lemma filter_clean_tokens tokens :
  Forall clean_token tokens → filter (λ p : str, p ≠ []) tokens = tokens.
Proof.
  induction 1 as [|t tokens [Hne _] _ IH]; [done|].
  rewrite filter_cons_True by done. by f_equal.
Qed.

End token_properties.

(** X1. Whatever the input, [tokenize_keywords] returns tokens that are not
    empty and hold neither a comma nor a space; absent, empty and blank
    input give no token. *)
Theorem tokenize_keywords_clean `{Python} (raw : option str) :
  Forall clean_token (tokenize_keywords raw) ∧
  tokenize_keywords None = [] ∧
  tokenize_keywords (Some []) = [] ∧
  (∀ s, Forall (λ c, is_sep c = true) s → tokenize_keywords (Some s) = []).
Proof.
  split_and!; [apply tokenize_keywords_Forall_clean|done|done|].
  intros s Hs. apply elem_of_nil_inv. intros x Hx.
  apply elem_of_tokenize_keywords in Hx as (_ & Hne & Hx).
  destruct Hne. apply (re_split_go_all_sep false (strip s)); [|done].
  unfold strip. by apply Forall_reverse, lstrip_all_sep, Forall_reverse, lstrip_all_sep.
Qed.

(** X2. Joining clean tokens with any non-empty run of commas and spaces
    and tokenising the result gives the tokens back. *)
Theorem tokenize_keywords_join `{Python} (sep : str) (tokens : list str) :
  sep ≠ [] → Forall (λ c, is_sep c = true) sep → Forall clean_token tokens →
  tokenize_keywords (Some (join_with sep tokens)) = tokens.
Proof.
  intros Hsep Hseps Htok. destruct tokens as [|t tokens]; [done|].
  unfold tokenize_keywords.
  destruct (join_with_ends sep (t :: tokens) Htok) as [(c & s & Hs & _) _]; [done|].
  replace (truthy (Some (join_with sep (t :: tokens))))
    with (Some (join_with sep (t :: tokens))) by (by rewrite Hs).
  rewrite strip_join_with by done. unfold re_split.
  rewrite re_split_go_join by done.
  by apply filter_clean_tokens.
Qed.

(** ** Year tokens *)

(** X3. The result of [parse_years] is sorted by code points and has no
    duplicates, whatever the two arguments. *)
Theorem parse_years_sorted `{Python} (years dob : option str) :
  StronglySorted str_le (parse_years years dob) ∧ NoDup (parse_years years dob).
Proof.
  unfold parse_years, sorted. split.
  - apply (StronglySorted_merge_sort str_le).
  - rewrite merge_sort_Permutation. apply NoDup_set_iter.
Qed.

(** X4. The two sources add up: a token is in [parse_years(years, dob)]
    exactly when it is in [parse_years(years, None)] or in
    [parse_years(None, dob)]. *)
Theorem parse_years_union `{Python} (years dob : option str) (x : str) :
  x ∈ parse_years years dob ↔
  x ∈ parse_years years None ∨ x ∈ parse_years None dob.
Proof.
  rewrite !elem_of_parse_years. change (truthy None) with (@None str).
  destruct (truthy dob) as [d|]; [|set_solver].
  rewrite !elem_of_dob_tokens. set_solver.
Qed.

(** X5. When [years] is not a range, it is tokenised like the keywords and
    the tokens kept are those made of digits only and 2 or 4 characters
    long. *)
Theorem parse_years_list `{Python} (years : str) (x : str) :
  match_year_range years = None →
  x ∈ parse_years (Some years) None ↔
  x ∈ tokenize_keywords (Some years) ∧ isdigit x = true ∧
  (length x = 2%nat ∨ length x = 4%nat).
Proof.
  intros Hm. rewrite elem_of_parse_years, elem_of_tokenize_keywords.
  change (truthy None) with (@None str).
  destruct years as [|c years]; [set_solver|]. cbn [truthy].
  unfold years_tokens. rewrite Hm.
  rewrite (elem_of_foldl_set_add_if (λ y, isdigit y && len_2_or_4 y) id).
  unfold len_2_or_4. split.
  - intros [?%not_elem_of_empty|(y & Hy & [Hd Hl%bool_decide_eq_true]%andb_true_iff & ->)];
      [done|]. simpl. split_and!; try done.
    intros ->. destruct Hl; done.
  - intros ((_ & Hne & Hin) & Hd & Hl). right. exists x. split_and!; try done.
    rewrite Hd. simpl. by apply bool_decide_eq_true.
Qed.

(** X6. A range whose START is greater than its END gives no token: the
    string is not parsed again as a list. *)
Theorem parse_years_reversed_range `{Python} (years g1 g2 : str) :
  match_year_range years = Some (g1, g2) →
  (int_of_digits g2 < int_of_digits g1)%Z →
  parse_years (Some years) None = [].
Proof.
  intros Hm Hlt. apply elem_of_nil_inv. intros x Hx.
  pose proof (match_year_range_truthy _ _ _ Hm) as Ht.
  apply elem_of_parse_years in Hx. change (truthy None) with (@None str) in Hx.
  rewrite Ht in Hx. apply (elem_of_years_tokens_range _ _ _ _ _ Hm) in Hx
    as [?%not_elem_of_empty|(y & ? & _)]; [done|lia].
Qed.

Lemma forallb_seq_lt (f : nat → bool) (k n : nat) :
  forallb f (seq 0 k) = true → (n < k)%nat → f n = true.
Proof.
  intros Hall Hn. rewrite forallb_forall in Hall. apply Hall, in_seq. lia.
Qed.

(** [str(y)] for a number of at most four digits: no padding. *)
Lemma str_of_int_width (y : Z) :
  (0 ≤ y ≤ 9999)%Z →
  length (str_of_int y)
  = (if (y <? 10)%Z then 1 else if (y <? 100)%Z then 2
     else if (y <? 1000)%Z then 3 else 4)%nat ∧
  Forall (λ c, ascii_digit c = true) (str_of_int y).
Proof.
  intros Hy.
  assert (forallb
    (λ n, let y := Z.of_nat n in
          bool_decide (length (str_of_int y)
            = (if (y <? 10)%Z then 1 else if (y <? 100)%Z then 2
               else if (y <? 1000)%Z then 3 else 4)%nat)
          && forallb ascii_digit (str_of_int y))
    (seq 0 (Z.to_nat 10000)) = true) as Hall by (vm_compute; reflexivity).
  assert (Z.to_nat y < Z.to_nat 10000)%nat as Hlt by lia.
  pose proof (forallb_seq_lt _ _ _ Hall Hlt) as Hcheck.
  cbv beta zeta in Hcheck. rewrite Z2Nat.id in Hcheck by lia.
  apply andb_true_iff in Hcheck as [Hlen%bool_decide_eq_true Hdig].
  split; [done|]. apply Forall_forall. intros c Hc.
  rewrite forallb_forall in Hdig. by apply Hdig, list_elem_of_In.
Qed.

Lemma int_of_digits_bound `{Python} (g : str) :
  length g = 4%nat → Forall (λ c, ascii_digit c = true) g →
  (0 ≤ int_of_digits g ≤ 9999)%Z.
Proof.
  intros Hlen Hg. destruct g as [|a [|b [|c [|d [|]]]]]; try done.
  apply Forall_cons in Hg as [Ha [Hb [Hc [Hd _]%Forall_cons]%Forall_cons]%Forall_cons].
  unfold int_of_digits. simpl. rewrite !chr_decimal_ascii by done.
  unfold ascii_digit in *.
  apply andb_true_iff in Ha as [?%N.leb_le ?%N.leb_le].
  apply andb_true_iff in Hb as [?%N.leb_le ?%N.leb_le].
  apply andb_true_iff in Hc as [?%N.leb_le ?%N.leb_le].
  apply andb_true_iff in Hd as [?%N.leb_le ?%N.leb_le]. lia.
Qed.

(** X7. The tokens of an ASCII range are the plain decimal strings of the
    numbers: one to four ASCII digits, not padded with zeros.  They all
    have four digits when START is at least 1000; a range that starts
    below 1000 gives shorter tokens. *)
Theorem parse_years_range_width `{Python} (years g1 g2 : str) :
  is_ascii years → match_year_range years = Some (g1, g2) →
  (∀ x, x ∈ parse_years (Some years) None →
     (1 ≤ length x ≤ 4)%nat ∧ Forall (λ c, ascii_digit c = true) x ∧
     ((1000 ≤ int_of_digits g1)%Z → length x = 4%nat)) ∧
  ((int_of_digits g1 < 1000)%Z → (int_of_digits g1 ≤ int_of_digits g2)%Z →
   ∃ x, x ∈ parse_years (Some years) None ∧ (length x < 4)%nat).
Proof.
  intros Hascii Hm.
  destruct (parse_years_matched years None g1 g2 Hm) as [Hin Hall].
  pose proof Hm as (w1 & w2 & w3 & w4 & -> & _ & Hg)%match_year_range_spec.
  apply Forall_cons in Hg as [[Hl1 Hg1] [[Hl2 Hg2] _]%Forall_cons].
  assert (Forall (λ c, ascii_digit c = true) g1 ∧ Forall (λ c, ascii_digit c = true) g2)
    as [Hd1 Hd2].
  { unfold is_ascii in Hascii. rewrite !Forall_app in Hascii.
    destruct Hascii as (_ & Ha1 & _ & _ & _ & Ha2 & _).
    split; apply Forall_forall; intros c Hc.
    - rewrite <-chr_isdecimal_ascii by (by eapply Forall_forall in Ha1).
      by eapply Forall_forall in Hg1.
    - rewrite <-chr_isdecimal_ascii by (by eapply Forall_forall in Ha2).
      by eapply Forall_forall in Hg2. }
  pose proof (int_of_digits_bound g1 Hl1 Hd1) as Hb1.
  pose proof (int_of_digits_bound g2 Hl2 Hd2) as Hb2.
  split.
  - intros x (y & Hy & ->)%Hall.
    destruct (str_of_int_width y) as [Hlen Hdig]; [lia|]. rewrite Hlen.
    split_and!; [| |done|].
    + repeat case_match; lia.
    + repeat case_match; lia.
    + intros Hge. repeat case_match; try lia; done.
  - intros Hlt Hle. exists (str_of_int (int_of_digits g1)). split.
    + apply Hin. lia.
    + destruct (str_of_int_width (int_of_digits g1)) as [Hlen _]; [lia|].
      rewrite Hlen. repeat case_match; lia.
Qed.

(** ** Case variants *)

Ltac ascii_cases :=
  repeat case_match; try done;
  repeat match goal with
  | H : _ && _ = true |- _ => apply andb_true_iff in H as [?%N.leb_le ?%N.leb_le]
  | H : _ && _ = false |- _ => apply andb_false_iff in H as [?%N.leb_gt|?%N.leb_gt]
  end; lia.

Lemma ascii_lower_lower c : ascii_lower (ascii_lower c) = ascii_lower c.
Proof. unfold ascii_lower. ascii_cases. Qed.

Lemma ascii_lower_upper c : ascii_lower (ascii_upper c) = ascii_lower c.
Proof. unfold ascii_lower, ascii_upper. ascii_cases. Qed.

Lemma ascii_lower_not_alpha c : ascii_alpha c = false → ascii_lower c = c.
Proof.
  unfold ascii_alpha, ascii_lower. intros [Hc _]%orb_false_iff. by rewrite Hc.
Qed.

Lemma ascii_upper_not_alpha c : ascii_alpha c = false → ascii_upper c = c.
Proof.
  unfold ascii_alpha, ascii_upper. intros [_ Hc]%orb_false_iff. by rewrite Hc.
Qed.

Lemma same_letters_lower s : same_letters (ascii_lower <$> s) s.
Proof.
  unfold same_letters. rewrite <-list_fmap_compose. apply list_fmap_ext.
  intros _ c _. apply ascii_lower_lower.
Qed.

Lemma same_letters_upper s : same_letters (ascii_upper <$> s) s.
Proof.
  unfold same_letters. rewrite <-list_fmap_compose. apply list_fmap_ext.
  intros _ c _. apply ascii_lower_upper.
Qed.

Lemma same_letters_title prev s : same_letters (ascii_title_go prev s) s.
Proof.
  unfold same_letters. revert prev. induction s as [|c s IH]; intros prev; [done|].
  simpl. rewrite IH. f_equal.
  destruct prev; [apply ascii_lower_lower|apply ascii_lower_upper].
Qed.

Lemma same_letters_capitalize s : same_letters (ascii_capitalize s) s.
Proof.
  destruct s as [|c s]; [done|]. unfold same_letters. simpl.
  rewrite ascii_lower_upper. f_equal. apply same_letters_lower.
Qed.

Lemma ascii_title_go_not_alpha prev s :
  Forall (λ c, ascii_alpha c = false) s → ascii_title_go prev s = s.
Proof.
  intros Hs. revert prev. induction Hs as [|c s Hc _ IH]; intros prev; [done|].
  simpl. rewrite IH. f_equal.
  destruct prev; [by apply ascii_lower_not_alpha|by apply ascii_upper_not_alpha].
Qed.

Lemma elem_of_case_variants `{Python} word v :
  v ∈ case_variants word ↔
  v = word ∨ v = str_lower word ∨ v = str_upper word ∨
  v = str_capitalize word ∨ v = str_title word.
Proof. unfold case_variants, set_add. set_solver. Qed.

Lemma case_variants_same_letters_of `{Python} word v :
  is_ascii word → v ∈ case_variants word → same_letters v word.
Proof.
  intros Hw. rewrite elem_of_case_variants.
  rewrite str_lower_ascii, str_upper_ascii, str_capitalize_ascii, str_title_ascii
    by done.
  intros [->| [->| [->| [->| ->]]]].
  - done.
  - apply same_letters_lower.
  - apply same_letters_upper.
  - apply same_letters_capitalize.
  - apply same_letters_title.
Qed.

Lemma same_letters_length a b : same_letters a b → length a = length b.
Proof.
  unfold same_letters. intros Hab.
  by rewrite <-(length_fmap ascii_lower a), Hab, length_fmap.
Qed.

(** X8. The case variants of an ASCII word are the word and at most four
    more strings, each of which differs from the word only in the case of
    its letters; a word without letters, such as a number, is its only
    variant. *)
Theorem case_variants_same_letters `{Python} (word : str) :
  is_ascii word →
  word ∈ case_variants word ∧
  (size (case_variants word) ≤ 5)%nat ∧
  (∀ v, v ∈ case_variants word → same_letters v word ∧ length v = length word) ∧
  (Forall (λ c, ascii_alpha c = false) word → case_variants word = {[ word ]}).
Proof.
  intros Hw. split_and!.
  - apply elem_of_case_variants. by left.
  - unfold case_variants.
    repeat (etrans; [apply size_set_add|]; apply le_n_S).
    by rewrite size_singleton.
  - intros v Hv. pose proof (case_variants_same_letters_of word v Hw Hv) as Hs.
    split; [done|by apply same_letters_length].
  - intros Hna. unfold case_variants, set_add.
    rewrite str_lower_ascii, str_upper_ascii, str_capitalize_ascii, str_title_ascii
      by done.
    assert (ascii_lower <$> word = word) as ->.
    { clear Hw. induction Hna as [|c s Hc _ IH]; [done|]. csimpl.
      by rewrite IH, ascii_lower_not_alpha. }
    assert (ascii_upper <$> word = word) as Hup.
    { clear Hw. induction Hna as [|c s Hc _ IH]; [done|]. csimpl.
      by rewrite IH, ascii_upper_not_alpha. }
    rewrite Hup.
    assert (ascii_capitalize word = word) as ->.
    { destruct Hna as [|c s Hc Hs]; [done|]. simpl.
      rewrite ascii_upper_not_alpha by done. f_equal.
      clear Hw Hc Hup. induction Hs as [|c' s Hc' _ IH]; [done|]. csimpl.
      by rewrite IH, ascii_lower_not_alpha. }
    unfold ascii_title. rewrite ascii_title_go_not_alpha by done. set_solver.
Qed.

(** ** Base candidates *)

Lemma elem_of_foldl_gen {A} (f : gset str → A → gset str) (P : A → str → Prop)
    (l : list A) (out : gset str) (x : str) :
  (∀ out a x, a ∈ l → x ∈ f out a ↔ x ∈ out ∨ P a x) →
  x ∈ foldl f out l ↔ x ∈ out ∨ ∃ a, a ∈ l ∧ P a x.
Proof.
  revert out. induction l as [|a l IH]; intros out Hf; simpl.
  - split; [by left|]. intros [?|(a & Ha%elem_of_nil & _)]; done.
  - rewrite IH by (intros ? ? ? ?; apply Hf; by right).
    rewrite Hf by left. split.
    + intros [[?|?]|(a' & ? & ?)]; [by left|right..].
      * exists a. split; [left|done].
      * exists a'. split; [by right|done].
    + intros [?|(a' & [->|?]%elem_of_cons & ?)].
      * by left; left.
      * by left; right.
      * right. by exists a'.
Qed.

Lemma elem_of_range i lo hi : i ∈ range lo hi ↔ (lo ≤ i < hi)%nat.
Proof. unfold range. rewrite elem_of_seq. lia. Qed.

Section base_properties.
Context `{Python}.

Lemma elem_of_build_bases keywords dob separators x :
  let kws := filter (λ k, k ≠ []) keywords in
  x ∈ build_bases keywords dob separators ↔
  (∃ w, w ∈ keywords ∧ w ≠ [] ∧ x ∈ case_variants w) ∨
  (∃ sep i j a b, sep ∈ separators ∧ i ≠ j ∧
     kws !! i = Some a ∧ kws !! j = Some b ∧ x = a ++ sep ++ b) ∨
  (∃ d, dob = Some d ∧ x ∈ findall_digits d).
Proof.
  intros kws. unfold build_bases. fold kws.
  set (bases1 := foldl (λ bases w, foldl (λ bases v, set_add v bases) bases
                          (set_iter (case_variants w))) ∅ kws).
  set (bases2 := foldl _ bases1 separators).
  assert (∀ x, x ∈ bases1 ↔ ∃ w, w ∈ keywords ∧ w ≠ [] ∧ x ∈ case_variants w) as H1.
  { intros y. unfold bases1.
    rewrite (elem_of_foldl_gen _ (λ w y, y ∈ case_variants w)).
    - rewrite elem_of_empty. split.
      + intros [[]|(w & [? ?]%list_elem_of_filter & ?)]. by exists w.
      + intros (w & ? & ? & ?). right. exists w.
        split; [by apply list_elem_of_filter|done].
    - intros out w z _.
      rewrite (elem_of_foldl_set_add (λ v, v)). setoid_rewrite elem_of_set_iter.
      split; [intros [?|(v & ? & ->)]; [by left|by right]|].
      intros [?|?]; [by left|right; by exists z]. }
  assert (∀ x, x ∈ bases2 ↔ x ∈ bases1 ∨
            ∃ sep i j a b, sep ∈ separators ∧ i ≠ j ∧
              kws !! i = Some a ∧ kws !! j = Some b ∧ x = a ++ sep ++ b) as H2.
  { intros y. unfold bases2.
    rewrite (elem_of_foldl_gen _ (λ sep y, ∃ i j a b, i ≠ j ∧
               kws !! i = Some a ∧ kws !! j = Some b ∧ y = a ++ sep ++ b)).
    - split; (intros [?|?]; [by left|right]); naive_solver.
    - intros out sep z _.
      rewrite (elem_of_foldl_gen _ (λ i z, ∃ j, (i < j < length kws)%nat ∧
                 (z = kw kws i ++ sep ++ kw kws j ∨ z = kw kws j ++ sep ++ kw kws i))).
      + split; (intros [?|Hz]; [by left|right]).
        * destruct Hz as (i & Hi%elem_of_range & j & Hj & Hz).
          destruct (lookup_lt_is_Some_2 kws i) as [a Ha]; [lia|].
          destruct (lookup_lt_is_Some_2 kws j) as [b Hb]; [lia|].
          unfold kw in Hz. rewrite Ha, Hb in Hz. simpl in Hz.
          destruct Hz as [->| ->].
          -- exists i, j, a, b. split_and!; [lia|done..].
          -- exists j, i, b, a. split_and!; [lia|done..].
        * destruct Hz as (i & j & a & b & Hij & Ha & Hb & ->).
          pose proof (lookup_lt_Some _ _ _ Ha). pose proof (lookup_lt_Some _ _ _ Hb).
          destruct (decide (i < j)%nat).
          -- exists i. split; [apply elem_of_range; lia|].
             exists j. split; [lia|]. left. unfold kw. by rewrite Ha, Hb.
          -- exists j. split; [apply elem_of_range; lia|].
             exists i. split; [lia|]. right. unfold kw. by rewrite Ha, Hb.
      + intros out' i z' _.
        rewrite (elem_of_foldl_gen _ (λ j z,
                   z = kw kws i ++ sep ++ kw kws j ∨ z = kw kws j ++ sep ++ kw kws i)).
        * setoid_rewrite elem_of_range. split; (intros [?|Hz]; [by left|right]).
          -- destruct Hz as (j & ? & ?). exists j. split; [lia|done].
          -- destruct Hz as (j & ? & ?). exists j. split; [lia|done].
        * intros out'' j z'' _. unfold set_add. set_solver. }
  destruct dob as [[|c d]|]; simpl.
  - rewrite H2, H1. split; [intros [?|?]; [by left|by right; left]|].
    intros [?|[?|(d & [= <-] & []%elem_of_nil)]]; [by left|by right].
  - rewrite (elem_of_foldl_set_add (λ t, t)), H2, H1. split.
    + intros [[?|?]|(t & ? & ->)]; [by left|by right; left|].
      right; right. by exists (c :: d).
    + intros [?|[?|(d' & [= <-] & ?)]]; [by left; left|by left; right|].
      right. by exists x.
  - rewrite H2, H1. split; [intros [?|?]; [by left|by right; left]|].
    intros [?|[?|(d & [=] & _)]]; [by left|by right].
Qed.

End base_properties.

Section digit_runs.
Context `{Python}.

Lemma findall_digits_go_spec cur s :
  Forall (λ c, chr_isdecimal c = true) cur →
  Forall (λ t, t ≠ [] ∧ Forall (λ c, chr_isdecimal c = true) t)
    (findall_digits_go cur s) ∧
  join (findall_digits_go cur s)
  = reverse cur ++ filter (λ c, chr_isdecimal c = true) s.
Proof.
  revert cur. induction s as [|c s IH]; intros cur Hcur; simpl.
  - case_bool_decide as Hc; simpl.
    + subst. by split.
    + split; [|by rewrite filter_nil, !app_nil_r].
      constructor; [|done]. split.
      * intros Hr. apply Hc. by rewrite <-(reverse_involutive cur), Hr.
      * by apply Forall_reverse.
  - destruct (chr_isdecimal c) eqn:Hd.
    + destruct (IH (c :: cur)) as [IH1 IH2]; [by constructor|].
      split; [done|]. rewrite IH2, reverse_cons, <-app_assoc.
      by rewrite filter_cons_True.
    + rewrite filter_cons_False by (by rewrite Hd).
      destruct (IH []) as [IH1 IH2]; [done|].
      case_bool_decide as Hc; simpl.
      * subst. by split.
      * split; [|unfold join in *; simpl; by rewrite IH2].
        constructor; [|done]. split.
        -- intros Hr. apply Hc. by rewrite <-(reverse_involutive cur), Hr.
        -- by apply Forall_reverse.
Qed.

Lemma elem_of_findall_digits t d :
  t ∈ findall_digits d → t ≠ [] ∧ Forall (λ c, chr_isdecimal c = true) t.
Proof.
  intros Ht. destruct (findall_digits_go_spec [] d) as [Hall _]; [done|].
  by eapply Forall_forall in Hall.
Qed.

End digit_runs.

(** X9. The base candidates are exactly: the case variants of the
    non-empty keywords; for every separator, the joins of two non-empty
    keywords at different positions of the list, in both orders; and the
    maximal runs of digits of the date of birth. *)
Theorem build_bases_spec `{Python} (keywords : list str) (dob : option str)
    (separators : list str) (x : str) :
  x ∈ build_bases keywords dob separators ↔
  (∃ w, w ∈ keywords ∧ w ≠ [] ∧ x ∈ case_variants w) ∨
  (∃ sep i j a b, sep ∈ separators ∧ i ≠ j ∧
     filter (λ k, k ≠ []) keywords !! i = Some a ∧
     filter (λ k, k ≠ []) keywords !! j = Some b ∧ x = a ++ sep ++ b) ∨
  (∃ d, dob = Some d ∧ x ∈ findall_digits d).
Proof. apply elem_of_build_bases. Qed.

Lemma build_bases_perm `{Python} (keywords keywords' : list str)
    (dob : option str) (separators separators' : list str) :
  keywords ≡ₚ keywords' → separators ≡ₚ separators' →
  build_bases keywords dob separators = build_bases keywords' dob separators'.
Proof.
  assert (∀ k k' s s' x, k ≡ₚ k' → s ≡ₚ s' →
            x ∈ build_bases k dob s → x ∈ build_bases k' dob s') as Hsub.
  { intros k k' s s' x Hk Hs. rewrite !elem_of_build_bases.
    assert (filter (λ w : str, w ≠ []) k ≡ₚ filter (λ w : str, w ≠ []) k') as Hf
      by (by rewrite Hk).
    apply Permutation_inj in Hf as (_ & f & Hinj & Hf).
    intros [(w & Hw & ? & ?)|[(sep & i & j & a & b & Hsep & Hij & Ha & Hb & ->)|?]].
    - left. exists w. by rewrite <-Hk.
    - right; left. exists sep, (f i), (f j), a, b.
      rewrite <-Hs, <-!Hf. split_and!; [done| |done..].
      intros Heq. by apply Hij, Hinj.
    - by right; right. }
  intros Hk Hs. apply set_eq. intros x. split; by apply Hsub.
Qed.


(** X10. The bases do not depend on the order of the keywords or of the
    separators. *)
Theorem build_bases_permutation `{Python} (keywords keywords' : list str)
    (dob : option str) (separators separators' : list str) :
  keywords ≡ₚ keywords' → separators ≡ₚ separators' →
  build_bases keywords dob separators = build_bases keywords' dob separators'.
Proof. apply build_bases_perm. Qed.

(** X11. With ASCII keywords no base is empty, and the bases taken from
    the date of birth are runs of decimal digits that, put together, are
    the digits of the date in their order. *)
Theorem build_bases_nonempty `{Python} (keywords : list str) (dob : option str)
    (separators : list str) :
  Forall is_ascii keywords →
  (∀ x, x ∈ build_bases keywords dob separators → x ≠ []) ∧
  (∀ d, dob = Some d →
     Forall (λ t, t ∈ build_bases keywords dob separators ∧ t ≠ [] ∧
                  Forall (λ c, chr_isdecimal c = true) t) (findall_digits d) ∧
     join (findall_digits d) = filter (λ c, chr_isdecimal c = true) d).
Proof.
  intros Hk. split.
  - intros x [(w & Hw & Hne & Hx)|[(sep & i & j & a & b & _ & _ & Ha & _ & ->)|
                (d & _ & Hx)]]%elem_of_build_bases.
    + eapply Forall_forall in Hk; [|done].
      apply (case_variants_same_letters_of w x Hk), same_letters_length in Hx.
      destruct x; [|done]. by destruct w.
    + apply list_elem_of_lookup_2, list_elem_of_filter in Ha as [Hne _].
      by destruct a.
    + by apply elem_of_findall_digits in Hx as [? _].
  - intros d ->. destruct (findall_digits_go_spec [] d) as [Hall Hjoin]; [done|].
    split; [|done]. apply Forall_forall. intros t Ht. split.
    + apply elem_of_build_bases. right; right. by exists d.
    + by eapply Forall_forall in Hall.
Qed.

(** ** The wordlist *)

Section wordlist_more.
Context `{Python}.

Lemma elem_of_combine expanded years suffixes out x :
  x ∈ combine expanded years suffixes out ↔
  x ∈ out ∨ (in_window x ∧ ∃ v, v ∈ expanded ∧ candidate_of years suffixes v x).
Proof.
  unfold combine.
  rewrite (elem_of_foldl_gen _ (λ b x, ∃ y, y ∈ years ∧
             ∃ s, s ∈ suffixes ∧ x = (b ++ y) ++ s ∧ in_window x)).
  2:{ intros o b z _.
      rewrite (elem_of_foldl_gen _ (λ y x, ∃ s, s ∈ suffixes ∧
                 x = (b ++ y) ++ s ∧ in_window x)); [done|].
      intros o' y z' _.
      rewrite (elem_of_foldl_gen _ (λ s x, x = (b ++ y) ++ s ∧ in_window x)); [done|].
      intros o'' s z'' _. rewrite elem_of_maybe_add.
      split; [intros [[-> ?]|?]; [by right|by left]|].
      intros [?|[-> ?]]; [by right|by left]. }
  rewrite (elem_of_foldl_gen _ (λ b x, ∃ s, s ∈ suffixes ∧ x = b ++ s ∧ in_window x)).
  2:{ intros o b z _.
      rewrite (elem_of_foldl_gen _ (λ s x, x = b ++ s ∧ in_window x)); [done|].
      intros o' s z' _. rewrite elem_of_maybe_add.
      split; [intros [[-> ?]|?]; [by right|by left]|].
      intros [?|[-> ?]]; [by right|by left]. }
  rewrite (elem_of_foldl_gen _ (λ b x, ∃ y, y ∈ years ∧
             (x = b ++ y ∨ x = y ++ b) ∧ in_window x)).
  2:{ intros o b z _.
      rewrite (elem_of_foldl_gen _ (λ y x, (x = b ++ y ∨ x = y ++ b) ∧ in_window x));
        [done|].
      intros o' y z' _. rewrite !elem_of_maybe_add.
      split.
      - intros [[-> ?]|[[-> ?]|?]]; [right; split; [by right|done]
                                    |right; split; [by left|done]|by left].
      - intros [?|[[->| ->] ?]]; [by right; right|by right; left|by left]. }
  rewrite (elem_of_foldl_gen _ (λ b x, x = b ∧ in_window x)).
  2:{ intros o b z _. rewrite elem_of_maybe_add.
      split; [intros [[-> ?]|?]; [by right|by left]|].
      intros [?|[-> ?]]; [by right|by left]. }
  setoid_rewrite elem_of_set_iter. unfold candidate_of. split.
  - intros [[[[?|(b & ? & -> & ?)]|(b & ? & y & ? & Hx & ?)]|(b & ? & s & ? & -> & ?)]
           |(b & ? & y & ? & s & ? & -> & ?)].
    + by left.
    + right. split; [done|]. exists b. split; [done|]. by left.
    + right. split; [done|]. exists b. split; [done|]. right; left. by exists y.
    + right. split; [done|]. exists b. split; [done|]. right; right; left. by exists s.
    + right. split; [done|]. exists b. split; [done|]. right; right; right.
      exists y, s. by rewrite <-app_assoc.
  - intros [?|[Hw (b & Hb & [->|[(y & ? & Hx)|[(s & ? & ->)|(y & s & ? & ? & ->)]]])]].
    + by left; left; left; left.
    + left; left; left; right. by exists b.
    + left; left; right. exists b. split; [done|]. by exists y.
    + left; right. exists b. split; [done|]. by exists s.
    + right. exists b. split; [done|]. exists y. split; [done|]. exists s.
      by rewrite <-app_assoc.
Qed.

Lemma elem_of_sorted_by_len x xs : x ∈ sorted_by_len xs ↔ x ∈ xs.
Proof. unfold sorted_by_len. by rewrite merge_sort_Permutation. Qed.

Lemma expand_bases_sound bases aggressive max_candidates E v :
  expand_bases bases aggressive max_candidates = Some E → v ∈ E →
  ∃ b V, b ∈ bases ∧ leet_variants b aggressive 12 = Some V ∧ v ∈ V.
Proof.
  unfold expand_bases. intros HE. revert v.
  eapply (for_each_until_inv _ _
            (λ E, ∀ v, v ∈ E → ∃ b V, b ∈ bases ∧
                    leet_variants b aggressive 12 = Some V ∧ v ∈ V)); [| |exact HE].
  - intros b E0 E1 Hb%elem_of_set_iter IH (V & HV & [= <-])%bind_Some v.
    intros [?|?]%elem_of_union; [by apply IH|]. by exists b, V.
  - intros v Hv. by apply not_elem_of_empty in Hv.
Qed.

Lemma full_expansion_Some bases aggressive E :
  full_expansion bases aggressive = Some E →
  ∀ v, v ∈ E ↔ ∃ b V, b ∈ bases ∧ leet_variants b aggressive 12 = Some V ∧ v ∈ V.
Proof.
  intros (_ & Hl & HE)%expand_all_Some v. split.
  - intros [?%not_elem_of_empty|(b & V & Hb%elem_of_set_iter & ? & ?)]%HE; [done|].
    by exists b, V.
  - intros (b & V & Hb%elem_of_set_iter & HV & Hv).
    destruct (Hl b Hb) as (V' & HV' & Hsub). simplify_eq. by apply Hsub.
Qed.

Lemma expand_bases_full bases aggressive max_candidates E :
  full_expansion bases aggressive = Some E →
  (Z.of_nat (size E) ≤ max_candidates)%Z →
  expand_bases bases aggressive max_candidates = Some E.
Proof.
  intros Hfull Hmax. pose proof Hfull as (_ & Hl & HE)%expand_all_Some.
  unfold expand_bases.
  destruct (expand_until_no_break (λ b, leet_variants b aggressive 12)
              (set_iter bases) ∅ E max_candidates)
    as (E' & -> & _ & HE' & Hl'); [set_solver|done|done|].
  f_equal. apply set_eq. intros x. split; [apply HE'|].
  intros [?%not_elem_of_empty|(b & v & Hb & Hv & Hx)]%HE; [done|].
  destruct (Hl' b Hb) as (v' & Hv' & Hsub). simplify_eq. by apply Hsub.
Qed.

End wordlist_more.

(** X12. Every candidate of the wordlist is inside the length window and
    is a leetspeak variant of a base, alone or with a year after or before
    it, a suffix after it, or a year and a suffix after it. *)
Theorem generate_wordlist_sound `{Python} (keywords : list str) (dob : option str)
    (years : list str) (leet_mode : str) (suffixes separators : list str)
    (max_candidates : Z) (l : list str) (x : str) :
  generate_wordlist keywords dob years leet_mode suffixes separators max_candidates
  = Some l →
  x ∈ l →
  in_window x ∧
  ∃ b V v, b ∈ build_bases keywords dob separators ∧
    leet_variants b (bool_decide (str_lower leet_mode = cps "aggressive")) 12 = Some V ∧
    v ∈ V ∧ candidate_of years suffixes v x.
Proof.
  unfold generate_wordlist. intros (E & HE & [= <-])%bind_Some Hx.
  destruct (slice_to_take (sorted_by_len (set_iter (combine E years suffixes ∅)))
              max_candidates) as [n Hn].
  rewrite Hn in Hx. apply elem_of_take in Hx as (i & Hx & _).
  apply list_elem_of_lookup_2, elem_of_sorted_by_len, elem_of_set_iter in Hx.
  apply elem_of_combine in Hx as [?%not_elem_of_empty|(Hw & v & Hv & Hc)]; [done|].
  split; [done|].
  destruct (expand_bases_sound _ _ _ _ _ HE Hv) as (b & V & ? & ? & ?).
  by exists b, V, v.
Qed.

(** X13. When all the variants of all the bases fit under
    [max_candidates], the wordlist is returned, and if it is shorter than
    [max_candidates] it holds every candidate inside the length window:
    nothing was cut. *)
Theorem generate_wordlist_complete `{Python} (keywords : list str)
    (dob : option str) (years : list str) (leet_mode : str)
    (suffixes separators : list str) (max_candidates : Z) (E : gset str) :
  full_expansion (build_bases keywords dob separators)
    (bool_decide (str_lower leet_mode = cps "aggressive")) = Some E →
  (Z.of_nat (size E) ≤ max_candidates)%Z →
  ∃ l, generate_wordlist keywords dob years leet_mode suffixes separators
         max_candidates = Some l ∧
    ((Z.of_nat (length l) < max_candidates)%Z →
     ∀ x, x ∈ l ↔
       in_window x ∧
       ∃ b V v, b ∈ build_bases keywords dob separators ∧
         leet_variants b (bool_decide (str_lower leet_mode = cps "aggressive")) 12
         = Some V ∧
         v ∈ V ∧ candidate_of years suffixes v x).
Proof.
  intros Hfull Hmax. unfold generate_wordlist.
  rewrite (expand_bases_full _ _ _ _ Hfull Hmax). simpl.
  eexists. split; [done|]. intros Hlen x.
  set (l' := sorted_by_len (set_iter (combine E years suffixes ∅))) in *.
  assert (slice_to l' max_candidates = l') as ->.
  { unfold slice_to in *. rewrite bool_decide_eq_false_2 in * by lia.
    apply take_ge. rewrite length_take in Hlen. lia. }
  unfold l'. rewrite elem_of_sorted_by_len, elem_of_set_iter, elem_of_combine.
  rewrite elem_of_empty. split.
  - intros [[]|[Hw (v & (b & V & ? & ? & ?)%(full_expansion_Some _ _ _ Hfull) & Hc)]].
    split; [done|]. by exists b, V, v.
  - intros [Hw (b & V & v & ? & ? & ? & ?)]. right. split; [done|].
    exists v. split; [|done]. apply (full_expansion_Some _ _ _ Hfull). by exists b, V.
Qed.

Lemma set_iter_empty `{Python} : set_iter (∅ : gset str) = [].
Proof.
  apply Permutation_nil_r. rewrite set_iter_perm. by rewrite elements_empty.
Qed.

Lemma findall_digits_none `{Python} d :
  Forall (λ c, chr_isdecimal c = false) d → findall_digits d = [].
Proof.
  unfold findall_digits. induction 1 as [|c d Hc _ IH]; [done|].
  simpl. by rewrite Hc.
Qed.

(** X14. Without a non-empty keyword and without a digit in the date of
    birth there is no base, and the wordlist is empty whatever the years,
    suffixes and separators are. *)
Theorem generate_wordlist_no_bases `{Python} (keywords : list str)
    (dob : option str) (years : list str) (leet_mode : str)
    (suffixes separators : list str) (max_candidates : Z) :
  Forall (λ k, k = []) keywords →
  (∀ d, dob = Some d → Forall (λ c, chr_isdecimal c = false) d) →
  build_bases keywords dob separators = ∅ ∧
  generate_wordlist keywords dob years leet_mode suffixes separators max_candidates
  = Some [].
Proof.
  intros Hk Hd.
  assert (build_bases keywords dob separators = ∅) as Hb.
  { apply set_eq. intros x. rewrite elem_of_empty. split; [|done].
    intros [(w & Hw & Hne & _)|[(sep & i & j & a & b & _ & _ & Ha & _)|
              (d & -> & Hx)]]%elem_of_build_bases.
    - eapply Forall_forall in Hk; [|done]. done.
    - apply list_elem_of_lookup_2, list_elem_of_filter in Ha as [Hne Ha].
      eapply Forall_forall in Hk; [|done]. done.
    - rewrite findall_digits_none in Hx by (by apply Hd).
      by apply elem_of_nil in Hx. }
  split; [done|]. unfold generate_wordlist. rewrite Hb.
  unfold expand_bases. rewrite set_iter_empty. simpl.
  unfold combine. rewrite set_iter_empty. simpl. rewrite set_iter_empty.
  assert (sorted_by_len [] = []) as -> by reflexivity.
  unfold slice_to. case_bool_decide; by rewrite take_nil.
Qed.

Lemma candidate_of_perm years years' suffixes suffixes' v x :
  years ≡ₚ years' → suffixes ≡ₚ suffixes' →
  candidate_of years suffixes v x → candidate_of years' suffixes' v x.
Proof.
  intros Hy Hs. unfold candidate_of.
  intros [?|[(y & ? & ?)|[(s & ? & ?)|(y & s & ? & ? & ?)]]].
  - by left.
  - right; left. exists y. by rewrite <-Hy.
  - right; right; left. exists s. by rewrite <-Hs.
  - right; right; right. exists y, s. by rewrite <-Hy, <-Hs.
Qed.

Lemma combine_perm (R1 R2 : Python) expanded years years' suffixes suffixes' :
  years ≡ₚ years' → suffixes ≡ₚ suffixes' →
  @combine R1 expanded years suffixes ∅ = @combine R2 expanded years' suffixes' ∅.
Proof.
  intros Hy Hs. apply set_eq. intros x. rewrite !elem_of_combine.
  split; (intros [?|[? (v & ? & ?)]]; [by left|right; split; [done|]]; exists v;
          split; [done|]); by eapply candidate_of_perm.
Qed.

Lemma expand_bases_any_order (R1 R2 : Python) bases aggressive max_candidates E :
  set_Forall is_ascii bases →
  @full_expansion R1 bases aggressive = Some E →
  (Z.of_nat (size E) ≤ max_candidates)%Z →
  @expand_bases R2 bases aggressive max_candidates = Some E.
Proof.
  intros Hascii (_ & Hl & HE)%expand_all_Some Hmax. unfold expand_bases.
  destruct (expand_until_no_break (λ b, @leet_variants R2 b aggressive 12)
              (@set_iter R2 bases) ∅ E max_candidates)
    as (E' & -> & _ & Hsub & Hl'); [set_solver| |done|].
  { intros b Hb%elem_of_set_iter.
    rewrite (leet_variants_transfer R2), <-(leet_variants_transfer R1)
      by (by apply Hascii).
    apply Hl. by apply elem_of_set_iter. }
  f_equal. apply set_eq. intros x. split; [apply Hsub|].
  intros [?%not_elem_of_empty|(b & v & Hb%elem_of_set_iter & Hv & Hx)]%HE; [done|].
  destruct (Hl' b) as (v' & Hv' & Hsub'); [by apply elem_of_set_iter|].
  rewrite (leet_variants_transfer R2), <-(leet_variants_transfer R1) in Hv'
    by (by apply Hascii).
  simplify_eq. by apply Hsub'.
Qed.

(** X15. On ASCII arguments, and when all the variants of all the bases
    fit under [max_candidates], the wordlist is the same whatever the
    order in which sets are visited, whatever the runtime does outside
    ASCII, and whatever the order of the keywords, years, suffixes and
    separators. *)
Theorem generate_wordlist_order_independent (R1 R2 : Python)
    (keywords keywords' : list str) (dob : option str) (years years' : list str)
    (leet_mode : str) (suffixes suffixes' separators separators' : list str)
    (max_candidates : Z) (E : gset str) :
  Forall is_ascii keywords → Forall is_ascii separators →
  is_ascii (default [] dob) → is_ascii leet_mode →
  keywords ≡ₚ keywords' → years ≡ₚ years' → suffixes ≡ₚ suffixes' →
  separators ≡ₚ separators' →
  @full_expansion R1 (@build_bases R1 keywords dob separators)
    (bool_decide (@str_lower R1 leet_mode = cps "aggressive")) = Some E →
  (Z.of_nat (size E) ≤ max_candidates)%Z →
  @generate_wordlist R1 keywords dob years leet_mode suffixes separators
    max_candidates
  = @generate_wordlist R2 keywords' dob years' leet_mode suffixes' separators'
      max_candidates.
Proof.
  intros Hkw Hsep Hdob Hmode Hk Hy Hs Hp Hfull Hmax.
  pose proof (@build_bases_ascii R1 _ _ _ Hkw Hsep Hdob) as Hbases.
  assert (@build_bases R2 keywords' dob separators'
          = @build_bases R1 keywords dob separators) as Hb.
  { rewrite <-(@build_bases_perm R2 keywords keywords' dob separators separators')
      by done.
    by rewrite (build_bases_transfer R2), <-(build_bases_transfer R1). }
  unfold generate_wordlist. rewrite Hb.
  rewrite (@str_lower_ascii R2) by done.
  rewrite (@str_lower_ascii R1) in * by done.
  rewrite (expand_bases_any_order R1 R1 _ _ _ E),
    (expand_bases_any_order R1 R2 _ _ _ E) by done.
  simpl. do 2 f_equal.
  rewrite (combine_perm R2 R1 E years' years suffixes' suffixes) by done.
  by rewrite (sorted_by_len_transfer R1), (sorted_by_len_transfer R2).
Qed.

(** ** Leetspeak variants *)

Lemma chars_join_single (s : list str) :
  Forall (λ r : str, length r = 1%nat) s → chars (join s) = s.
Proof.
  induction 1 as [|r s Hr _ IH]; [done|].
  destruct r as [|c [|]]; try done.
  change (chars (join ([c] :: s))) with ([c] :: chars (join s)). by rewrite IH.
Qed.

Lemma lookup_chars (s : str) i r :
  chars s !! i = Some r ↔ ∃ c, r = [c] ∧ s !! i = Some c.
Proof.
  unfold chars. rewrite list_lookup_fmap. destruct (s !! i); simpl; naive_solver.
Qed.

Section leet_more.
Context `{Python}.

Lemma variant_items_chars word : variant_items word (chars word).
Proof. intros i r (c & -> & Hc)%lookup_chars. exists c. split; [done|by left]. Qed.

Lemma variant_items_substitute word pc s s' :
  pc.1 ∈ leet_positions word → substitute pc s = Some s' →
  variant_items word s → variant_items word s'.
Proof.
  destruct pc as [[i ch] k]. simpl.
  intros [(l & -> & Hl)%lookup_chars _]%elem_of_leet_positions.
  unfold substitute. simpl.
  intros (alts & Halts & (r & Hr & [Hi ->]%list_assign_Some)%bind_Some)%bind_Some Hs.
  intros j r' [(-> & <- & _)|[Hne Hj]]%list_lookup_insert_Some; [|by apply Hs].
  pose proof (LEET_MAP_single _ _ _ _ Halts Hr) as Hr1.
  destruct r as [|c [|]]; try done. exists c. split; [done|]. right.
  exists l, alts. split_and!; [done..|]. by eapply list_elem_of_lookup_2.
Qed.

Lemma variant_items_join word s v i c :
  variant_items word s → v = join s → v !! i = Some c → leet_char_at word i c.
Proof.
  intros Hs -> Hv.
  assert (chars (join s) !! i = Some [c]) as Hc by (apply lookup_chars; eauto).
  rewrite chars_join_single in Hc.
  - destruct (Hs _ _ Hc) as (c' & [= <-] & ?). done.
  - apply Forall_forall. intros r (j & Hj)%list_elem_of_lookup_1.
    by destruct (Hs _ _ Hj) as (c' & -> & _).
Qed.

Lemma leet_variants_char_at word aggressive cap V v i c :
  leet_variants word aggressive cap = Some V → v ∈ V → v !! i = Some c →
  leet_char_at word i c.
Proof.
  intros HV Hv Hc. destruct aggressive.
  - apply leet_variants_Some in HV
      as [[_ ->]|(_ & P & HP%leet_produced_aggressive & ->)].
    { apply elem_of_singleton in Hv as ->. by left. }
    apply elem_of_union in Hv as [->%elem_of_singleton|Hv]; [by left|].
    revert v Hv i c Hc.
    refine (for_each_until_inv _ _
              (λ P, ∀ v, v ∈ P → ∀ i c, v !! i = Some c → leet_char_at word i c)
              _ _ _ _ _ HP).
    + intros mask Q Q' _ HQ (s & Hs & _ & ->)%apply_variant_Some v.
      unfold set_add.
      intros [->%elem_of_singleton|Hv]%elem_of_union i c Hc; [|by eapply HQ].
      eapply (variant_items_join word s); [|done..].
      refine (for_each_inv _ (variant_items word) _ _ _ _ _ Hs);
        [|apply variant_items_chars].
      intros pc s0 s1 Hpc Hs0 Hs1. eapply variant_items_substitute; [|done..].
      destruct pc as [p k]. by apply elem_of_zip_l in Hpc.
    + intros v Hv. by apply not_elem_of_empty in Hv.
  - destruct (leet_variants_basic word cap V HV) as (_ & Hall & _).
    destruct (decide (v = word)) as [->|Hne]; [by left|].
    destruct (Hall v Hv Hne) as (j & ch & alts & c' & Hp & Halts & Hc' & Hj & ->).
    apply list_lookup_insert_Some in Hc as [(-> & <- & _)|[_ Hc]]; [|by left].
    apply elem_of_leet_positions in Hp as [(l & -> & Hl)%lookup_chars _].
    right. exists l, alts. split_and!; [done..|]. by eapply list_elem_of_lookup_2.
Qed.

End leet_more.

(** X16. In either mode every variant is the word with some characters
    replaced: at each index it holds the character of the word or one of
    the alternatives that [LEET_MAP] lists for the lowercase form of the
    word at that index. *)
Theorem leet_variants_sound `{Python} (word : str) (aggressive : bool) (cap : Z)
    (V : gset str) (v : str) :
  leet_variants word aggressive cap = Some V → v ∈ V →
  length v = length word ∧
  ∀ i c, v !! i = Some c → leet_char_at word i c.
Proof.
  intros HV Hv. split.
  - apply leet_variants_Some in HV as [[_ ->]|(_ & P & HP & ->)].
    + by apply elem_of_singleton in Hv as ->.
    + apply elem_of_union in Hv as [->%elem_of_singleton|Hv]; [done|].
      by eapply leet_produced_length.
  - intros i c. by eapply leet_variants_char_at.
Qed.

Lemma size_single_variants word (l : list (nat * str)) :
  (size (⋃ (single_variant word <$> l)) ≤ length l)%nat.
Proof.
  induction l as [|p l IH]; [by rewrite fmap_nil, union_list_nil, size_empty|].
  rewrite fmap_cons, union_list_cons, length_cons. unfold single_variant at 1.
  destruct (LEET_MAP !! p.2) as [alts|];
    [destruct (alts !! 1%nat) as [r|]|].
  - etrans; [apply size_set_add|]. lia.
  - rewrite (left_id_L ∅ (∪)). lia.
  - rewrite (left_id_L ∅ (∪)). lia.
Qed.

Lemma length_leet_positions `{Python} word :
  (length (leet_positions word) ≤ length (str_lower word))%nat.
Proof.
  unfold leet_positions. etrans; [apply length_filter|].
  unfold enumerate. by rewrite length_imap, length_chars.
Qed.

(** X17. The non-aggressive mode ignores [cap].  Besides the word it
    gives, for each character of [word.lower()] that is a key of
    [LEET_MAP], the word with the first substitute of that key (index 1 of
    its list, never a later one) written at that index; so there is at
    most one variant per character more than the word itself. *)
Theorem leet_variants_basic_spec `{Python} (word : str) (cap : Z) (V : gset str) :
  leet_variants word false cap = Some V →
  (∀ cap', leet_variants word false cap' = Some V) ∧
  (size V ≤ 1 + length (leet_positions word))%nat ∧
  (size V ≤ 1 + length (str_lower word))%nat ∧
  (∀ v, v ∈ V ↔
     v = word ∨
     ∃ i l alts c, str_lower word !! i = Some l ∧ LEET_MAP !! [l] = Some alts ∧
       alts !! 1%nat = Some [c] ∧ v = <[i:=c]> word).
Proof.
  intros HV.
  assert (size V ≤ 1 + length (leet_positions word))%nat as Hsize.
  { apply leet_variants_Some in HV
      as [[_ ->]|(_ & P & [-> _]%leet_produced_basic & ->)].
    - rewrite size_singleton. lia.
    - etrans; [apply size_set_add|]. apply le_n_S, size_single_variants. }
  split_and!; [done|done| |].
  - pose proof (length_leet_positions word). lia.
  - destruct (leet_variants_basic word cap V HV) as (Hword & Hall & Hpos).
    intros v. split.
    + intros Hv. destruct (decide (v = word)) as [->|Hne]; [by left|]. right.
      destruct (Hall v Hv Hne) as (i & ch & alts & c & Hp & Halts & Hc & _ & ->).
      apply elem_of_leet_positions in Hp as [(l & -> & Hl)%lookup_chars _].
      by exists i, l, alts, c.
    + intros [->|(i & l & alts & c & Hl & Halts & Hc & ->)]; [done|].
      destruct (Hpos i [l]) as (alts' & c' & Halts' & Hc' & Hin).
      { apply elem_of_leet_positions. split; [|by eexists].
        apply lookup_chars. eauto. }
      by simplify_eq.
Qed.

Lemma product_head (pools : list (list nat)) :
  Forall (λ p, ∃ t, p = 0%nat :: t) pools →
  ∃ rest, product pools = replicate (length pools) 0%nat :: rest.
Proof.
  induction 1 as [|p pools (t & ->) _ (rest & IH)]; simpl; [by eexists|].
  rewrite IH. simpl. by eexists.
Qed.

Lemma lookup_chars_eq (a b : str) i : chars a !! i = chars b !! i → a !! i = b !! i.
Proof.
  unfold chars. rewrite !list_lookup_fmap.
  destruct (a !! i), (b !! i); simpl; congruence.
Qed.

Section leet_first_mask.
Context `{Python}.

Lemma leet_positions_fun word i ch ch' :
  (i, ch) ∈ leet_positions word → (i, ch') ∈ leet_positions word → ch = ch'.
Proof. rewrite !elem_of_leet_positions. intros [? _] [? _]. congruence. Qed.

(** The first combination is all zeros. *)
Lemma leet_masks_head word :
  ∃ rest, leet_masks word = replicate (length (leet_positions word)) 0%nat :: rest.
Proof.
  unfold leet_masks. destruct (leet_choices_Some word) as (choices & -> & Hch).
  rewrite (Forall2_length _ _ _ Hch), <-(length_fmap (λ c, range 0 (min (length c) 3))).
  apply product_head. apply Forall_fmap, Forall_forall. intros alts Halts. simpl.
  apply list_elem_of_lookup_1 in Halts as [k Hk].
  destruct (Forall2_lookup_r _ _ _ _ _ Hch Hk) as (p & _ & Hp).
  destruct (LEET_MAP_shape _ _ Hp) as (_ & Hlen & _).
  unfold range. destruct (min (length alts) 3 - 0)%nat eqn:Hmin; [lia|].
  simpl. by eexists.
Qed.

(** The all-zero combination writes, at every position, the character of
    [word.lower()] found there, and nothing elsewhere. *)
Lemma zero_mask_items word ps s s' :
  (∀ p, p ∈ ps → p ∈ leet_positions word) →
  for_each substitute (zip ps (replicate (length ps) 0%nat)) s = Some s' →
  (∀ i ch, (i, ch) ∈ ps → s' !! i = Some ch) ∧
  (∀ i, i ∉ ps.*1 → s' !! i = s !! i).
Proof.
  revert s. induction ps as [|[i0 ch0] ps IH]; intros s Hps Hs; simpl in Hs.
  - simplify_eq. split; [|done]. intros i ch Hin. by apply elem_of_nil in Hin.
  - apply bind_Some in Hs as (s1 & Hs1 & Hs).
    destruct (IH s1) as [Ha Hb]; [by intros p Hp; apply Hps; right|done|].
    unfold substitute in Hs1. simpl in Hs1.
    apply bind_Some in Hs1 as (alts & Halts & Hs1).
    apply bind_Some in Hs1 as (r & Hr & [Hi ->]%list_assign_Some).
    destruct (LEET_MAP_shape _ _ Halts) as (_ & _ & H0).
    assert (r = ch0) as -> by congruence.
    split.
    + intros i ch [[= -> ->]|Hin]%elem_of_cons; [|by apply Ha].
      destruct (decide (i0 ∈ ps.*1)) as [Hin|Hnin].
      * apply list_elem_of_fmap in Hin as ([i ch'] & -> & Hin). simpl.
        rewrite (leet_positions_fun word i ch0 ch'); [by apply Ha| |].
        -- apply Hps. by left.
        -- apply Hps. by right.
      * rewrite Hb by done. by apply list_lookup_insert_eq.
    + intros i Hi'. rewrite fmap_cons, not_elem_of_cons in Hi'.
      destruct Hi' as [Hne Hnin]. simpl in Hne.
      rewrite Hb by done. by apply list_lookup_insert_ne.
Qed.

Lemma for_each_until_first {A} (body : A → gset str → option (gset str))
    (stop : gset str → bool) x l P :
  (∀ y Q Q', body y Q = Some Q' → Q ⊆ Q') →
  for_each_until body stop (x :: l) ∅ = Some P →
  ∃ P1, body x ∅ = Some P1 ∧ P1 ⊆ P.
Proof.
  intros Hmono HP. simpl in HP. apply bind_Some in HP as (P1 & HP1 & HP).
  exists P1. split; [done|]. destruct (stop P1); [by simplify_eq|].
  refine (for_each_until_inv _ _ (λ Q, P1 ⊆ Q) _ _ _ _ _ HP); [|done].
  intros y Q Q' _ HQ HQ'%Hmono. set_solver.
Qed.

End leet_first_mask.

(** X18. In the aggressive mode the first variant produced writes the
    character of [word.lower()] at every position whose lowercase form is
    a key of [LEET_MAP] and leaves the rest of the word as it is: a capital
    letter that can be substituted is lowercased.  That variant is in the
    result whatever [cap] is. *)
Theorem leet_variants_aggressive_lowercases `{Python} (word : str) (cap : Z)
    (V : gset str) :
  leet_variants word true cap = Some V → leet_positions word ≠ [] →
  ∃ v, v ∈ V ∧ length v = length word ∧
    ∀ i, v !! i =
         match str_lower word !! i with
         | Some l => if in_leet_map [l] then Some l else word !! i
         | None => word !! i
         end.
Proof.
  intros HV Hpos.
  apply leet_variants_Some in HV as [[? _]|(_ & P & HP & ->)]; [done|].
  pose proof HP as HP'%leet_produced_aggressive.
  destruct (leet_masks_head word) as [rest Hmasks]. rewrite Hmasks in HP'.
  apply for_each_until_first in HP' as (P1 & HP1 & Hsub).
  2:{ intros mask Q Q' ->%apply_variant_union. set_solver. }
  apply apply_variant_Some in HP1 as (s & Hs & Hshape & ->).
  exists (join s).
  assert (join s ∈ P) as Hin by (apply Hsub; unfold set_add; set_solver).
  split_and!; [set_solver|by eapply leet_produced_length|].
  apply zero_mask_items with (word := word) in Hs as [Ha Hb]; [|done].
  destruct Hshape as [_ Hsingle].
  intros i. pose proof (chars_join_single s Hsingle) as Hchars.
  destruct (str_lower word !! i) as [l|] eqn:Hl.
  - destruct (in_leet_map [l]) eqn:Hkey.
    + assert ((i, [l]) ∈ leet_positions word) as Hp.
      { apply elem_of_leet_positions. split; [apply lookup_chars; eauto|].
        by apply bool_decide_eq_true in Hkey. }
      apply Ha in Hp. rewrite <-Hchars in Hp.
      by apply lookup_chars in Hp as (c & [= <-] & ?).
    + apply lookup_chars_eq. rewrite Hchars. apply Hb.
      intros ([i' ch] & -> & Hp)%list_elem_of_fmap. simpl in *.
      apply elem_of_leet_positions in Hp as [(l' & -> & Hl')%lookup_chars Hsome].
      simplify_eq. unfold in_leet_map in Hkey.
      by apply bool_decide_eq_false in Hkey.
  - apply lookup_chars_eq. rewrite Hchars. apply Hb.
    intros ([i' ch] & -> & Hp)%list_elem_of_fmap. simpl in *.
    apply elem_of_leet_positions in Hp as [(l' & -> & Hl')%lookup_chars _].
    congruence.
Qed.

(** ** The fallback score *)

Lemma entropy_estimate_length `{Python} (password : str) :
  entropy_estimate password
  = (if bool_decide (length password = 0%nat) then 0
     else PrimFloat.of_uint63 (Uint63.of_Z (Z.of_nat (length password)))
          * 0x1.a37e623d2ba02p+2)%float.
Proof.
  unfold entropy_estimate, float_of_len. rewrite math_log2_94.
  destruct password; by repeat case_bool_decide.
Qed.

(** X19. Without the external engine the score depends on the length of
    the password alone, whatever its characters: 0 up to four characters,
    1 for five, 2 for six to nine, 3 for ten to twelve and 4 from thirteen
    on (checked for every length up to 10000). *)
Theorem fallback_score_by_length `{Python} (password : str)
    (user_inputs : option (list str)) :
  (length password ≤ Z.to_nat 10000)%nat →
  fallback_score (entropy_estimate password) = score_of_length (length password) ∧
  ∃ d, analyze_password None password user_inputs = Some d ∧
       dict_lookup d (cps "score")
       = Some (VInt (score_of_length (length password))).
Proof.
  intros Hlen.
  assert (fallback_score (entropy_estimate password)
          = score_of_length (length password)) as Hscore.
  { rewrite entropy_estimate_length.
    assert (forallb
      (λ n, bool_decide
         (fallback_score
            (if bool_decide (n = 0%nat) then 0
             else PrimFloat.of_uint63 (Uint63.of_Z (Z.of_nat n))
                  * 0x1.a37e623d2ba02p+2)%float
          = score_of_length n))
      (seq 0 (Z.to_nat 10001)) = true) as Hall by (vm_compute; reflexivity).
    assert (length password < Z.to_nat 10001)%nat as Hlt by lia.
    pose proof (forallb_seq_lt _ _ _ Hall Hlt) as Hcheck.
    by apply bool_decide_eq_true in Hcheck. }
  split; [done|]. unfold analyze_password. eexists. split; [done|].
  by rewrite <-Hscore.
Qed.

(** ** The command [generate] *)

Lemma LEET_MAP_clean :
  map_Forall (λ _ alts,
    Forall (λ r : str, Forall (λ c, c < 128 ∧ c ≠ 44 ∧ ascii_space c = false) r) alts)
    LEET_MAP.
Proof. apply (bool_decide_unpack _). by vm_compute. Qed.

Lemma text_lines_go_app cur x text :
  Forall (λ c, c ≠ 10) x →
  text_lines_go cur (x ++ 10 :: text) = reverse (reverse x ++ cur) :: text_lines text.
Proof.
  intros Hx. revert cur. induction Hx as [|c x Hc _ IH]; intros cur; simpl.
  - done.
  - rewrite (proj2 (N.eqb_neq c 10)) by done. rewrite IH.
    by rewrite reverse_cons, <-app_assoc.
Qed.

Lemma text_lines_written (wl : list str) (text : str) :
  Forall (Forall (λ c, c ≠ 10)) wl →
  foldl (λ text line, text ++ (line ++ [10])) text wl
  = text ++ concat ((λ line, line ++ [10]) <$> wl) ∧
  text_lines (concat ((λ line, line ++ [10]) <$> wl)) = wl.
Proof.
  intros Hwl. split.
  - clear Hwl. revert text. induction wl as [|x wl IH]; intros text; simpl.
    + by rewrite app_nil_r.
    + rewrite IH. by rewrite <-!app_assoc.
  - induction Hwl as [|x wl Hx _ IH]; [done|].
    rewrite fmap_cons, concat_cons, <-app_assoc.
    change ([10] ++ ?r) with (10 :: r).
    unfold text_lines at 1. rewrite text_lines_go_app by done.
    by rewrite app_nil_r, reverse_involutive, IH.
Qed.

Section clean_strings.
Context `{Python}.

Lemma decimal_clean c : chr_isdecimal c = true → is_sep c = false.
Proof.
  intros Hc. unfold is_sep. rewrite (chr_decimal_not_space c Hc), orb_false_r.
  apply N.eqb_neq. intros ->. by rewrite chr_isdecimal_ascii in Hc.
Qed.

Lemma ascii_clean c :
  c < 128 → is_sep c = false ↔ c ≠ 44 ∧ ascii_space c = false.
Proof.
  intros Hc. unfold is_sep. rewrite chr_isspace_ascii, orb_false_iff by done.
  by rewrite N.eqb_neq.
Qed.

Lemma str_of_int_clean z : clean (str_of_int z).
Proof.
  assert (∀ d, clean (uint_str d)) as Hd.
  { induction d; simpl; [constructor|..];
      (constructor; [by apply ascii_clean|done]). }
  destruct z; simpl; [| apply Hd |].
  - constructor; [by apply ascii_clean|constructor].
  - constructor; [by apply ascii_clean|apply Hd].
Qed.

Lemma clean_app x y : clean (x ++ y) ↔ clean x ∧ clean y.
Proof. apply Forall_app. Qed.

Lemma ascii_lower_eq_clean c d :
  ascii_lower c = ascii_lower d → d ≠ 44 → ascii_space d = false →
  c ≠ 44 ∧ ascii_space c = false.
Proof.
  unfold ascii_lower, ascii_space. intros Heq Hne Hsp.
  repeat match goal with
  | |- context [?a <=? ?b] => destruct (N.leb_spec a b)
  | H : context [?a <=? ?b] |- _ => destruct (N.leb_spec a b)
  end; simpl in *; try done; split; try done; lia.
Qed.

Lemma same_letters_clean v w :
  is_ascii v → is_ascii w → same_letters v w → clean w → clean v.
Proof.
  unfold same_letters, clean. intros Hv. revert w.
  induction Hv as [|c v Hc _ IH]; intros w Hw Heq Hcl; [constructor|].
  destruct Hw as [|d w Hd Hw]; [done|]. simpl in Heq.
  injection Heq as Hcd Heq. apply Forall_cons in Hcl as [Hdc Hcl].
  constructor; [|by eapply IH].
  apply ascii_clean in Hdc as [Hd1 Hd2]; [|done]. apply ascii_clean; [done|].
  by apply (ascii_lower_eq_clean c d).
Qed.

Lemma tokenize_keywords_ascii raw :
  is_ascii raw → Forall is_ascii (tokenize_keywords (Some raw)).
Proof.
  intros Hraw. apply Forall_forall.
  intros x (_ & _ & Hx)%elem_of_tokenize_keywords.
  pose proof (re_split_go_ascii _ false [] (strip raw)) as Hall.
  eapply Forall_forall in Hall; [done|constructor|by apply strip_ascii|done].
Qed.

Lemma tokenize_keywords_all_clean raw x :
  x ∈ tokenize_keywords (Some raw) → clean x.
Proof.
  intros (_ & _ & Hx)%elem_of_tokenize_keywords.
  pose proof (re_split_go_clean false [] (strip raw)) as Hall.
  eapply Forall_forall in Hall; [done|constructor|done].
Qed.

Lemma findall_d24_clean dob t : t ∈ findall_d24 dob → clean t.
Proof.
  intros Ht. pose proof (findall_d24_shape dob) as Hall.
  eapply Forall_forall in Hall as [_ Hd]; [|done].
  eapply Forall_impl; [exact Hd|]. apply decimal_clean.
Qed.

Lemma parse_years_clean years dob y : y ∈ parse_years years dob → clean y.
Proof.
  assert (∀ s x, x ∈ years_tokens s ∅ → clean x) as Hyears.
  { intros s x. destruct (match_year_range s) as [[g1 g2]|] eqn:Hm.
    - intros [?%not_elem_of_empty|(z & _ & ->)]%(elem_of_years_tokens_range _ _ _ _ _ Hm);
        [done|apply str_of_int_clean].
    - unfold years_tokens. rewrite Hm.
      rewrite (elem_of_foldl_set_add_if (λ y, isdigit y && len_2_or_4 y) id).
      intros [?%not_elem_of_empty|(t & Ht & _ & ->)]; [done|].
      pose proof (re_split_go_clean false [] (strip s)) as Hall.
      eapply Forall_forall in Hall; [done|constructor|done]. }
  assert (∀ x, x ∈ match truthy years with
                    | Some years => years_tokens years ∅
                    | None => ∅
                    end → clean x) as Hy.
  { intros x. destruct (truthy years); [apply Hyears|].
    by intros ?%not_elem_of_empty. }
  rewrite elem_of_parse_years. destruct (truthy dob) as [d|]; [|apply Hy].
  rewrite elem_of_dob_tokens. intros [?|[[_ ->]|[Ht _]]].
  - by apply Hy.
  - apply Forall_take. unfold join. apply Forall_concat, Forall_forall.
    intros t Ht. by eapply findall_d24_clean.
  - by eapply findall_d24_clean.
Qed.

Lemma build_bases_clean keywords dob separators b :
  Forall is_ascii keywords → Forall clean keywords → Forall clean separators →
  b ∈ build_bases keywords dob separators → clean b.
Proof.
  intros Hascii Hk Hs.
  intros [(w & Hw & _ & Hb)|[(sep & i & j & a & c & Hsep & _ & Ha & Hc & ->)|
            (d & _ & Hb)]]%elem_of_build_bases.
  - pose proof (proj1 (Forall_forall _ _) Hascii w Hw) as Hwa.
    eapply (same_letters_clean b w); [|done| |].
    + by apply (case_variants_ascii w Hwa).
    + by apply case_variants_same_letters_of.
    + by eapply Forall_forall in Hk.
  - apply list_elem_of_lookup_2, list_elem_of_filter in Ha as [_ Ha].
    apply list_elem_of_lookup_2, list_elem_of_filter in Hc as [_ Hc].
    rewrite !clean_app. split_and!.
    + by eapply Forall_forall in Hk.
    + by eapply Forall_forall in Hs.
    + by eapply (proj1 (Forall_forall _ _) Hk c).
  - apply elem_of_findall_digits in Hb as [_ Hb].
    eapply Forall_impl; [exact Hb|]. apply decimal_clean.
Qed.

Lemma leet_variants_clean b aggressive cap V v :
  leet_variants b aggressive cap = Some V → v ∈ V → clean b → clean v.
Proof.
  intros HV Hv Hb. apply Forall_lookup. intros i c Hc.
  destruct (leet_variants_char_at b aggressive cap V v i c HV Hv Hc)
    as [Hw|(l & alts & _ & Halts & Hin)].
  - by eapply Forall_lookup_1 in Hb.
  - pose proof (LEET_MAP_clean _ _ Halts) as Hall.
    eapply Forall_forall in Hall; [|exact Hin].
    apply Forall_cons in Hall as [(? & ? & ?) _]. by apply ascii_clean.
Qed.

Lemma candidate_of_clean years suffixes v x :
  Forall clean years → Forall clean suffixes → clean v →
  candidate_of years suffixes v x → clean x.
Proof.
  intros Hy Hs Hv.
  intros [->|[(y & Hin & [->| ->])|[(s & Hin & ->)|(y & s & Hin & Hin' & ->)]]];
    rewrite ?clean_app; split_and?; try done;
    try (by eapply (proj1 (Forall_forall _ _) Hy));
    by eapply (proj1 (Forall_forall _ _) Hs).
Qed.

End clean_strings.

Lemma file_write_line (line text : str) :
  file_write line text
  = if utf8_encodable line then Some (text ++ (line ++ [10])) else None.
Proof.
  unfold file_write, utf8_encodable. rewrite forallb_app. simpl.
  by rewrite !andb_true_r.
Qed.

Lemma file_write_lines (wl : list str) (text0 text : str) :
  for_each file_write wl text0 = Some text ↔
  Forall (λ line, utf8_encodable line = true) wl ∧
  text = foldl (λ text line, text ++ (line ++ [10])) text0 wl.
Proof.
  revert text0. induction wl as [|line wl IH]; intros text0; cbn [for_each foldl].
  - split; [intros [= <-]; by split|]. by intros [_ ->].
  - rewrite file_write_line.
    destruct (utf8_encodable line) eqn:Henc; cbn [mbind option_bind].
    + rewrite IH. split; [intros [? ?]; split; [by constructor|done]|].
      intros [[_ ?]%Forall_cons ?]. by split.
    + split; [done|]. intros [[? _]%Forall_cons _]. congruence.
Qed.

Lemma foldl_write_concat (wl : list str) (text : str) :
  foldl (λ text line, text ++ (line ++ [10])) text wl
  = text ++ concat ((λ line, line ++ [10]) <$> wl).
Proof.
  revert text. induction wl as [|x wl IH]; intros text; simpl.
  - by rewrite app_nil_r.
  - rewrite IH. by rewrite <-!app_assoc.
Qed.

Lemma utf8_encodable_written (wl : list str) (text : str) :
  utf8_encodable text = true →
  Forall (λ line, utf8_encodable line = true) wl →
  utf8_encodable (foldl (λ text line, text ++ (line ++ [10])) text wl) = true.
Proof.
  intros Htext Hwl. revert text Htext.
  induction Hwl as [|line wl Hline _ IH]; intros text Htext; simpl; [done|].
  apply IH. unfold utf8_encodable in *. by rewrite !forallb_app, Htext, Hline.
Qed.

Lemma utf8_encodable_ascii (x : str) : is_ascii x → utf8_encodable x = true.
Proof.
  intros Hx. unfold utf8_encodable. apply forallb_forall.
  intros c Hc%list_elem_of_In. eapply Forall_forall in Hx; [|done]. simpl in Hx.
  apply negb_true_iff, andb_false_iff. left. apply N.leb_gt. lia.
Qed.

Lemma str_of_int_ascii z : is_ascii (str_of_int z).
Proof.
  assert (∀ d, is_ascii (uint_str d)) as Hd.
  { induction d; simpl; [constructor|..]; (constructor; [done|done]). }
  destruct z; simpl; [| apply Hd |].
  - constructor; [done|constructor].
  - constructor; [done|apply Hd].
Qed.

Section ascii_candidates.
Context `{Python}.

Lemma findall_d24_go_ascii cur s :
  is_ascii cur → is_ascii s → Forall is_ascii (findall_d24_go cur s).
Proof.
  intros Hcur Hs. revert cur Hcur.
  induction Hs as [|c s Hc _ IH]; intros cur Hcur; simpl.
  - case_bool_decide; [|constructor].
    constructor; [by apply Forall_reverse|constructor].
  - destruct (chr_isdecimal c).
    + case_bool_decide; [|apply IH; by constructor].
      constructor; [|apply IH; constructor].
      apply Forall_reverse. by constructor.
    + case_bool_decide; [|apply IH; constructor].
      constructor; [by apply Forall_reverse|apply IH; constructor].
Qed.

Lemma parse_years_ascii years dob y :
  is_ascii (default [] years) → is_ascii (default [] dob) →
  y ∈ parse_years years dob → is_ascii y.
Proof.
  intros Hyears Hdob.
  assert (∀ x, x ∈ match truthy years with
                    | Some years => years_tokens years ∅
                    | None => ∅
                    end → is_ascii x) as Hy.
  { intros x. destruct (truthy years) as [s|] eqn:Hs;
      [|by intros ?%not_elem_of_empty].
    apply truthy_Some in Hs as [-> _]. simpl in Hyears.
    destruct (match_year_range s) as [[g1 g2]|] eqn:Hm.
    - intros [?%not_elem_of_empty|(z & _ & ->)]%(elem_of_years_tokens_range _ _ _ _ _ Hm);
        [done|apply str_of_int_ascii].
    - unfold years_tokens. rewrite Hm.
      rewrite (elem_of_foldl_set_add_if (λ y, isdigit y && len_2_or_4 y) id).
      intros [?%not_elem_of_empty|(t & Ht & _ & ->)]; [done|].
      pose proof (re_split_go_ascii _ false [] (strip s)) as Hall.
      eapply Forall_forall in Hall; [done|constructor|by apply strip_ascii|done]. }
  rewrite elem_of_parse_years. destruct (truthy dob) as [d|] eqn:Hd; [|apply Hy].
  apply truthy_Some in Hd as [-> _]. simpl in Hdob.
  assert (Forall is_ascii (findall_d24 d)) as Hm
    by (apply findall_d24_go_ascii; [constructor|done]).
  rewrite elem_of_dob_tokens. intros [?|[[_ ->]|[Ht _]]].
  - by apply Hy.
  - apply Forall_take. unfold join. by apply Forall_concat.
  - by eapply Forall_forall in Hm.
Qed.

Lemma leet_variants_ascii b aggressive cap V v :
  leet_variants b aggressive cap = Some V → v ∈ V → is_ascii b → is_ascii v.
Proof.
  intros HV Hv Hb. apply Forall_lookup. intros i c Hc.
  destruct (leet_variants_char_at b aggressive cap V v i c HV Hv Hc)
    as [Hw|(l & alts & _ & Halts & Hin)].
  - by eapply Forall_lookup_1 in Hb.
  - pose proof (LEET_MAP_clean _ _ Halts) as Hall.
    eapply Forall_forall in Hall; [|exact Hin].
    by apply Forall_cons in Hall as [(? & _ & _) _].
Qed.

Lemma candidate_of_ascii years suffixes v x :
  Forall is_ascii years → Forall is_ascii suffixes → is_ascii v →
  candidate_of years suffixes v x → is_ascii x.
Proof.
  intros Hy Hs Hv. unfold is_ascii in *.
  intros [->|[(y & Hin & [->| ->])|[(s & Hin & ->)|(y & s & Hin & Hin' & ->)]]];
    rewrite ?Forall_app; split_and?; try done;
    try (by eapply (proj1 (Forall_forall _ _) Hy));
    by eapply (proj1 (Forall_forall _ _) Hs).
Qed.

(** Where the candidates of a wordlist come from. *)
Lemma elem_of_generate_wordlist keywords dob years leet_mode suffixes separators
    max_candidates l x :
  generate_wordlist keywords dob years leet_mode suffixes separators max_candidates
  = Some l →
  x ∈ l →
  in_window x ∧
  ∃ b V v, b ∈ build_bases keywords dob separators ∧
    leet_variants b (bool_decide (str_lower leet_mode = cps "aggressive")) 12 = Some V ∧
    v ∈ V ∧ candidate_of years suffixes v x.
Proof.
  unfold generate_wordlist. intros (E & HE & [= <-])%bind_Some Hx.
  destruct (slice_to_take (sorted_by_len (set_iter (combine E years suffixes ∅)))
              max_candidates) as [n Hn].
  rewrite Hn in Hx. apply elem_of_take in Hx as (i & Hx & _).
  apply list_elem_of_lookup_2, elem_of_sorted_by_len, elem_of_set_iter in Hx.
  apply elem_of_combine in Hx as [?%not_elem_of_empty|(Hw & v & Hv & Hc)]; [done|].
  split; [done|].
  destruct (expand_bases_sound _ _ _ _ _ HE Hv) as (b & V & ? & ? & ?).
  by exists b, V, v.
Qed.

Lemma generate_wordlist_ascii keywords dob years leet_mode suffixes separators
    max_candidates l :
  Forall is_ascii keywords → Forall is_ascii separators →
  is_ascii (default [] dob) → Forall is_ascii years → Forall is_ascii suffixes →
  generate_wordlist keywords dob years leet_mode suffixes separators max_candidates
  = Some l →
  Forall is_ascii l.
Proof.
  intros Hk Hsep Hd Hy Hs Hl. apply Forall_forall. intros x Hx.
  destruct (elem_of_generate_wordlist _ _ _ _ _ _ _ _ _ Hl Hx)
    as [_ (b & V & v & Hb & HV & Hv & Hc)].
  eapply (candidate_of_ascii years suffixes); [done|done| |exact Hc].
  eapply leet_variants_ascii; [done..|].
  by apply (build_bases_ascii keywords dob separators Hk Hsep Hd).
Qed.

End ascii_candidates.

(** X20. The command [generate] on ASCII arguments raises nothing of its
    own: the wordlist is computed and every line can be encoded, so the
    command returns exactly when the system lets it open the output file,
    write it and print.  Whenever the command returns, the three calls
    have succeeded and the text written can be encoded.  What it writes
    when the keywords are ASCII is the wordlist of the tokenised
    arguments, one candidate per line: no candidate holds a comma or white
    space, so reading the lines of the file back gives the wordlist, and
    the number printed is the number of lines. *)
Theorem main_generate_lines `{Python} (sys : system) (args : generate_args) :
  (is_ascii (args_keywords args) → is_ascii (args_separators args) →
   is_ascii (default [] (args_dob args)) → is_ascii (args_years args) →
   is_ascii (args_suffixes args) →
   ∃ wl,
     generate_wordlist (tokenize_keywords (Some (args_keywords args)))
       (args_dob args) (parse_years (Some (args_years args)) (args_dob args))
       (args_leet args) (tokenize_keywords (Some (args_suffixes args)))
       (tokenize_keywords (Some (args_separators args))) (args_max args)
     = Some wl ∧
     Forall is_ascii wl ∧
     (is_Some (main_generate sys args) ↔
      sys_open sys (args_outfile args) = true ∧
      sys_write sys (args_outfile args) (concat ((λ line, line ++ [10]) <$> wl))
      = true ∧
      sys_print sys (cps "[+] Wrote " ++ str_of_int (Z.of_nat (length wl))
                     ++ cps " candidates to " ++ args_outfile args) = true)) ∧
  (∀ out, main_generate sys args = Some out →
     out_file out = args_outfile args ∧
     sys_open sys (out_file out) = true ∧
     sys_write sys (out_file out) (out_text out) = true ∧
     sys_print sys (out_printed out) = true ∧
     utf8_encodable (out_text out) = true) ∧
  (sys_open sys (args_outfile args) = false → main_generate sys args = None) ∧
  (∀ out, main_generate sys args = Some out → is_ascii (args_keywords args) →
     ∃ wl,
       generate_wordlist (tokenize_keywords (Some (args_keywords args)))
         (args_dob args) (parse_years (Some (args_years args)) (args_dob args))
         (args_leet args) (tokenize_keywords (Some (args_suffixes args)))
         (tokenize_keywords (Some (args_separators args))) (args_max args)
       = Some wl ∧
       Forall (λ x, clean x ∧ in_window x) wl ∧
       text_lines (out_text out) = wl ∧
       out_printed out
       = cps "[+] Wrote " ++ str_of_int (Z.of_nat (length (text_lines (out_text out))))
         ++ cps " candidates to " ++ args_outfile args).
Proof.
  assert (∀ out, main_generate sys args = Some out →
            ∃ wl,
              generate_wordlist (tokenize_keywords (Some (args_keywords args)))
                (args_dob args)
                (parse_years (Some (args_years args)) (args_dob args))
                (args_leet args) (tokenize_keywords (Some (args_suffixes args)))
                (tokenize_keywords (Some (args_separators args))) (args_max args)
              = Some wl ∧
              Forall (λ line, utf8_encodable line = true) wl ∧
              sys_open sys (args_outfile args) = true ∧
              sys_write sys (args_outfile args)
                (foldl (λ text line, text ++ (line ++ [10])) [] wl) = true ∧
              sys_print sys (cps "[+] Wrote " ++ str_of_int (Z.of_nat (length wl))
                             ++ cps " candidates to " ++ args_outfile args) = true ∧
              out = {| out_file := args_outfile args;
                       out_text := foldl (λ text line, text ++ (line ++ [10])) [] wl;
                       out_printed :=
                         cps "[+] Wrote " ++ str_of_int (Z.of_nat (length wl))
                         ++ cps " candidates to " ++ args_outfile args |}) as Hinv.
  { intros out Hout. unfold main_generate in Hout.
    apply bind_Some in Hout as (wl & Hwl & Hout). exists wl.
    destruct (sys_open sys (args_outfile args)) eqn:Hopen; [|done]. simpl in Hout.
    apply bind_Some in Hout as (text & [Henc ->]%file_write_lines & Hout).
    destruct (sys_write sys (args_outfile args) _) eqn:Hwrite; [|done].
    simpl in Hout.
    destruct (sys_print sys _) eqn:Hprint; [|done]. simpl in Hout.
    by simplify_eq. }
  split_and!.
  - intros Hk Hs Hd Hy Hx.
    destruct (generate_wordlist_ascii_is_Some
                (tokenize_keywords (Some (args_keywords args))) (args_dob args)
                (parse_years (Some (args_years args)) (args_dob args))
                (args_leet args) (tokenize_keywords (Some (args_suffixes args)))
                (tokenize_keywords (Some (args_separators args))) (args_max args))
      as [wl Hwl]; [by apply tokenize_keywords_ascii..|done|].
    assert (Forall is_ascii wl) as Hascii.
    { eapply generate_wordlist_ascii; [| | | | |exact Hwl];
        [by apply tokenize_keywords_ascii..|done| |by apply tokenize_keywords_ascii].
      apply Forall_forall. intros y. by apply parse_years_ascii. }
    assert (Forall (λ line, utf8_encodable line = true) wl) as Henc.
    { eapply Forall_impl; [exact Hascii|]. apply utf8_encodable_ascii. }
    exists wl. split_and!; [done..|].
    pose proof (foldl_write_concat wl []) as Htext.
    simpl in Htext. split.
    + intros [out (wl' & Hwl' & _ & Hopen & Hwrite & Hprint & _)%Hinv].
      rewrite Hwl in Hwl'. injection Hwl' as <-. by rewrite <-Htext.
    + intros (Hopen & Hwrite & Hprint). unfold main_generate.
      rewrite Hwl. cbn [mbind option_bind]. rewrite Hopen. cbn [negb].
      rewrite (proj2 (file_write_lines wl [] _) (conj Henc eq_refl)).
      cbn [mbind option_bind]. rewrite Htext, Hwrite. cbn [negb].
      rewrite Hprint. cbn [negb]. by eexists.
  - intros out (wl & _ & Henc & Hopen & Hwrite & Hprint & ->)%Hinv. simpl.
    split_and!; [done..|].
    by apply utf8_encodable_written.
  - intros Hopen. destruct (main_generate sys args) as [out|] eqn:Hout; [|done].
    destruct (Hinv out eq_refl) as (wl & _ & _ & Hopen' & _). congruence.
  - intros out (wl & Hwl & _ & _ & _ & _ & ->)%Hinv Hk. exists wl. simpl.
    assert (Forall (λ x, clean x ∧ in_window x) wl) as Hall.
    { apply Forall_forall. intros x Hx.
      destruct (elem_of_generate_wordlist _ _ _ _ _ _ _ _ _ Hwl Hx)
        as [Hw (b & V & v & Hb & HV & Hv & Hc)].
      split; [|done].
      eapply candidate_of_clean; [| | |exact Hc].
      - apply Forall_forall. intros y. apply parse_years_clean.
      - apply Forall_forall. intros s. apply tokenize_keywords_all_clean.
      - eapply leet_variants_clean; [done..|].
        eapply build_bases_clean; [| | |exact Hb].
        + by apply tokenize_keywords_ascii.
        + apply Forall_forall. intros k. apply tokenize_keywords_all_clean.
        + apply Forall_forall. intros s. apply tokenize_keywords_all_clean. }
    destruct (text_lines_written wl []) as [Htext Hlines].
    { eapply Forall_impl; [exact Hall|]. intros x [Hx _].
      eapply Forall_impl; [exact Hx|]. simpl. intros c Hc ->.
      unfold is_sep in Hc. by rewrite chr_isspace_ascii in Hc. }
    rewrite Htext. simpl. rewrite Hlines. done.
Qed.

(** ** More on the wordlist *)

(** X21. When all the variants of all the bases fit under the smaller of
    two limits, the wordlist for the smaller limit is the beginning of the
    wordlist for the larger one. *)
Theorem generate_wordlist_prefix `{Python} (keywords : list str) (dob : option str)
    (years : list str) (leet_mode : str) (suffixes separators : list str)
    (max1 max2 : Z) (E : gset str) :
  full_expansion (build_bases keywords dob separators)
    (bool_decide (str_lower leet_mode = cps "aggressive")) = Some E →
  (Z.of_nat (size E) ≤ max1)%Z → (max1 ≤ max2)%Z →
  ∃ l1 l2,
    generate_wordlist keywords dob years leet_mode suffixes separators max1
    = Some l1 ∧
    generate_wordlist keywords dob years leet_mode suffixes separators max2
    = Some l2 ∧
    l1 = take (Z.to_nat max1) l2.
Proof.
  intros Hfull H1 H12. unfold generate_wordlist.
  rewrite (expand_bases_full _ _ max1 _ Hfull), (expand_bases_full _ _ max2 _ Hfull)
    by lia.
  simpl. eexists _, _. split_and!; [done..|].
  unfold slice_to. rewrite !bool_decide_eq_false_2 by lia.
  rewrite take_take. f_equal. lia.
Qed.

(** A second runtime: CPython's built-ins, with every set visited in the
    opposite order. *)
Definition cpython_reversed : Python := {|
  str_lower := CPython.lower;
  str_upper := CPython.upper;
  str_capitalize := CPython.capitalize;
  str_title := CPython.title;
  chr_isspace := ascii_space;
  chr_isdecimal := ascii_digit;
  chr_isdigit := ascii_digit;
  chr_decimal := CPython.decimal;
  set_iter := λ X, reverse (elements X);
  math_log2 := CPython.log2;
  py_round := CPython.round;
  set_iter_perm := λ X, reverse_Permutation (elements X);
  str_lower_ascii := cpython_lower_ascii;
  str_upper_ascii := λ s _, eq_refl;
  str_capitalize_ascii := cpython_capitalize_ascii;
  str_title_ascii := cpython_title_ascii;
  chr_isspace_ascii := λ c _, eq_refl;
  chr_isdecimal_ascii := λ c _, eq_refl;
  chr_isdigit_ascii := λ c _, eq_refl;
  chr_decimal_ascii := λ c _, eq_refl;
  chr_decimal_not_space := ascii_digit_not_space;
  math_log2_94 := eq_refl;
|}.

(** X22. When the variants do not fit under [max_candidates] the
    expansion loop is left early and the wordlist depends on the order in
    which the set of bases is visited: for three keywords of four digits
    and the limit 1, two runtimes that differ in that order alone return
    different lists. *)
Theorem generate_wordlist_order_dependent :
  ∃ R1 R2 : Python,
    (∀ X, @set_iter R2 X = reverse (@set_iter R1 X)) ∧
    @str_lower R1 = @str_lower R2 ∧ @str_upper R1 = @str_upper R2 ∧
    @str_capitalize R1 = @str_capitalize R2 ∧ @str_title R1 = @str_title R2 ∧
    @generate_wordlist R1 [cps "1111"; cps "2222"; cps "3333"] None []
      (cps "basic") [] [] 1 = Some [cps "2222"] ∧
    @generate_wordlist R2 [cps "1111"; cps "2222"; cps "3333"] None []
      (cps "basic") [] [] 1 = Some [cps "1111"].
Proof.
  exists cpython, cpython_reversed. split_and!; try done; by vm_compute.
Qed.

(** X23. A word none of whose characters has a lowercase form among the
    keys of [LEET_MAP], a number for one, is its only variant in either
    mode. *)
Theorem leet_variants_no_key `{Python} (word : str) (aggressive : bool) (cap : Z) :
  is_ascii word → Forall (λ c, in_leet_map [ascii_lower c] = false) word →
  leet_positions word = [] ∧ leet_variants word aggressive cap = Some {[ word ]}.
Proof.
  intros Hascii Hkeys.
  assert (leet_positions word = []) as Hpos.
  { apply elem_of_nil_inv. intros [i ch] [Hi Hsome]%elem_of_leet_positions.
    rewrite str_lower_ascii in Hi by done.
    apply lookup_chars in Hi as (l & -> & Hl).
    apply list_lookup_fmap_Some in Hl as (c & -> & Hc).
    eapply Forall_lookup_1 in Hkeys; [|done]. simpl in Hkeys.
    unfold in_leet_map in Hkeys. by apply bool_decide_eq_false in Hkeys. }
  split; [done|]. unfold leet_variants. by rewrite Hpos.
Qed.

(** * Part IV: the further properties at concrete inputs *)

Lemma tokenize_keywords_clean_witness :
  tokenize_keywords (Some (cps " , ")) = [].
Proof.
  destruct (tokenize_keywords_clean None) as (_ & _ & _ & Hsep).
  apply Hsep. apply (bool_decide_unpack _). vm_compute. reflexivity.
Defined.

Lemma tokenize_keywords_join_witness :
  tokenize_keywords (Some (join_with (cps ", ") [cps "naman"; cps "patil"]))
  = [cps "naman"; cps "patil"].
Proof.
  apply tokenize_keywords_join.
  - discriminate.
  - apply (bool_decide_unpack _). vm_compute. reflexivity.
  - unfold clean_token. apply (bool_decide_unpack _). vm_compute. reflexivity.
Defined.

Lemma parse_years_list_witness :
  cps "21" ∈ tokenize_keywords (Some (cps "20,21,2022,123")) ∧
  isdigit (cps "21") = true ∧
  (length (cps "21") = 2%nat ∨ length (cps "21") = 4%nat).
Proof.
  apply (parse_years_list (cps "20,21,2022,123") (cps "21")).
  - vm_compute. reflexivity.
  - apply (bool_decide_unpack _). vm_compute. reflexivity.
Defined.

Lemma parse_years_reversed_range_witness :
  parse_years (Some (cps "2025-2018")) None = [].
Proof.
  apply (parse_years_reversed_range (cps "2025-2018") (cps "2025") (cps "2018")).
  - vm_compute. reflexivity.
  - vm_compute. reflexivity.
Defined.

Lemma parse_years_range_width_witness :
  ∃ x, x ∈ parse_years (Some (cps "0998-1001")) None ∧ (length x < 4)%nat.
Proof.
  destruct (parse_years_range_width (cps "0998-1001") (cps "0998") (cps "1001"))
    as [_ Hshort].
  - apply (bool_decide_unpack _). vm_compute. reflexivity.
  - vm_compute. reflexivity.
  - apply Hshort; vm_compute; [reflexivity|discriminate].
Defined.

Lemma case_variants_same_letters_witness :
  cps "naman" ∈ case_variants (cps "naman") ∧
  (size (case_variants (cps "naman")) ≤ 5)%nat.
Proof.
  destruct (case_variants_same_letters (cps "naman")) as (Hin & Hsize & _).
  - apply (bool_decide_unpack _). vm_compute. reflexivity.
  - split; [exact Hin|exact Hsize].
Defined.

Lemma build_bases_permutation_witness :
  build_bases [cps "naman"; cps "patil"] None [cps "_"; cps "-"]
  = build_bases [cps "patil"; cps "naman"] None [cps "-"; cps "_"].
Proof. apply build_bases_permutation; apply perm_swap. Defined.

Lemma build_bases_nonempty_witness :
  join (findall_digits (cps "2002-08-09"))
  = filter (λ c, chr_isdecimal c = true) (cps "2002-08-09").
Proof.
  destruct (build_bases_nonempty [cps "naman"] (Some (cps "2002-08-09")) [])
    as [_ Hdob].
  - apply (bool_decide_unpack _). vm_compute. reflexivity.
  - destruct (Hdob (cps "2002-08-09") eq_refl) as [_ Hjoin]. exact Hjoin.
Defined.

Lemma generate_wordlist_sound_witness :
  in_window (cps "n4man2024!") ∧
  ∃ b V v, b ∈ build_bases [cps "naman"] None [] ∧
    leet_variants b (bool_decide (str_lower (cps "basic") = cps "aggressive")) 12
    = Some V ∧
    v ∈ V ∧ candidate_of [cps "2024"] [cps "!"] v (cps "n4man2024!").
Proof.
  apply (generate_wordlist_sound [cps "naman"] None [cps "2024"] (cps "basic")
           [cps "!"] [] 1000
           (default [] (generate_wordlist [cps "naman"] None [cps "2024"]
                          (cps "basic") [cps "!"] [] 1000))).
  - vm_compute. reflexivity.
  - apply (bool_decide_unpack _). vm_compute. reflexivity.
Defined.

Lemma generate_wordlist_complete_witness :
  ∃ l, generate_wordlist [cps "naman"] None [cps "2024"] (cps "basic") [cps "!"] []
         1000 = Some l ∧
    ((Z.of_nat (length l) < 1000)%Z →
     ∀ x, x ∈ l ↔
       in_window x ∧
       ∃ b V v, b ∈ build_bases [cps "naman"] None [] ∧
         leet_variants b (bool_decide (str_lower (cps "basic") = cps "aggressive")) 12
         = Some V ∧
         v ∈ V ∧ candidate_of [cps "2024"] [cps "!"] v x).
Proof.
  apply (generate_wordlist_complete [cps "naman"] None [cps "2024"] (cps "basic")
           [cps "!"] [] 1000
           (default ∅ (full_expansion (build_bases [cps "naman"] None [])
                         (bool_decide (str_lower (cps "basic") = cps "aggressive"))))).
  - vm_compute. reflexivity.
  - vm_compute. discriminate.
Defined.

Lemma generate_wordlist_no_bases_witness :
  generate_wordlist [[]] (Some (cps "n/a")) [cps "2024"] (cps "basic") [cps "!"]
    [cps "_"] 100 = Some [].
Proof.
  destruct (generate_wordlist_no_bases [[]] (Some (cps "n/a")) [cps "2024"]
              (cps "basic") [cps "!"] [cps "_"] 100) as [_ Hnone].
  - apply (bool_decide_unpack _). vm_compute. reflexivity.
  - intros d Hd. injection Hd as <-.
    apply (bool_decide_unpack _). vm_compute. reflexivity.
  - exact Hnone.
Defined.

Lemma generate_wordlist_order_independent_witness :
  @generate_wordlist cpython [cps "naman"; cps "patil"] (Some (cps "2002-08-09"))
    [cps "2024"; cps "02"] (cps "aggressive") [cps "!"; cps "123"] [cps "_"] 20000
  = @generate_wordlist cpython_reversed [cps "patil"; cps "naman"]
      (Some (cps "2002-08-09")) [cps "02"; cps "2024"] (cps "aggressive")
      [cps "123"; cps "!"] [cps "_"] 20000.
Proof.
  apply (generate_wordlist_order_independent cpython cpython_reversed
           [cps "naman"; cps "patil"] [cps "patil"; cps "naman"]
           (Some (cps "2002-08-09")) [cps "2024"; cps "02"] [cps "02"; cps "2024"]
           (cps "aggressive") [cps "!"; cps "123"] [cps "123"; cps "!"]
           [cps "_"] [cps "_"] 20000
           (default ∅ (@full_expansion cpython
                         (@build_bases cpython [cps "naman"; cps "patil"]
                            (Some (cps "2002-08-09")) [cps "_"])
                         (bool_decide (@str_lower cpython (cps "aggressive")
                                       = cps "aggressive"))))).
  - apply (bool_decide_unpack _). vm_compute. reflexivity.
  - apply (bool_decide_unpack _). vm_compute. reflexivity.
  - apply (bool_decide_unpack _). vm_compute. reflexivity.
  - apply (bool_decide_unpack _). vm_compute. reflexivity.
  - apply perm_swap.
  - apply perm_swap.
  - apply perm_swap.
  - reflexivity.
  - vm_compute. reflexivity.
  - vm_compute. discriminate.
Defined.

Lemma leet_variants_sound_witness :
  length (cps "n4m@n") = length (cps "naman") ∧
  ∀ i c, cps "n4m@n" !! i = Some c → leet_char_at (cps "naman") i c.
Proof.
  apply (leet_variants_sound (cps "naman") true 12
           (default ∅ (leet_variants (cps "naman") true 12))).
  - vm_compute. reflexivity.
  - apply (bool_decide_unpack _). vm_compute. reflexivity.
Defined.

Lemma leet_variants_basic_spec_witness :
  (size (default ∅ (leet_variants (cps "naman") false 16)) ≤ 1 + 5)%nat ∧
  cps "n4man" ∈ default ∅ (leet_variants (cps "naman") false 16).
Proof.
  destruct (leet_variants_basic_spec (cps "naman") 16
              (default ∅ (leet_variants (cps "naman") false 16)))
    as (_ & _ & Hsize & Hin).
  - vm_compute. reflexivity.
  - split; [exact Hsize|]. apply Hin. right.
    exists 1%nat, 97, [cps "a"; cps "4"; cps "@"], 52.
    split_and!; vm_compute; reflexivity.
Defined.

Lemma leet_variants_aggressive_lowercases_witness :
  ∃ v, v ∈ default ∅ (leet_variants (cps "NAMAN") true 12) ∧
    length v = length (cps "NAMAN") ∧
    ∀ i, v !! i =
         match str_lower (cps "NAMAN") !! i with
         | Some l => if in_leet_map [l] then Some l else cps "NAMAN" !! i
         | None => cps "NAMAN" !! i
         end.
Proof.
  apply (leet_variants_aggressive_lowercases (cps "NAMAN") 12).
  - vm_compute. reflexivity.
  - vm_compute. discriminate.
Defined.

Lemma fallback_score_by_length_witness :
  fallback_score (entropy_estimate (cps "correct horse"))
  = score_of_length (length (cps "correct horse")) ∧
  ∃ d, analyze_password None (cps "correct horse") None = Some d ∧
       dict_lookup d (cps "score")
       = Some (VInt (score_of_length (length (cps "correct horse")))).
Proof.
  apply (fallback_score_by_length (cps "correct horse") None).
  simpl. lia.
Defined.

Lemma main_generate_lines_witness :
  is_Some (main_generate
    {| sys_open := λ path, negb (bool_decide (path = []));
       sys_write := λ _ _, true;
       sys_print := λ _, true |}
    {| args_keywords := cps "naman,patil"; args_dob := Some (cps "2002-08-09");
       args_years := cps "2015-2026"; args_leet := cps "basic";
       args_suffixes := cps "!,@,#,123,*"; args_separators := cps "_,-,.";
       args_max := 20000; args_outfile := cps "wordlist.txt" |}) ∧
  main_generate
    {| sys_open := λ path, negb (bool_decide (path = []));
       sys_write := λ _ _, true;
       sys_print := λ _, true |}
    {| args_keywords := cps "naman,patil"; args_dob := Some (cps "2002-08-09");
       args_years := cps "2015-2026"; args_leet := cps "basic";
       args_suffixes := cps "!,@,#,123,*"; args_separators := cps "_,-,.";
       args_max := 20000; args_outfile := [] |} = None.
Proof.
  split.
  - destruct (main_generate_lines
      {| sys_open := λ path, negb (bool_decide (path = []));
         sys_write := λ _ _, true;
         sys_print := λ _, true |}
      {| args_keywords := cps "naman,patil"; args_dob := Some (cps "2002-08-09");
         args_years := cps "2015-2026"; args_leet := cps "basic";
         args_suffixes := cps "!,@,#,123,*"; args_separators := cps "_,-,.";
         args_max := 20000; args_outfile := cps "wordlist.txt" |}) as [Hret _].
    destruct Hret as (wl & _ & _ & Hiff);
      [apply (bool_decide_unpack _); vm_compute; reflexivity..|].
    apply Hiff. split_and!; reflexivity.
  - destruct (main_generate_lines
      {| sys_open := λ path, negb (bool_decide (path = []));
         sys_write := λ _ _, true;
         sys_print := λ _, true |}
      {| args_keywords := cps "naman,patil"; args_dob := Some (cps "2002-08-09");
         args_years := cps "2015-2026"; args_leet := cps "basic";
         args_suffixes := cps "!,@,#,123,*"; args_separators := cps "_,-,.";
         args_max := 20000; args_outfile := [] |}) as (_ & _ & Hfail & _).
    apply Hfail. reflexivity.
Defined.

Lemma generate_wordlist_prefix_witness :
  ∃ l1 l2,
    generate_wordlist [cps "naman"] None [cps "2024"] (cps "basic") [cps "!"] [] 10
    = Some l1 ∧
    generate_wordlist [cps "naman"] None [cps "2024"] (cps "basic") [cps "!"] [] 1000
    = Some l2 ∧
    l1 = take (Z.to_nat 10) l2.
Proof.
  apply (generate_wordlist_prefix [cps "naman"] None [cps "2024"] (cps "basic")
           [cps "!"] [] 10 1000
           (default ∅ (full_expansion (build_bases [cps "naman"] None [])
                         (bool_decide (str_lower (cps "basic") = cps "aggressive"))))).
  - vm_compute. reflexivity.
  - vm_compute. discriminate.
  - vm_compute. discriminate.
Defined.

Lemma leet_variants_no_key_witness :
  leet_positions (cps "2002") = [] ∧
  leet_variants (cps "2002") true 12 = Some {[ cps "2002" ]}.
Proof.
  apply (leet_variants_no_key (cps "2002") true 12).
  - apply (bool_decide_unpack _). vm_compute. reflexivity.
  - apply (bool_decide_unpack _). vm_compute. reflexivity.
Defined.
